(** * RapidBuild platform API: version lifecycle, promotion and app setup

    A shallow embedding of the Go services of the platform API
    (internal/utils, internal/services) together with the properties of
    the provisioning and promotion pipeline.

    Go strings are byte sequences: they are modelled as [string] (a list
    of 8-bit [ascii] characters).  Go's [int] is a 64-bit two's
    complement integer: it is modelled as [Z] with the wrap-around
    written out.  A [map[string]interface{}] is a [gmap string Value]
    over a type of dynamically typed values. *)

From Stdlib Require Import ZArith Lia Ascii String List Sorted.
From Stdlib Require Import DecimalString.
From stdpp Require Import base strings gmap list.

Open Scope string_scope.

(** ** Byte-level helpers shared by the packages *)

Module Bytes.

(** [c] lies between [lo] and [hi], as in Go's ['a' <= c && c <= 'z']. *)
Definition between (lo hi c : ascii) : bool :=
  (N_of_ascii lo <=? N_of_ascii c)%N && (N_of_ascii c <=? N_of_ascii hi)%N.

Fixpoint map_bytes (f : ascii → ascii) (s : string) : string :=
  match s with
  | EmptyString => EmptyString
  | String c r => String (f c) (map_bytes f r)
  end.

Fixpoint all_bytes (p : ascii → bool) (s : string) : bool :=
  match s with
  | EmptyString => true
  | String c r => p c && all_bytes p r
  end.

(** [strings.ReplaceAll(s, old, new)] for a one-byte [old]: every
    occurrence of the byte is replaced by [new]. *)
Fixpoint ReplaceAll (s : string) (old : ascii) (new : string) : string :=
  match s with
  | EmptyString => EmptyString
  | String c r =>
      if Ascii.eqb c old then new +:+ ReplaceAll r old new
      else String c (ReplaceAll r old new)
  end.

(** [regexp.MustCompile("C+").ReplaceAllString(s, repl)] for a
    character class [C] given as a predicate on bytes: every maximal
    run of bytes of the class is replaced by one copy of [repl].
    [in_run] records that the previous byte belonged to the run being
    replaced. *)
Fixpoint replace_runs_from (cls : ascii → bool) (repl : string)
         (in_run : bool) (s : string) : string :=
  match s with
  | EmptyString => EmptyString
  | String c r =>
      if cls c then
        if in_run then replace_runs_from cls repl true r
        else repl +:+ replace_runs_from cls repl true r
      else String c (replace_runs_from cls repl false r)
  end.

Definition ReplaceAllString (cls : ascii → bool) (s repl : string) : string :=
  replace_runs_from cls repl false s.

(** [strings.TrimLeft], [strings.TrimRight] and [strings.Trim] for a
    one-byte cutset. *)
Fixpoint TrimLeft (s : string) (cut : ascii) : string :=
  match s with
  | EmptyString => EmptyString
  | String c r => if Ascii.eqb c cut then TrimLeft r cut else s
  end.

Fixpoint TrimRight (s : string) (cut : ascii) : string :=
  match s with
  | EmptyString => EmptyString
  | String c r =>
      match TrimRight r cut with
      | EmptyString => if Ascii.eqb c cut then EmptyString else String c EmptyString
      | r' => String c r'
      end
  end.

Definition Trim (s : string) (cut : ascii) : string :=
  TrimRight (TrimLeft s cut) cut.

(** The slice expression [s[n:]]. *)
Definition slice_from (s : string) (n : nat) : string :=
  substring n (String.length s - n) s.

(** [strings.Contains(s, sub)]. *)
Fixpoint Contains (s sub : string) : bool :=
  String.prefix sub s ||
  match s with
  | EmptyString => false
  | String _ r => Contains r sub
  end.

(** [%d] of [fmt.Sprintf]. *)
Definition itoa (n : Z) : string := NilZero.string_of_int (Z.to_int n).

End Bytes.

(** ** Package utils: the production domain of an application *)

Module Utils.
Import Bytes.

Definition is_upper (c : ascii) : bool := between "A" "Z" c.

(** A byte below [utf8.RuneSelf]. *)
Definition is_ascii_byte (c : ascii) : bool := (N_of_ascii c <? 128)%N.

Definition lower_byte (c : ascii) : ascii :=
  if is_upper c then ascii_of_N (N_of_ascii c + 32) else c.

(** The class [[^a-z0-9-]] of the first regular expression, and the
    class [[-]] of the second, on bytes.  Every byte of a multi-byte
    UTF-8 sequence is at least 128 and so belongs to the first class,
    like the rune it encodes. *)
Definition slug_byte (c : ascii) : bool :=
  between "a" "z" c || between "0" "9" c || Ascii.eqb c "-".

Definition non_slug_byte (c : ascii) : bool := negb (slug_byte c).

Definition is_hyphen (c : ascii) : bool := Ascii.eqb c "-".

Section WithUnicode.

(** [strings.Map(unicode.ToLower, s)], the path [strings.ToLower]
    takes when [s] holds a byte that is not ASCII.  It belongs to
    Go's standard library and is kept abstract. *)
Variable MapToLower : string → string.

(** [strings.ToLower]: a string of ASCII bytes is lowered byte by
    byte, any other string goes through the Unicode tables. *)
Definition ToLower (s : string) : string :=
  if all_bytes is_ascii_byte s then map_bytes lower_byte s
  else MapToLower s.

Definition Slugify (text : string) : string :=
  (* Convert to lowercase *)
  let slug := ToLower text in
  (* Replace spaces with hyphens *)
  let slug := ReplaceAll slug " " "-" in
  (* Remove all non-alphanumeric characters except hyphens *)
  let slug := ReplaceAllString non_slug_byte slug "" in
  (* Replace multiple consecutive hyphens with single hyphen *)
  let slug := ReplaceAllString is_hyphen slug "-" in
  (* Trim hyphens from start and end *)
  Trim slug "-".

Definition GenerateProductionDomain (appName appID : string) : string :=
  let slug := Slugify appName in
  let slug := if String.eqb slug "" then "app" else slug in
  let cleanID := ReplaceAll appID "-" "" in
  let idLength := String.length cleanID in
  let suffix :=
    if (6 <=? idLength)%nat then slice_from cleanID (idLength - 6)
    else cleanID in
  slug +:+ "-" +:+ suffix +:+ ".rapidbuild.app".

End WithUnicode.

End Utils.

(** ** The Domain Namer as the specification words it

    Written after the prose of the specification, step by step, and
    kept apart from the code above.  The class of characters that the
    second step turns into hyphens is a parameter [ws]. *)

Module NamerSpec.
Import Bytes.

(** Whitespace of the ASCII range: tab, line feed, vertical tab, form
    feed, carriage return and space. *)
Definition is_whitespace (c : ascii) : bool :=
  between "009" "013" c || Ascii.eqb c " ".

(** The space character alone. *)
Definition is_space (c : ascii) : bool := Ascii.eqb c " ".

Definition platform_domain : string := "rapidbuild.app".

(** "strip every character outside [a-z0-9-]" *)
Fixpoint strip_invalid (s : string) : string :=
  match s with
  | EmptyString => EmptyString
  | String c r =>
      if Utils.slug_byte c then String c (strip_invalid r) else strip_invalid r
  end.

(** "collapse repeated hyphens" *)
Fixpoint collapse_hyphens (s : string) : string :=
  match s with
  | EmptyString => EmptyString
  | String c r =>
      if Utils.is_hyphen c then
        match r with
        | EmptyString => String c EmptyString
        | String c' _ =>
            if Utils.is_hyphen c' then collapse_hyphens r
            else String c (collapse_hyphens r)
        end
      else String c (collapse_hyphens r)
  end.

(** "trim leading/trailing hyphens" *)
Fixpoint drop_leading (s : string) : string :=
  match s with
  | EmptyString => EmptyString
  | String c r => if Utils.is_hyphen c then drop_leading r else s
  end.

Fixpoint drop_trailing (s : string) : string :=
  match s with
  | EmptyString => EmptyString
  | String c r =>
      if all_bytes Utils.is_hyphen s then EmptyString
      else String c (drop_trailing r)
  end.

Definition trim_hyphens (s : string) : string := drop_trailing (drop_leading s).

(** "strip all hyphens from the identifier" *)
Fixpoint strip_hyphens (s : string) : string :=
  match s with
  | EmptyString => EmptyString
  | String c r =>
      if Utils.is_hyphen c then strip_hyphens r else String c (strip_hyphens r)
  end.

(** "take its last [n] characters (or the whole string if shorter)" *)
Fixpoint last_chars (n : nat) (s : string) : string :=
  match s with
  | EmptyString => EmptyString
  | String _ r => if (String.length s <=? n)%nat then s else last_chars n r
  end.

(** The string starts with a hyphen. *)
Definition starts_hyphen (s : string) : bool :=
  match s with
  | EmptyString => false
  | String c _ => Utils.is_hyphen c
  end.

(** The bytes of a host name: lowercase letters, digits, hyphens and
    dots. *)
Definition hostname_byte (c : ascii) : bool :=
  between "a" "z" c || between "0" "9" c || Ascii.eqb c "-" || Ascii.eqb c ".".

Section WithUnicode.
Variable MapToLower : string → string.

Definition slug_of (ws : ascii → bool) (name : string) : string :=
  let lowered := Utils.ToLower MapToLower name in
  let hyphenated := ReplaceAllString ws lowered "-" in
  trim_hyphens (collapse_hyphens (strip_invalid hyphenated)).

Definition DomainNamer (ws : ascii → bool) (name identifier : string) : string :=
  let slug :=
    match slug_of ws name with
    | EmptyString => "app"
    | slug => slug
    end in
  let suffix := last_chars 6 (strip_hyphens identifier) in
  slug +:+ "-" +:+ suffix +:+ "." +:+ platform_domain.

End WithUnicode.

End NamerSpec.

(** ** Go errors *)

Module Errors.

(** An [error] value: either one built from a message alone
    ([errors.New], [fmt.Errorf] without [%w]) or one that wraps
    another error ([fmt.Errorf] with [%w]); [msg] is the whole text
    that [Error()] returns. *)
Inductive error : Type :=
| errorString (msg : string)
| wrapError (msg : string) (err : error).

Definition Error (e : error) : string :=
  match e with
  | errorString msg => msg
  | wrapError msg _ => msg
  end.

(** [errors.Unwrap]. *)
Definition Unwrap (e : error) : option error :=
  match e with
  | errorString _ => None
  | wrapError _ err => Some err
  end.

(** [fmt.Errorf(format)] for a format without [%w]; the caller passes
    the formatted text. *)
Definition Errorf (msg : string) : error := errorString msg.

(** [fmt.Errorf(prefix + "%w", err)]. *)
Definition Errorf_w (prefix : string) (err : error) : error :=
  wrapError (prefix +:+ Error err) err.

End Errors.

(** ** Package models

    The package is used by the services through the fields below. *)

Module Version.

(** Modelled from the spec: [models.Version] is not part of the
    sources at hand; these are the fields the services read, write
    and scan, with the nullable columns as pointers to strings. *)
Record t : Type := Build {
  ID : string;
  AppID : string;
  VersionNumber : Z;
  Status : string;
  S3CodePath : option string;
  VercelURL : option string;
  VercelDeployID : option string;
  BuildLog : option string;
  ErrorMessage : option string;
  CreatedAt : Z
}.

End Version.

Module App.

(** Modelled from the spec: [models.App] is not part of the sources at
    hand; these are the fields the services read, write and scan. *)
Record t : Type := Build {
  ID : string;
  UserID : string;
  Name : string;
  DisplayName : option string;
  Description : string;
  Category : option string;
  ColorScheme : option string;
  Logo : option string;
  Status : string;
  ProdVersion : option Z;
  ProductionURL : option string;
  VercelProjectID : option string;
  CreatedAt : Z;
  UpdatedAt : Z
}.

End App.

Module AppConfig.

(** The configuration extracted from a description
    (gemini_service.go). *)
Record t : Type := Build {
  AppName : string;
  DisplayName : string;
  RequiresAuth : bool;
  AllowSignup : bool;
  Category : string;
  Keywords : list string;
  ColorScheme : string
}.

End AppConfig.

(** ** The relational store, the outside world and the effects *)

Module Store.
Import Errors.

(** One [column = $n] clause of the dynamic UPDATE on [versions],
    with the argument bound to its placeholder. *)
Inductive Assignment : Type :=
| SetStatus (v : string)
| SetS3CodePath (v : string)
| SetVercelURL (v : string)
| SetVercelDeployID (v : string)
| SetBuildLog (v : string)
| SetErrorMessage (v : option string).

Inductive Column : Type :=
| col_status | col_s3_code_path | col_vercel_url | col_vercel_deploy_id
| col_build_log | col_error_message.

Definition column (a : Assignment) : Column :=
  match a with
  | SetStatus _ => col_status
  | SetS3CodePath _ => col_s3_code_path
  | SetVercelURL _ => col_vercel_url
  | SetVercelDeployID _ => col_vercel_deploy_id
  | SetBuildLog _ => col_build_log
  | SetErrorMessage _ => col_error_message
  end.

Definition Column_eqb (c d : Column) : bool :=
  match c, d with
  | col_status, col_status | col_s3_code_path, col_s3_code_path
  | col_vercel_url, col_vercel_url | col_vercel_deploy_id, col_vercel_deploy_id
  | col_build_log, col_build_log | col_error_message, col_error_message => true
  | _, _ => false
  end.

(** The statements the services send, with their arguments. *)
Inductive Stmt : Type :=
| SelectMaxVersion (appID : string)
| InsertVersion (v : Version.t)
| SelectVersion (versionID : string)
| UpdateVersions (sets : list Assignment) (versionID : string)
| DeleteVersions (versionID : string)
| SelectProjectID (appID : string)
| UpdateProdVersion (prodVersion : Z) (updatedAt : Z) (appID : string)
| InsertApp (a : App.t)
| UpdateAppConfig (name displayName category colorScheme productionURL : string)
    (updatedAt : Z) (appID : string)
| SelectOwnerEmail (userID : string).

(** Modelled from the spec: [db.PostgresClient] is not part of the
    sources at hand.  The store holds the tables [apps], [versions]
    and [users]; a row is inserted at the end of its table, so that a
    table lists its rows in the order of their creation. *)
Record DB : Type := {
  apps : list App.t;
  versions : list Version.t;
  users : list (string * string)   (* id, email *)
}.

(** A goroutine started with [go]. *)
Inductive Task : Type :=
| extractConfigAndSetupApp_task (appID userID description : string)
| generateAndUploadLogo_task (appID appName category colorScheme : string).

(** What a service does to the outside, in the order it does it:
    statements that write to the store, the statement by which the
    setup pipeline reads the address of an owner, promotion requests
    to the deployment platform, sub-processes, log lines and
    goroutines. *)
Inductive Event : Type :=
| DBWrite (stmt : Stmt)
| DBRead (stmt : Stmt)
| PromoteCall (projectID deploymentID : string)
| RunCommand (argv : list string)
| LogLine (line : string)
| Go (task : Task).

Record World : Type := {
  db : DB;
  trace : list Event
}.

(** The answer of an HTTP endpoint: a transport error, or a status
    code and a body. *)
Definition HttpResult : Type := (error + (Z * string))%type.

(** What the services cannot decide themselves.  Every oracle sees the
    effects so far. *)
Record Env : Type := {
  (* the store fails the statement for a reason of its own
     (connection, constraint) *)
  db_fault : list Event → Stmt → option error;
  (* POST /v10/projects/{projectId}/promote/{deploymentId} *)
  vercel_promote : list Event → string → string → HttpResult;
  (* the text-generation endpoint, for one description *)
  gemini_post : string → HttpResult;
  (* json decoding of the endpoint's reply: the text parts of each
     candidate *)
  gemini_decode : string → error + list (list string);
  (* strings.TrimSpace *)
  TrimSpace : string → string;
  (* json.Unmarshal into an AppConfig: the fields found *)
  unmarshal_config : string → error + AppConfig.t;
  (* exec.Cmd.Run: its error and what it wrote to stderr *)
  run_command : list Event → list string → option error * string
}.

(** The error of [Scan] on an empty result. *)
Definition ErrNoRows : error := errorString "no rows in result set".

(** The error of PostgreSQL for an UPDATE that names a column twice. *)
Definition ErrMultipleAssignments : error :=
  errorString "multiple assignments to same column".

End Store.

(** ** Operations on the world

    A service method takes the world to a result, a value or an error,
    and to the world it leaves behind; Go keeps the effects of a call
    that ends in an error. *)

Module Ops.
Import Errors Store.

Definition Op (A : Type) : Type := World → (A + error) * World.

Global Instance Op_ret : MRet Op := λ A x w, (inl x, w).

Global Instance Op_bind : MBind Op := λ A B f m w,
  match m w with
  | (inl x, w') => f x w'
  | (inr e, w') => (inr e, w')
  end.

(** [return ..., err]. *)
Definition fail {A : Type} (e : error) : Op A := λ w, (inr e, w).

(** [if err != nil { return fmt.Errorf(prefix + "%w", err) }]. *)
Definition orWrap {A : Type} (m : Op A) (prefix : string) : Op A := λ w,
  match m w with
  | (inr e, w') => (inr (Errorf_w prefix e), w')
  | r => r
  end.

Definition emit (ev : Event) (w : World) : World :=
  {| db := db w; trace := trace w ++ [ev] |}.

Definition with_db (d : DB) (w : World) : World :=
  {| db := d; trace := trace w |}.

(** Go's [int]: 64 bits, two's complement. *)
Definition wrap_int (z : Z) : Z := ((z + 2 ^ 63) mod 2 ^ 64 - 2 ^ 63)%Z.

Section WithEnv.
Variable env : Env.

(** A statement that reads: the store may fail it, else [run]
    answers from the tables.  The reads of the version service leave
    no event. *)
Definition db_read {A : Type} (stmt : Stmt) (run : DB → A + error) : Op A := λ w,
  match db_fault env (trace w) stmt with
  | Some e => (inr e, w)
  | None => (run (db w), w)
  end.

(** A statement that reads and is recorded as sent, so that the
    trace tells whether a service came to it; then as [db_read]. *)
Definition db_query {A : Type} (stmt : Stmt) (run : DB → A + error) : Op A := λ w,
  let w1 := emit (DBRead stmt) w in
  match db_fault env (trace w) stmt with
  | Some e => (inr e, w1)
  | None => (run (db w), w1)
  end.

(** A statement that writes: it is recorded, then the store may
    fail it, else [run] answers and gives the tables after it. *)
Definition db_write {A : Type} (stmt : Stmt) (run : DB → (A + error) * DB) : Op A := λ w,
  let w1 := emit (DBWrite stmt) w in
  match db_fault env (trace w) stmt with
  | Some e => (inr e, w1)
  | None => let '(r, d) := run (db w) in (r, with_db d w1)
  end.

(** [SELECT COALESCE(MAX(version_number), 0) FROM versions WHERE
    app_id = $1] *)
Definition versions_of (appID : string) (d : DB) : list Version.t :=
  List.filter (λ v, String.eqb (Version.AppID v) appID) (versions d).

Fixpoint max_number (vs : list Version.t) : option Z :=
  match vs with
  | [] => None
  | v :: r =>
      match max_number r with
      | None => Some (Version.VersionNumber v)
      | Some m => Some (Z.max (Version.VersionNumber v) m)
      end
  end.

Definition max_version (appID : string) (d : DB) : Z :=
  match max_number (versions_of appID d) with
  | None => 0%Z
  | Some m => m
  end.

Definition queryMaxVersion (appID : string) : Op Z :=
  db_read (SelectMaxVersion appID) (λ d, inl (max_version appID d)).

(** [INSERT INTO versions (id, app_id, version_number, status,
    created_at) ... RETURNING ...]: the other columns are NULL. *)
Definition queryInsertVersion (v : Version.t) : Op Version.t :=
  db_write (InsertVersion v) (λ d,
    let row := Version.Build (Version.ID v) (Version.AppID v)
                 (Version.VersionNumber v) (Version.Status v)
                 None None None None None (Version.CreatedAt v) in
    (inl row,
     {| apps := apps d; versions := versions d ++ [row]; users := users d |})).

(** [SELECT ... FROM versions WHERE id = $1], first row. *)
Definition find_version (versionID : string) (d : DB) : option Version.t :=
  List.find (λ v, String.eqb (Version.ID v) versionID) (versions d).

Definition querySelectVersion (versionID : string) : Op Version.t :=
  db_read (SelectVersion versionID) (λ d,
    match find_version versionID d with
    | Some v => inl v
    | None => inr ErrNoRows
    end).

(** [UPDATE versions SET ... WHERE id = $n RETURNING ...] *)
Definition assign (a : Assignment) (v : Version.t) : Version.t :=
  let '(Version.Build id app n st s3 url dep blog emsg at_) := v in
  match a with
  | SetStatus x => Version.Build id app n x s3 url dep blog emsg at_
  | SetS3CodePath x => Version.Build id app n st (Some x) url dep blog emsg at_
  | SetVercelURL x => Version.Build id app n st s3 (Some x) dep blog emsg at_
  | SetVercelDeployID x => Version.Build id app n st s3 url (Some x) blog emsg at_
  | SetBuildLog x => Version.Build id app n st s3 url dep (Some x) emsg at_
  | SetErrorMessage x => Version.Build id app n st s3 url dep blog x at_
  end.

Definition assign_all (sets : list Assignment) (v : Version.t) : Version.t :=
  fold_left (λ v a, assign a v) sets v.

Fixpoint distinct_columns (cs : list Column) : bool :=
  match cs with
  | [] => true
  | c :: r => negb (existsb (Column_eqb c) r) && distinct_columns r
  end.

Definition update_versions (sets : list Assignment) (versionID : string)
           (d : DB) : (Version.t + error) * DB :=
  if negb (distinct_columns (List.map column sets)) then (inr ErrMultipleAssignments, d)
  else
    let rows := List.map (λ v, if String.eqb (Version.ID v) versionID
                               then assign_all sets v else v) (versions d) in
    match find_version versionID d with
    | None => (inr ErrNoRows, d)
    | Some v =>
        (inl (assign_all sets v),
         {| apps := apps d; versions := rows; users := users d |})
    end.

Definition queryUpdateVersions (sets : list Assignment) (versionID : string)
  : Op Version.t :=
  db_write (UpdateVersions sets versionID) (update_versions sets versionID).

(** [DELETE FROM versions WHERE id = $1], with the number of rows
    deleted. *)
Definition execDeleteVersions (versionID : string) : Op Z :=
  db_write (DeleteVersions versionID) (λ d,
    let keep := List.filter (λ v, negb (String.eqb (Version.ID v) versionID))
                  (versions d) in
    (inl (Z.of_nat (length (versions d)) - Z.of_nat (length keep))%Z,
     {| apps := apps d; versions := keep; users := users d |})).

(** [SELECT vercel_project_id FROM apps WHERE id = $1], first row. *)
Definition find_app (appID : string) (d : DB) : option App.t :=
  List.find (λ a, String.eqb (App.ID a) appID) (apps d).

Definition querySelectProjectID (appID : string) : Op (option string) :=
  db_read (SelectProjectID appID) (λ d,
    match find_app appID d with
    | Some a => inl (App.VercelProjectID a)
    | None => inr ErrNoRows
    end).

(** [UPDATE apps SET prod_version = $1, updated_at = $2 WHERE id = $3] *)
Definition set_prod_version (n now : Z) (a : App.t) : App.t :=
  let '(App.Build id user name dn descr cat col logo st _ url prj cr _) := a in
  App.Build id user name dn descr cat col logo st (Some n) url prj cr now.

Definition execUpdateProdVersion (n now : Z) (appID : string) : Op Z :=
  db_write (UpdateProdVersion n now appID) (λ d,
    let hit := λ a, String.eqb (App.ID a) appID in
    (inl (Z.of_nat (length (List.filter hit (apps d)))),
     {| apps := List.map (λ a, if hit a then set_prod_version n now a else a) (apps d);
        versions := versions d; users := users d |})).

End WithEnv.

End Ops.

(** ** vercel_service.go *)

Module VercelService.
Import Bytes Errors Store Ops.

Section WithEnv.
Variable env : Env.

(** The request is recorded when it is sent; [http.NewRequest] and
    [Client.Do] failing are the transport error of the answer. *)
Definition PromoteDeployment (projectID deploymentID : string) : Op unit := λ w,
  let w1 := emit (PromoteCall projectID deploymentID) w in
  match vercel_promote env (trace w) projectID deploymentID with
  | inl err => (inr err, w1)
  | inr (StatusCode, body) =>
      (* Accept 201, 202 as success
         Also accept 409 if the deployment is already in production *)
      if negb (StatusCode =? 201)%Z && negb (StatusCode =? 202)%Z
         && negb (StatusCode =? 409)%Z
      then (inr (Errorf ("vercel promotion failed (status " +:+ itoa StatusCode
                         +:+ "): " +:+ body)), w1)
      else if (StatusCode =? 409)%Z then
        if Contains body "already the current production deployment"
        then (inl tt, w1)
        else (inr (Errorf ("vercel promotion conflict (status 409): " +:+ body)), w1)
      else (inl tt, w1)
  end.

End WithEnv.

End VercelService.

(** ** version_service.go *)

Module VersionService.
Import Bytes Errors Store Ops.

(** The dynamic values of a [map[string]interface{}]. *)
Inductive Value : Type :=
| VString (s : string)            (* string *)
| VStringPtr (p : option string)  (* *string, nil or not *)
| VInt (n : Z)                    (* int *)
| VBool (b : bool)                (* bool *)
| VNil.                           (* untyped nil *)

(** [v, ok := updates[key].(string)] *)
Definition as_string (v : option Value) : option string :=
  match v with
  | Some (VString s) => Some s
  | _ => None
  end.

(** [v, ok := updates[key].( *string)] *)
Definition as_string_ptr (v : option Value) : option (option string) :=
  match v with
  | Some (VStringPtr p) => Some p
  | _ => None
  end.

(** [if v, ok := ...; ok { setClauses = append(setClauses, ...) }] *)
Definition clause {A : Type} (asserted : option A) (set : A → Assignment)
  : list Assignment :=
  match asserted with
  | Some v => [set v]
  | None => []
  end.

(** The [SET] clauses of [UpdateVersion], in the order the code
    appends them. *)
Definition setClauses (updates : gmap string Value) : list Assignment :=
  clause (as_string (updates !! "status")) SetStatus
  ++ clause (as_string (updates !! "s3_code_path")) SetS3CodePath
  ++ clause (as_string (updates !! "vercel_url")) SetVercelURL
  ++ clause (as_string (updates !! "vercel_deploy_id")) SetVercelDeployID
  ++ clause (as_string (updates !! "build_log")) SetBuildLog
  ++ clause (as_string_ptr (updates !! "error_message")) SetErrorMessage
  (* Legacy fields for backwards compatibility *)
  ++ clause (as_string (updates !! "deploy_url")) SetVercelURL
  ++ clause (as_string (updates !! "s3_key")) SetS3CodePath.

Definition is_empty_string (p : option string) : bool :=
  match p with
  | None => true
  | Some s => String.eqb s ""
  end.

Section WithEnv.
Variable env : Env.

(** [newID] is the value of [uuid.New().String()], [now] that of
    [time.Now()]. *)
Definition CreateVersion (newID : string) (now : Z) (appID : string)
  : Op Version.t :=
  maxVersion ← orWrap (queryMaxVersion env appID) "failed to get max version: ";
  let version :=
    Version.Build newID appID (wrap_int (maxVersion + 1)) "pending"
      None None None None None now in
  orWrap (queryInsertVersion env version) "failed to create version: ".

Definition GetVersion (versionID : string) : Op Version.t :=
  orWrap (querySelectVersion env versionID) "version not found: ".

Definition UpdateVersion (versionID : string) (updates : gmap string Value)
  : Op Version.t :=
  let sets := setClauses updates in
  (* If no fields to update, return error *)
  if (length sets =? 0)%nat then fail (Errorf "no fields to update")
  else orWrap (queryUpdateVersions env sets versionID) "failed to update version: ".

Definition DeleteVersion (versionID : string) : Op unit :=
  rowsAffected ← orWrap (execDeleteVersions env versionID)
                        "failed to delete version: ";
  if (rowsAffected =? 0)%Z then fail (Errorf "version not found")
  else mret tt.

Definition PromoteVersion (now : Z) (versionID : string) : Op unit :=
  (* Get the version to promote *)
  version ← GetVersion versionID;
  (* Validate version can be promoted *)
  if negb (String.eqb (Version.Status version) "completed") then
    fail (Errorf ("cannot promote version with status '" +:+ Version.Status version
                  +:+ "', must be 'completed'"))
  else if is_empty_string (Version.VercelDeployID version) then
    fail (Errorf "version has no vercel deployment ID")
  else
    (* Fetch app to get Vercel project ID *)
    VercelProjectID ← orWrap (querySelectProjectID env (Version.AppID version))
                             "failed to fetch app: ";
    if is_empty_string VercelProjectID then
      fail (Errorf "app has no vercel project ID")
    else
      (* Call Vercel API to promote deployment *)
      _ ← orWrap (VercelService.PromoteDeployment env
                    (default "" VercelProjectID)
                    (default "" (Version.VercelDeployID version)))
                 "failed to promote deployment on Vercel: ";
      (* Update the app's prod_version *)
      _ ← orWrap (execUpdateProdVersion env (Version.VersionNumber version) now
                    (Version.AppID version))
                 "failed to update app prod_version: ";
      (* Update version status to promoted *)
      _ ← UpdateVersion versionID {[ "status" := VString "promoted" ]};
      mret tt.

End WithEnv.

End VersionService.

(** ** gemini_service.go *)

Module GeminiService.
Import Bytes Errors Store.

(** [strings.TrimPrefix] and [strings.TrimSuffix]. *)
Definition TrimPrefix (s prefix : string) : string :=
  if String.prefix prefix s then slice_from s (String.length prefix) else s.

Definition has_suffix (s suffix : string) : bool :=
  (String.length suffix <=? String.length s)%nat
  && String.eqb (slice_from s (String.length s - String.length suffix)) suffix.

Definition TrimSuffix (s suffix : string) : string :=
  if has_suffix s suffix then substring 0 (String.length s - String.length suffix) s
  else s.

(** The validation at the end of [ExtractAppConfig]: every empty
    field gets its default. *)
Definition validate (config : AppConfig.t) : AppConfig.t :=
  let AppName :=
    if String.eqb (AppConfig.AppName config) "" then "MyApp"
    else AppConfig.AppName config in
  let DisplayName :=
    if String.eqb (AppConfig.DisplayName config) "" then AppName
    else AppConfig.DisplayName config in
  let Category :=
    if String.eqb (AppConfig.Category config) "" then "other"
    else AppConfig.Category config in
  let ColorScheme :=
    if String.eqb (AppConfig.ColorScheme config) "" then "blue"
    else AppConfig.ColorScheme config in
  let Keywords :=
    if (length (AppConfig.Keywords config) =? 0)%nat then ["app"]
    else AppConfig.Keywords config in
  AppConfig.Build AppName DisplayName (AppConfig.RequiresAuth config)
    (AppConfig.AllowSignup config) Category Keywords ColorScheme.

Section WithEnv.
Variable env : Env.

Definition ExtractAppConfig (description : string) : AppConfig.t + error :=
  match gemini_post env description with
  | inl err => inr (Errorf_w "failed to call Gemini API: " err)
  | inr (StatusCode, body) =>
      if negb (StatusCode =? 200)%Z then
        inr (Errorf ("Gemini API error (status " +:+ itoa StatusCode +:+ "): " +:+ body))
      else
        match gemini_decode env body with
        | inl err => inr (Errorf_w "failed to decode Gemini response: " err)
        | inr Candidates =>
            match Candidates with
            | (text :: _) :: _ =>
                (* Clean response (remove markdown code blocks if present) *)
                let responseText := TrimSpace env text in
                let responseText := TrimPrefix responseText "```json" in
                let responseText := TrimPrefix responseText "```" in
                let responseText := TrimSuffix responseText "```" in
                let responseText := TrimSpace env responseText in
                (* Parse extracted config *)
                match unmarshal_config env responseText with
                | inl err =>
                    inr (wrapError ("failed to parse config JSON: " +:+ Error err
                                    +:+ " (response: " +:+ responseText +:+ ")") err)
                | inr config => inl (validate config)
                end
            | _ => inr (Errorf "empty response from Gemini")
            end
        end
  end.

End WithEnv.

End GeminiService.

(** ** app_service.go *)

Module AppService.
Import Bytes Errors Store Ops.

Record CreateAppRequest : Type := { Description : string }.

(** The fallback of [extractConfigAndSetupApp] when the extraction
    fails. *)
Definition defaultConfig : AppConfig.t :=
  AppConfig.Build "MyApp" "My App" true true "other" ["app"] "blue".

Definition log (line : string) (w : World) : World := emit (LogLine line) w.

(** [go f(...)]: the goroutine is started, the caller goes on. *)
Definition spawn (task : Task) : Op unit := λ w, (inl tt, emit (Go task) w).

Section WithEnv.
Variable env : Env.
Variable MapToLower : string → string.

(** [INSERT INTO apps (...) VALUES (...) RETURNING ...]: [logo],
    [prod_version] and [vercel_project_id] are NULL. *)
Definition queryInsertApp (a : App.t) : Op App.t :=
  db_write env (InsertApp a) (λ d,
    let '(App.Build id user name dn descr cat col _ st _ url _ cr up) := a in
    let row := App.Build id user name dn descr cat col None st None url None cr up in
    (inl row, {| apps := apps d ++ [row]; versions := versions d; users := users d |})).

(** [UPDATE apps SET name = $1, display_name = $2, category = $3,
    color_scheme = $4, production_url = $5, updated_at = $6 WHERE
    id = $7] *)
Definition set_config (name dn cat col url : string) (now : Z) (a : App.t) : App.t :=
  let '(App.Build id user _ _ descr _ _ logo st pv _ prj cr _) := a in
  App.Build id user name (Some dn) descr (Some cat) (Some col) logo st pv
    (Some url) prj cr now.

Definition execUpdateAppConfig (name dn cat col url : string) (now : Z)
           (appID : string) : Op Z :=
  db_write env (UpdateAppConfig name dn cat col url now appID) (λ d,
    let hit := λ a, String.eqb (App.ID a) appID in
    (inl (Z.of_nat (length (List.filter hit (apps d)))),
     {| apps := List.map (λ a, if hit a then set_config name dn cat col url now a
                               else a) (apps d);
        versions := versions d; users := users d |})).

(** [newID] is the value of [uuid.New().String()], [now] that of
    [time.Now()]. *)
Definition CreateApp (newID : string) (now : Z) (userID : string)
           (req : CreateAppRequest) : Op App.t :=
  (* 1. Create app immediately with temporary defaults *)
  let appID := newID in
  let tempName := "MyApp" in
  let tempDisplayName := "My App" in
  let tempCategory := "other" in
  let tempColorScheme := "blue" in
  let productionURL := Utils.GenerateProductionDomain MapToLower tempName appID in
  let app := App.Build appID userID tempName (Some tempDisplayName)
               (Description req) (Some tempCategory) (Some tempColorScheme)
               None "building" None (Some productionURL) None now now in
  app ← orWrap (queryInsertApp app) "failed to create app: ";
  (* 2. Launch async AI config extraction and MongoDB creation *)
  _ ← spawn (extractConfigAndSetupApp_task appID userID (Description req));
  mret app.

Definition GetOwnerEmail (userID : string) : Op string :=
  orWrap (db_query env (SelectOwnerEmail userID) (λ d,
            match List.find (λ u, String.eqb (fst u) userID) (users d) with
            | Some u => inl (snd u)
            | None => inr ErrNoRows
            end))
         "failed to get owner email: ".

Definition extractConfigAndSetupApp (now : Z) (appID userID description : string)
           (w : World) : World :=
  let w := log ("[AI Setup] Starting async config extraction for app " +:+ appID) w in
  (* 1. Use Gemini to extract app configuration from description *)
  let '(appConfig, w) :=
    match GeminiService.ExtractAppConfig env description with
    | inl appConfig => (appConfig, w)
    | inr err =>
        (* Fallback to defaults if Gemini fails *)
        (defaultConfig,
         log ("[AI Setup] Warning: Failed to extract config with Gemini, using defaults: "
              +:+ Error err) w)
    end in
  let w := log ("[AI Setup] Extracted config for app " +:+ appID +:+ ": name="
                +:+ AppConfig.AppName appConfig +:+ ", category="
                +:+ AppConfig.Category appConfig +:+ ", color="
                +:+ AppConfig.ColorScheme appConfig) w in
  (* 2. Update PostgreSQL with AI-generated configuration *)
  let productionURL :=
    Utils.GenerateProductionDomain MapToLower (AppConfig.AppName appConfig) appID in
  match execUpdateAppConfig (AppConfig.AppName appConfig)
          (AppConfig.DisplayName appConfig) (AppConfig.Category appConfig)
          (AppConfig.ColorScheme appConfig) productionURL now appID w with
  | (inr err, w) =>
      log ("[AI Setup] Failed to update PostgreSQL with AI config: " +:+ Error err) w
  | (inl _, w) =>
      let w := log ("[AI Setup] Updated PostgreSQL for app " +:+ appID
                    +:+ " with AI-generated name '" +:+ AppConfig.AppName appConfig
                    +:+ "'") w in
      (* 3. Get owner email for MongoDB app creation *)
      let '(ownerEmail, w) :=
        match GetOwnerEmail userID w with
        | (inl ownerEmail, w) => (ownerEmail, w)
        | (inr err, w) =>
            ("unknown@example.com",
             log ("[AI Setup] Warning: Failed to get owner email: " +:+ Error err) w)
        end in
      (* 4. Create app in MongoDB with final AI-generated name *)
      let argv := ["app-manager"; "create"; appID; "--name";
                   AppConfig.AppName appConfig; "--owner-email"; ownerEmail] in
      let '(err, stderr) := run_command env (trace w) argv in
      let w := emit (RunCommand argv) w in
      let w :=
        match err with
        | Some err =>
            log ("[AI Setup] Warning: Failed to create MongoDB app: " +:+ Error err
                 +:+ " (stderr: " +:+ stderr +:+ ")") w
        | None =>
            log ("[AI Setup] Created MongoDB app with AI-generated name '"
                 +:+ AppConfig.AppName appConfig +:+ "'") w
        end in
      (* 5. Launch async logo generation (non-blocking) *)
      let w := emit (Go (generateAndUploadLogo_task appID
                           (AppConfig.AppName appConfig)
                           (AppConfig.Category appConfig)
                           (AppConfig.ColorScheme appConfig))) w in
      log ("[AI Setup] Completed async setup for app " +:+ appID) w
  end.

End WithEnv.

End AppService.

(** ** Vocabulary of the properties and sample worlds *)

Module Scenario.
Import Bytes Errors Store Ops VersionService.

(** The store answers every statement. *)
Definition no_faults (env : Env) : Prop :=
  ∀ tr stmt, db_fault env tr stmt = None.

(** The update map holds no recognized field: none of the eight type
    assertions of [UpdateVersion] succeeds. *)
Definition no_recognized_field (updates : gmap string Value) : Prop :=
  as_string (updates !! "status") = None
  ∧ as_string (updates !! "s3_code_path") = None
  ∧ as_string (updates !! "vercel_url") = None
  ∧ as_string (updates !! "vercel_deploy_id") = None
  ∧ as_string (updates !! "build_log") = None
  ∧ as_string_ptr (updates !! "error_message") = None
  ∧ as_string (updates !! "deploy_url") = None
  ∧ as_string (updates !! "s3_key") = None.

(** The recognized keys other than [error_message]. *)
Definition string_keys : list string :=
  ["status"; "s3_code_path"; "vercel_url"; "vercel_deploy_id"; "build_log";
   "deploy_url"; "s3_key"].

(** The clause a plain string under one of these keys gives. *)
Definition string_clause (key value : string) : list Assignment :=
  if String.eqb key "status" then [SetStatus value]
  else if String.eqb key "s3_code_path" then [SetS3CodePath value]
  else if String.eqb key "vercel_url" then [SetVercelURL value]
  else if String.eqb key "vercel_deploy_id" then [SetVercelDeployID value]
  else if String.eqb key "build_log" then [SetBuildLog value]
  else if String.eqb key "deploy_url" then [SetVercelURL value]
  else if String.eqb key "s3_key" then [SetS3CodePath value]
  else [].

(** The platform took the promotion: 201, 202, or the 409 of a
    deployment that is already the production one. *)
Definition promotion_accepted (answer : HttpResult) : Prop :=
  ∃ StatusCode body,
    answer = inr (StatusCode, body)
    ∧ (StatusCode = 201%Z ∨ StatusCode = 202%Z
       ∨ (StatusCode = 409%Z
          ∧ Contains body "already the current production deployment" = true)).

(** An environment where the store never fails, the platform answers
    [answer] to every promotion, the text-generation endpoint answers
    [gemini], and sub-processes succeed. *)
Definition env_with (answer gemini : HttpResult) : Env :=
  {| db_fault := λ _ _, None;
     vercel_promote := λ _ _ _, answer;
     gemini_post := λ _, gemini;
     gemini_decode := λ _, inr [];
     TrimSpace := λ s, s;
     unmarshal_config := λ _, inl (errorString "unexpected end of JSON input");
     run_command := λ _ _, (None, "") |}.

Definition calm : Env := env_with (inr (201%Z, "")) (inr (500%Z, "")).

(** The same, with a store that fails the update of the AI
    configuration. *)
Definition env_update_fails : Env :=
  {| db_fault := λ _ stmt,
       match stmt with
       | UpdateAppConfig _ _ _ _ _ _ _ => Some (errorString "connection refused")
       | _ => None
       end;
     vercel_promote := vercel_promote calm;
     gemini_post := gemini_post calm;
     gemini_decode := gemini_decode calm;
     TrimSpace := TrimSpace calm;
     unmarshal_config := unmarshal_config calm;
     run_command := run_command calm |}.

Definition empty_world : World :=
  {| db := {| apps := []; versions := []; users := [] |}; trace := [] |}.

(** One application with a platform project and one completed build
    of it, numbered 3. *)
Definition shop : App.t :=
  App.Build "a1" "u1" "Shop" (Some "Shop") "a shop" (Some "ecommerce") (Some "teal")
    None "ready" None (Some "shop-a1.rapidbuild.app") (Some "prj_1") 10 10.

Definition build3 : Version.t :=
  Version.Build "v3" "a1" 3 "completed" None
    (Some "https://shop-git-3.vercel.app") (Some "dpl_3") None None 20.

Definition shop_world : World :=
  {| db := {| apps := [shop]; versions := [build3];
              users := [("u1", "owner@example.com")] |};
     trace := [] |}.

(** The shop after one more build was created, still pending. *)
Definition pending_world : World :=
  snd (CreateVersion calm "v4" 30 "a1" shop_world).

(** A platform that refuses every promotion. *)
Definition refusing : Env := env_with (inr (500%Z, "boom")) (inr (500%Z, "")).

(** The promotion requests among the effects. *)
Definition promote_calls (tr : list Event) : list (string * string) :=
  flat_map (λ ev, match ev with
                  | PromoteCall p d => [(p, d)]
                  | _ => []
                  end) tr.

(** A run of the version service on the versions of applications:
    creations and deletions, one after the other. *)
Inductive VersionOp : Type :=
| OpCreate (newID : string) (now : Z) (appID : string)
| OpDelete (versionID : string).

Definition step (env : Env) (op : VersionOp) (w : World) : World :=
  match op with
  | OpCreate newID now appID => snd (CreateVersion env newID now appID w)
  | OpDelete versionID => snd (DeleteVersion env versionID w)
  end.

Definition run_ops (env : Env) (ops : list VersionOp) (w : World) : World :=
  fold_left (λ w op, step env op w) ops w.

(** The numbers the creations of a run give to the versions of
    [appID], in the order of the creations. *)
Fixpoint assigned_numbers (env : Env) (appID : string) (ops : list VersionOp)
         (w : World) : list Z :=
  match ops with
  | [] => []
  | op :: rest =>
      match op with
      | OpCreate newID now app =>
          match fst (CreateVersion env newID now app w) with
          | inl v => if String.eqb app appID then [Version.VersionNumber v] else []
          | inr _ => []
          end
      | OpDelete _ => []
      end ++ assigned_numbers env appID rest (step env op w)
  end.

(** The versions of every application carry strictly increasing
    numbers in the order of their creation. *)
Definition number_lt (u v : Version.t) : Prop :=
  (Version.VersionNumber u < Version.VersionNumber v)%Z.

Definition numbers_increasing (d : DB) : Prop :=
  ∀ appID, StronglySorted number_lt (versions_of appID d).

(** Every stored number fits Go's [int] and lies below [bound]. *)
Definition numbers_below (bound : Z) (d : DB) : Prop :=
  Forall (λ v, (- 2 ^ 63 <= Version.VersionNumber v < bound)%Z) (versions d).

(** Two builds, the second deleted, then a third. *)
Definition reuse_run : list VersionOp :=
  [OpCreate "v1" 1 "a1"; OpCreate "v2" 2 "a1"; OpDelete "v2"; OpCreate "v3" 3 "a1"].

(** The configuration the setup pipeline works with: the extracted
    one, or the fallback when the extraction fails. *)
Definition resolved_config (env : Env) (description : string) : AppConfig.t :=
  match GeminiService.ExtractAppConfig env description with
  | inl appConfig => appConfig
  | inr _ => AppService.defaultConfig
  end.

(** What the pipeline logs before it writes the configuration. *)
Definition events_before_update (env : Env) (appID description : string)
  : list Event :=
  [LogLine ("[AI Setup] Starting async config extraction for app " +:+ appID)]
  ++ match GeminiService.ExtractAppConfig env description with
     | inl _ => []
     | inr err =>
         [LogLine ("[AI Setup] Warning: Failed to extract config with Gemini, using defaults: "
                   +:+ Error err)]
     end
  ++ [LogLine ("[AI Setup] Extracted config for app " +:+ appID +:+ ": name="
               +:+ AppConfig.AppName (resolved_config env description)
               +:+ ", category=" +:+ AppConfig.Category (resolved_config env description)
               +:+ ", color=" +:+ AppConfig.ColorScheme (resolved_config env description))].

(** The statement that writes a configuration to the application. *)
Definition config_update (MapToLower : string → string) (config : AppConfig.t)
           (now : Z) (appID : string) : Stmt :=
  UpdateAppConfig (AppConfig.AppName config) (AppConfig.DisplayName config)
    (AppConfig.Category config) (AppConfig.ColorScheme config)
    (Utils.GenerateProductionDomain MapToLower (AppConfig.AppName config) appID)
    now appID.

(** The statements that read, among the effects. *)
Definition reads_sent (tr : list Event) : list Stmt :=
  flat_map (λ ev, match ev with
                  | DBRead stmt => [stmt]
                  | _ => []
                  end) tr.

(** The stages after the write, as far as they show: sub-processes
    and goroutines. *)
Definition later_stages (tr : list Event) : list Event :=
  List.filter (λ ev, match ev with
                     | RunCommand _ | Go _ => true
                     | _ => false
                     end) tr.

(** The rest of [PromoteVersion] once its four checks have passed:
    the platform call and the two writes. *)
Definition promote_checked (env : Env) (now : Z) (versionID : string)
           (v : Version.t) (projectID deploymentID : string) (w : World)
  : (unit + error) * World :=
  match VercelService.PromoteDeployment env projectID deploymentID w with
  | (inr e, w1) => (inr (Errorf_w "failed to promote deployment on Vercel: " e), w1)
  | (inl _, w1) =>
      match execUpdateProdVersion env (Version.VersionNumber v) now
              (Version.AppID v) w1 with
      | (inr e, w2) => (inr (Errorf_w "failed to update app prod_version: " e), w2)
      | (inl _, w2) =>
          match UpdateVersion env versionID {[ "status" := VString "promoted" ]} w2 with
          | (inr e, w3) => (inr e, w3)
          | (inl _, w3) => (inl tt, w3)
          end
      end
  end.

End Scenario.

(** ** Shapes of slugs and host names *)

Module Shapes.
Import Bytes.

(** A lowercase letter or a digit. *)
Definition alnum_byte (c : ascii) : bool :=
  between "a" "z" c || between "0" "9" c.

(** The string ends with a hyphen. *)
Fixpoint ends_hyphen (s : string) : bool :=
  match s with
  | EmptyString => false
  | String c EmptyString => Utils.is_hyphen c
  | String _ r => ends_hyphen r
  end.

(** No two hyphens follow each other. *)
Fixpoint no_double_hyphen (s : string) : bool :=
  match s with
  | EmptyString => true
  | String c r =>
      negb (Utils.is_hyphen c && NamerSpec.starts_hyphen r) && no_double_hyphen r
  end.

(** A slug as a URL wants it: bytes of [a-z0-9-] only, no hyphen at
    either end, no two hyphens in a row. *)
Definition well_formed_slug (s : string) : Prop :=
  all_bytes Utils.slug_byte s = true
  ∧ NamerSpec.starts_hyphen s = false
  ∧ ends_hyphen s = false
  ∧ no_double_hyphen s = true.

End Shapes.

(** ** Vocabulary for the frame properties of the services *)

Module Frames.
Import Errors Store Ops.

(** What identifies a version and never changes once it is created. *)
Definition version_key (v : Version.t) : string * string * Z * Z :=
  (Version.ID v, Version.AppID v, Version.VersionNumber v, Version.CreatedAt v).

(** The rows of [versions] with another identifier. *)
Definition other_versions (versionID : string) (d : DB) : list Version.t :=
  List.filter (λ v, negb (String.eqb (Version.ID v) versionID)) (versions d).

(** The rows of [apps] with another identifier. *)
Definition other_apps (appID : string) (d : DB) : list App.t :=
  List.filter (λ a, negb (String.eqb (App.ID a) appID)) (apps d).

(** The columns of an application that neither a promotion nor the
    setup pipeline writes. *)
Definition app_owner_part (a : App.t) : string * string * string * Z :=
  (App.ID a, App.UserID a, App.Description a, App.CreatedAt a).

(** The columns of an application that the setup pipeline leaves
    alone. *)
Definition app_outside_config (a : App.t)
  : string * string * string * option string * string * option Z * option string * Z :=
  (App.ID a, App.UserID a, App.Description a, App.Logo a, App.Status a,
   App.ProdVersion a, App.VercelProjectID a, App.CreatedAt a).

(** The columns of an application that [UpdateApp] cannot write. *)
Definition app_outside_update (a : App.t)
  : string * string * option string * option string * option string * option string
    * option string * option string * Z :=
  (App.ID a, App.UserID a, App.DisplayName a, App.Category a, App.ColorScheme a,
   App.Logo a, App.ProductionURL a, App.VercelProjectID a, App.CreatedAt a).

(** The columns of an application that neither the setup pipeline nor
    the logo generation it starts writes. *)
Definition app_outside_setup (a : App.t)
  : string * string * string * string * option Z * option string * Z :=
  (App.ID a, App.UserID a, App.Description a, App.Status a, App.ProdVersion a,
   App.VercelProjectID a, App.CreatedAt a).

(** The columns of an application that a promotion leaves alone. *)
Definition app_outside_promotion (a : App.t)
  : string * string * string * option string * string * option string * option string
    * option string * string * option string * option string * Z :=
  (App.ID a, App.UserID a, App.Name a, App.DisplayName a, App.Description a,
   App.Category a, App.ColorScheme a, App.Logo a, App.Status a,
   App.ProductionURL a, App.VercelProjectID a, App.CreatedAt a).

End Frames.

(** ** More sample environments and vocabulary *)

Module Scenario2.
Import Bytes Errors Store Ops VersionService Scenario.

(** The four checks of [PromoteVersion] pass for version [v] of
    application [a], and the platform takes the promotion. *)
Definition ready_to_promote (env : Env) (versionID : string) (w : World)
           (v : Version.t) (a : App.t) (projectID deploymentID : string) : Prop :=
  db_fault env (trace w) (SelectVersion versionID) = None
  ∧ find_version versionID (db w) = Some v
  ∧ Version.Status v = "completed"
  ∧ Version.VercelDeployID v = Some deploymentID ∧ deploymentID ≠ ""
  ∧ db_fault env (trace w) (SelectProjectID (Version.AppID v)) = None
  ∧ find_app (Version.AppID v) (db w) = Some a
  ∧ App.VercelProjectID a = Some projectID ∧ projectID ≠ ""
  ∧ promotion_accepted (vercel_promote env (trace w) projectID deploymentID).

(** A store that fails the statements [fails] picks and answers the
    others, with everything else as in the calm environment. *)
Definition env_failing (fails : Stmt → bool) : Env :=
  {| db_fault := λ _ stmt,
       if fails stmt then Some (errorString "connection refused") else None;
     vercel_promote := vercel_promote calm;
     gemini_post := gemini_post calm;
     gemini_decode := gemini_decode calm;
     TrimSpace := TrimSpace calm;
     unmarshal_config := unmarshal_config calm;
     run_command := run_command calm |}.

(** The store fails the write of [prod_version]. *)
Definition env_pointer_fails : Env :=
  env_failing (λ stmt, match stmt with UpdateProdVersion _ _ _ => true | _ => false end).

(** The store fails the update of a version. *)
Definition env_status_fails : Env :=
  env_failing (λ stmt, match stmt with UpdateVersions _ _ => true | _ => false end).

(** The store fails the lookup of the owner's address. *)
Definition env_owner_fails : Env :=
  env_failing (λ stmt, match stmt with SelectOwnerEmail _ => true | _ => false end).

(** The text-generation endpoint answers 200 with one candidate whose
    text is [text], and the text parses to [config]. *)
Definition env_extracting (text : string) (config : AppConfig.t) : Env :=
  {| db_fault := λ _ _, None;
     vercel_promote := vercel_promote calm;
     gemini_post := λ _, inr (200%Z, "{}");
     gemini_decode := λ _, inr [[text]];
     TrimSpace := λ s, s;
     unmarshal_config := λ _, inr config;
     run_command := run_command calm |}.

(** What [ExtractAppConfig] makes of the text it hands to the parser:
    the parse error with the text in its message, or the parsed
    configuration normalised. *)
Definition parsed_as (env : Env) (responseText : string) : AppConfig.t + error :=
  match unmarshal_config env responseText with
  | inl err =>
      inr (wrapError ("failed to parse config JSON: " +:+ Error err
                      +:+ " (response: " +:+ responseText +:+ ")") err)
  | inr config => inl (GeminiService.validate config)
  end.

End Scenario2.

(** ** The other statements of the services

    [ListVersions] of version_service.go and [GetApp], [ListApps],
    [UpdateApp] and [DeleteApp] of app_service.go act on the store
    alone; they are modelled on the tables, with the failures of the
    store as a parameter. *)

Module MoreStore.
Import Errors Store Ops.

(** One [, column = $n] of the dynamic UPDATE on [apps]. *)
Inductive AppAssignment : Type :=
| SetName (v : string)
| SetDescription (v : string)
| SetAppStatus (v : string)
| SetProdVersion (v : Z).

Inductive Query : Type :=
| SelectVersions (appID : string)
| SelectApp (appID userID : string)
| SelectApps (userID : string)
| UpdateApps (updatedAt : Z) (sets : list AppAssignment) (appID : string)
    (userID : option string)
| DeleteApps (appID userID : string)
| UpdateLogo (logo : string) (updatedAt : Z) (appID : string).

(** Where a query that returns rows fails: when it is sent, when a
    row is scanned, or when the iteration ends. *)
Inductive RowsFault : Type :=
| QueryFails (e : error)
| ScanFails (e : error)
| RowsErr (e : error).

(** What the store decides by itself: the failures of its own, and
    what its schema does to the versions of an application whose rows
    are deleted (nothing, or a cascade). *)
Record Outside : Type := {
  exec_fault : Query → option error;
  rows_fault : Query → option RowsFault;
  versions_after_delete : string → list Version.t → list Version.t
}.

(** [ORDER BY key DESC]: greater keys first.  Rows of equal keys come
    in an order of the model's; SQL leaves it open. *)
Fixpoint insert_desc {A : Type} (key : A → Z) (x : A) (l : list A) : list A :=
  match l with
  | [] => [x]
  | y :: r => if (key y <? key x)%Z then x :: l else y :: insert_desc key x r
  end.

Definition order_by_desc {A : Type} (key : A → Z) (l : list A) : list A :=
  fold_right (insert_desc key) [] l.

(** [a] may come before [b] under [ORDER BY key DESC]. *)
Definition key_ge {A : Type} (key : A → Z) (a b : A) : Prop := (key b <= key a)%Z.

(** A row of [apps] as the SELECTs of the service return it: without
    [vercel_project_id], which they do not name. *)
Definition without_project (a : App.t) : App.t :=
  let '(App.Build id user name dn descr cat col logo st pv url _ cr up) := a in
  App.Build id user name dn descr cat col logo st pv url None cr up.

(** A row of [apps] as the RETURNING clause of [UpdateApp] gives it:
    id, user_id, name, description, status, prod_version, created_at
    and updated_at. *)
Definition returned_by_update (a : App.t) : App.t :=
  let '(App.Build id user name _ descr _ _ _ st pv _ _ cr up) := a in
  App.Build id user name None descr None None None st pv None None cr up.

Definition assign_app (s : AppAssignment) (a : App.t) : App.t :=
  let '(App.Build id user name dn descr cat col logo st pv url prj cr up) := a in
  match s with
  | SetName x => App.Build id user x dn descr cat col logo st pv url prj cr up
  | SetDescription x => App.Build id user name dn x cat col logo st pv url prj cr up
  | SetAppStatus x => App.Build id user name dn descr cat col logo x pv url prj cr up
  | SetProdVersion x => App.Build id user name dn descr cat col logo st (Some x) url prj cr up
  end.

Definition touch (now : Z) (a : App.t) : App.t :=
  let '(App.Build id user name dn descr cat col logo st pv url prj cr _) := a in
  App.Build id user name dn descr cat col logo st pv url prj cr now.

(** [SET updated_at = $1, ...]: the clauses in their order. *)
Definition update_app (now : Z) (sets : list AppAssignment) (a : App.t) : App.t :=
  fold_left (λ a s, assign_app s a) sets (touch now a).

End MoreStore.

Module MoreVersionService.
Import Errors Store Ops MoreStore.

Section WithOutside.
Variable out : Outside.

(** [SELECT ... FROM versions WHERE app_id = $1 ORDER BY
    version_number DESC], scanned row by row. *)
Definition ListVersions (appID : string) (d : DB) : list Version.t + error :=
  let rows := order_by_desc Version.VersionNumber (versions_of appID d) in
  match rows_fault out (SelectVersions appID) with
  | Some (QueryFails e) => inr (Errorf_w "failed to list versions: " e)
  | Some (ScanFails e) =>
      match rows with
      | [] => inl []
      | _ => inr (Errorf_w "failed to scan version: " e)
      end
  | Some (RowsErr e) => inr (Errorf_w "error iterating versions: " e)
  | None => inl rows
  end.

End WithOutside.

End MoreVersionService.

Module MoreAppService.
Import Errors Store Ops MoreStore VersionService.

(** [v, ok := updates[key].(int)] *)
Definition as_int (v : option Value) : option Z :=
  match v with
  | Some (VInt n) => Some n
  | _ => None
  end.

Definition optional {A B : Type} (asserted : option A) (set : A → B) : list B :=
  match asserted with
  | Some v => [set v]
  | None => []
  end.

(** The clauses [UpdateApp] adds after [updated_at = $1], in its
    order. *)
Definition appClauses (updates : gmap string Value) : list AppAssignment :=
  optional (as_string (updates !! "name")) SetName
  ++ optional (as_string (updates !! "description")) SetDescription
  ++ optional (as_string (updates !! "status")) SetAppStatus
  ++ optional (as_int (updates !! "prod_version")) SetProdVersion.

(** The rows a statement with [WHERE id = $n] and, when [owner] is
    given, [AND user_id = $m] addresses. *)
Definition addressed (appID : string) (owner : option string) (a : App.t) : bool :=
  String.eqb (App.ID a) appID
  && match owner with
     | None => true
     | Some userID => String.eqb (App.UserID a) userID
     end.

Section WithOutside.
Variable out : Outside.

Definition GetApp (appID userID : string) (d : DB) : App.t + error :=
  match exec_fault out (SelectApp appID userID) with
  | Some e => inr (Errorf_w "app not found: " e)
  | None =>
      match List.find (addressed appID (Some userID)) (apps d) with
      | Some a => inl (without_project a)
      | None => inr (Errorf_w "app not found: " ErrNoRows)
      end
  end.

(** [SELECT ... FROM apps WHERE user_id = $1 ORDER BY created_at
    DESC], scanned row by row. *)
Definition ListApps (userID : string) (d : DB) : list App.t + error :=
  let rows :=
    List.map without_project
      (order_by_desc App.CreatedAt
         (List.filter (λ a, String.eqb (App.UserID a) userID) (apps d))) in
  match rows_fault out (SelectApps userID) with
  | Some (QueryFails e) => inr (Errorf_w "failed to list apps: " e)
  | Some (ScanFails e) =>
      match rows with
      | [] => inl []
      | _ => inr (Errorf_w "failed to scan app: " e)
      end
  | Some (RowsErr e) => inr (Errorf_w "error iterating apps: " e)
  | None => inl rows
  end.

(** [now] is the value of [time.Now()]. *)
Definition UpdateApp (now : Z) (appID userID : string) (updates : gmap string Value)
           (d : DB) : (App.t + error) * DB :=
  let sets := appClauses updates in
  let owner := if String.eqb userID "" then None else Some userID in
  match exec_fault out (UpdateApps now sets appID owner) with
  | Some e => (inr (Errorf_w "failed to update app: " e), d)
  | None =>
      match List.find (addressed appID owner) (apps d) with
      | None => (inr (Errorf_w "failed to update app: " ErrNoRows), d)
      | Some a =>
          (inl (returned_by_update (update_app now sets a)),
           {| apps := List.map (λ a, if addressed appID owner a
                                     then update_app now sets a else a) (apps d);
              versions := versions d; users := users d |})
      end
  end.

Definition DeleteApp (appID userID : string) (d : DB) : (unit + error) * DB :=
  match exec_fault out (DeleteApps appID userID) with
  | Some e => (inr (Errorf_w "failed to delete app: " e), d)
  | None =>
      let hit := addressed appID (Some userID) in
      let rowsAffected := Z.of_nat (length (List.filter hit (apps d))) in
      if (rowsAffected =? 0)%Z then (inr (Errorf "app not found"), d)
      else
        (inl tt,
         {| apps := List.filter (λ a, negb (hit a)) (apps d);
            versions := versions_after_delete out appID (versions d);
            users := users d |})
  end.

End WithOutside.

(** A store that answers and whose schema cascades the deletion of an
    application to its versions. *)
Definition healthy : Outside :=
  {| exec_fault := λ _, None;
     rows_fault := λ _, None;
     versions_after_delete := λ appID vs,
       List.filter (λ v, negb (String.eqb (Version.AppID v) appID)) vs |}.

End MoreAppService.

(** ** The logo pipeline *)

Module LogoService.
Import Bytes Errors Store Ops MoreStore.

(** [s3.PutObjectInput], the fields the pipeline sets. *)
Record PutObjectInput : Type := {
  Bucket : string;
  Key : string;
  Body : string;
  ContentType : string
}.

(** What the pipeline does to the outside, in its order. *)
Inductive Effect : Type :=
| Printf (line : string)
| Put (input : PutObjectInput)
| Exec (q : Query)
| Run (argv env : list string).

(** The store, the objects of the bucket and the effects so far. *)
Record Site : Type := {
  store : DB;
  objects : list PutObjectInput;
  effects : list Effect
}.

(** The image service, the object store, the registry command and
    the configuration and environment of the process. *)
Record Media : Type := {
  (* RunwareService.GenerateLogo(appName, category, colorScheme) *)
  GenerateLogo : string → string → string → string + error;
  (* RunwareService.DownloadImage(imageURL) *)
  DownloadImage : string → string + error;
  (* S3Client.PutObject *)
  PutObject : PutObjectInput → option error;
  (* Config.S3Bucket *)
  S3Bucket : string;
  (* os.Environ() *)
  Environ : list string;
  (* exec.Cmd.Run: its error and what it wrote to stderr *)
  run : list string → list string → option error * string
}.

Definition effect (e : Effect) (s : Site) : Site :=
  {| store := store s; objects := objects s; effects := effects s ++ [e] |}.

Definition printf (line : string) (s : Site) : Site := effect (Printf line) s.

(** [UPDATE apps SET logo = $1, updated_at = $2 WHERE id = $3] *)
Definition set_logo (logo : string) (now : Z) (a : App.t) : App.t :=
  let '(App.Build id user name dn descr cat col _ st pv url prj cr _) := a in
  App.Build id user name dn descr cat col (Some logo) st pv url prj cr now.

Definition update_logo (logo : string) (now : Z) (appID : string) (d : DB) : DB :=
  {| apps := List.map (λ a, if String.eqb (App.ID a) appID then set_logo logo now a
                            else a) (apps d);
     versions := versions d; users := users d |}.

(** The columns of an application that the logo pipeline leaves
    alone. *)
Definition app_outside_logo (a : App.t)
  : string * string * string * option string * string * option string * option string
    * string * option Z * option string * option string * Z :=
  (App.ID a, App.UserID a, App.Name a, App.DisplayName a, App.Description a,
   App.Category a, App.ColorScheme a, App.Status a, App.ProdVersion a,
   App.ProductionURL a, App.VercelProjectID a, App.CreatedAt a).

(** The registry commands among the effects. *)
Definition commands (es : list Effect) : list (list string) :=
  flat_map (λ e, match e with
                 | Run argv _ => [argv]
                 | _ => []
                 end) es.

(** The statements sent to the store among the effects. *)
Definition statements (es : list Effect) : list Query :=
  flat_map (λ e, match e with
                 | Exec q => [q]
                 | _ => []
                 end) es.

Section WithMedia.
Variable m : Media.
Variable out : Outside.

(** [now] is the value of [time.Now()]. *)
Definition generateAndUploadLogo (now : Z) (appID appName category colorScheme : string)
           (s : Site) : Site :=
  let s := printf ("[Logo] Starting async logo generation for app " +:+ appID
                   +:+ " (" +:+ appName +:+ ")") s in
  (* 1. Generate logo using Runware *)
  match GenerateLogo m appName category colorScheme with
  | inr err =>
      printf ("[Logo] Failed to generate logo for app " +:+ appID +:+ ": "
              +:+ Error err) s
  | inl imageURL =>
      let s := printf ("[Logo] Generated logo for app " +:+ appID +:+ ": "
                       +:+ imageURL) s in
      (* 2. Download image *)
      match DownloadImage m imageURL with
      | inr err =>
          printf ("[Logo] Failed to download logo for app " +:+ appID +:+ ": "
                  +:+ Error err) s
      | inl imageData =>
          let s := printf ("[Logo] Downloaded logo for app " +:+ appID +:+ " ("
                           +:+ itoa (Z.of_nat (String.length imageData))
                           +:+ " bytes)") s in
          (* 3. Upload to S3 *)
          let s3Key := "apps/" +:+ appID +:+ "/logo.png" in
          let input := {| Bucket := S3Bucket m; Key := s3Key; Body := imageData;
                          ContentType := "image/png" |} in
          let s := effect (Put input) s in
          match PutObject m input with
          | Some err =>
              printf ("[Logo] Failed to upload logo to S3 for app " +:+ appID +:+ ": "
                      +:+ Error err) s
          | None =>
              let s := {| store := store s; objects := objects s ++ [input];
                          effects := effects s |} in
              (* Convert S3 path to HTTPS URL *)
              let httpsURL := "https://" +:+ S3Bucket m +:+ ".s3.amazonaws.com/"
                              +:+ s3Key in
              let s := printf ("[Logo] Uploaded logo to S3 for app " +:+ appID +:+ ": "
                               +:+ httpsURL) s in
              (* 4. Update PostgreSQL with HTTPS URL *)
              let s := effect (Exec (UpdateLogo httpsURL now appID)) s in
              match exec_fault out (UpdateLogo httpsURL now appID) with
              | Some err =>
                  printf ("[Logo] Failed to update PostgreSQL for app " +:+ appID
                          +:+ ": " +:+ Error err) s
              | None =>
                  let s := {| store := update_logo httpsURL now appID (store s);
                              objects := objects s; effects := effects s |} in
                  let s := printf ("[Logo] Updated PostgreSQL with logo for app "
                                   +:+ appID) s in
                  (* 5. Update MongoDB (both name and logo) using app-manager CLI *)
                  let argv := ["app-manager"; "update"; appID; "--name"; appName;
                               "--logo"; httpsURL] in
                  let cmdEnv := (Environ m ++
                    ["PATH=/home/ubuntu/.local/share/pnpm:/usr/local/bin:/usr/bin:/bin"])%list in
                  let s := effect (Run argv cmdEnv) s in
                  match run m argv cmdEnv with
                  | (Some err, stderr) =>
                      printf ("[Logo] Failed to update MongoDB via app-manager for app "
                              +:+ appID +:+ ": " +:+ Error err +:+ " (stderr: "
                              +:+ stderr +:+ ")") s
                  | (None, _) =>
                      let s := printf ("[Logo] Updated MongoDB with name '" +:+ appName
                                       +:+ "' and logo for app " +:+ appID
                                       +:+ " via app-manager") s in
                      printf ("[Logo] Successfully completed logo generation for app "
                              +:+ appID) s
                  end
              end
          end
      end
  end.

End WithMedia.

(** A bucket, an image service and a registry that all answer. *)
Definition studio : Media :=
  {| GenerateLogo := λ _ _ _, inl "https://im.runware.ai/logo.png";
     DownloadImage := λ _, inl "PNG";
     PutObject := λ _, None;
     S3Bucket := "rapidbuild-logos";
     Environ := [];
     run := λ _ _, (None, "") |}.

(** A store that refuses the statement of the pipeline. *)
Definition store_refuses_logo : Outside :=
  {| exec_fault := λ q, match q with
                        | UpdateLogo _ _ _ => Some (errorString "connection refused")
                        | _ => None
                        end;
     rows_fault := λ _, None;
     versions_after_delete := λ _ vs, vs |}.

(** A store that answers. *)
Definition store_answers : Outside :=
  {| exec_fault := λ _, None;
     rows_fault := λ _, None;
     versions_after_delete := λ _ vs, vs |}.

Definition site_of (d : DB) : Site := {| store := d; objects := []; effects := [] |}.

(** The object the pipeline uploads for an application. *)
Definition logo_object (m : Media) (appID imageData : string) : PutObjectInput :=
  {| Bucket := S3Bucket m; Key := "apps/" +:+ appID +:+ "/logo.png";
     Body := imageData; ContentType := "image/png" |}.

(** The address the pipeline stores for an application. *)
Definition logo_url (m : Media) (appID : string) : string :=
  "https://" +:+ S3Bucket m +:+ ".s3.amazonaws.com/" +:+ "apps/" +:+ appID
  +:+ "/logo.png".

End LogoService.

(** ** Looking a deployment up by its address *)

Module MoreVercelService.
Import Bytes Errors Store Ops.

(** [strings.Split(s, sep)] for a separator of one byte. *)
Fixpoint Split (s : string) (sep : ascii) : list string :=
  match s with
  | EmptyString => [EmptyString]
  | String c r =>
      if Ascii.eqb c sep then EmptyString :: Split r sep
      else match Split r sep with
           | part :: parts => String c part :: parts
           | [] => [String c EmptyString]
           end
  end.

(** The deployment platform as the lookup sees it. *)
Record Platform : Type := {
  (* GET on an address with the token of the service; [http.NewRequest],
     [Client.Do] and [io.ReadAll] failing are the transport error *)
  vercel_get : string → HttpResult;
  (* json.Unmarshal into a struct of one field [id]: the value found,
     empty when the reply has none *)
  unmarshal_id : string → error + string
}.

(** A byte that a host name given without scheme and path may hold. *)
Definition host_byte (c : ascii) : bool :=
  negb (Ascii.eqb c "/") && negb (Ascii.eqb c ":").

Section WithPlatform.
Variable p : Platform.

Definition GetDeploymentIDByURL (deploymentURL : string) : string + error :=
  (* Extract hostname from URL (remove https:// and path) *)
  let hostname := GeminiService.TrimPrefix deploymentURL "https://" in
  let hostname := GeminiService.TrimPrefix hostname "http://" in
  let hostname := hd "" (Split hostname "/") in
  let url := "https://api.vercel.com/v13/deployments/" +:+ hostname in
  match vercel_get p url with
  | inl err => inr err
  | inr (StatusCode, body) =>
      if (400 <=? StatusCode)%Z
      then inr (Errorf ("failed to get deployment by URL (status " +:+ itoa StatusCode
                        +:+ "): " +:+ body))
      else
        match unmarshal_id p body with
        | inl err => inr (Errorf_w "failed to parse deployment response: " err)
        | inr ID =>
            if String.eqb ID "" then inr (Errorf "deployment ID not found in response")
            else inl ID
        end
  end.

End WithPlatform.

(** A platform that knows the deployment of the third build of the
    shop and no other. *)
Definition knows_build3 : Platform :=
  {| vercel_get := λ url,
       if String.eqb url "https://api.vercel.com/v13/deployments/shop-git-3.vercel.app"
       then inr (200%Z, "{'id': 'dpl_3'}")
       else inr (404%Z, "{'error': {'code': 'not_found'}}");
     unmarshal_id := λ _, inr "dpl_3" |}.

End MoreVercelService.

(** ** Properties of the Domain Namer *)

Module UtilsFacts.
Import Bytes Utils NamerSpec.

Lemma append_nil_l (s : string) : "" +:+ s = s.
Proof. reflexivity. Qed.

Lemma append_cons (c : ascii) (r s : string) :
  String c r +:+ s = String c (r +:+ s).
Proof. reflexivity. Qed.

Lemma append_nil_r (s : string) : s +:+ "" = s.
Proof.
  induction s as [|c r IH]; [reflexivity|].
  now rewrite append_cons, IH.
Qed.

Lemma length_append (s t : string) :
  String.length (s +:+ t) = (String.length s + String.length t)%nat.
Proof.
  induction s as [|c r IH]; [reflexivity|].
  rewrite append_cons. simpl. now rewrite IH.
Qed.

(** The first regular expression deletes exactly the bytes outside
    the slug alphabet, whatever the state of the run. *)
Lemma remove_runs_strip (b : bool) (s : string) :
  replace_runs_from non_slug_byte "" b s = strip_invalid s.
Proof.
  revert b; induction s as [|c r IH]; intros b; simpl; [reflexivity|].
  unfold non_slug_byte at 1.
  destruct (slug_byte c); simpl.
  - now rewrite IH.
  - destruct b; now rewrite ?append_nil_l, IH.
Qed.

Lemma collapse_hyphen_cons (s : string) :
  collapse_hyphens (String "-" s) = String "-" (replace_runs_from is_hyphen "-" true s)
  ∧ replace_runs_from is_hyphen "-" false s = collapse_hyphens s.
Proof.
  induction s as [|c r [IH1 IH2]]; [split; reflexivity|].
  assert (Hc : is_hyphen c = true → c = "-"%char).
  { unfold is_hyphen. intros H. now apply Ascii.eqb_eq in H. }
  split.
  - cbn [collapse_hyphens replace_runs_from].
    change (is_hyphen "-") with true. cbn iota.
    destruct (is_hyphen c) eqn:E.
    + rewrite (Hc eq_refl). exact IH1.
    + now rewrite IH2.
  - cbn [replace_runs_from].
    destruct (is_hyphen c) eqn:E.
    + rewrite (Hc eq_refl). symmetry. exact IH1.
    + rewrite IH2. cbn [collapse_hyphens]. now rewrite E.
Qed.

Lemma collapse_hyphen_runs (s : string) :
  ReplaceAllString is_hyphen s "-" = collapse_hyphens s.
Proof. apply collapse_hyphen_cons. Qed.

(** [collapse_hyphens] keeps the emptiness of a string and whether it
    starts with a hyphen, so that collapsing is a congruence for
    prefixing a byte. *)
Lemma collapse_starts (s : string) :
  starts_hyphen (collapse_hyphens s) = starts_hyphen s.
Proof.
  induction s as [|c r IH]; [reflexivity|].
  cbn [collapse_hyphens]. destruct (is_hyphen c) eqn:E.
  - destruct r as [|c' r']; [reflexivity|].
    destruct (is_hyphen c') eqn:E'.
    + rewrite IH. cbn [starts_hyphen]. now rewrite E, E'.
    + reflexivity.
  - reflexivity.
Qed.

Lemma collapse_empty (s : string) :
  collapse_hyphens s = "" → s = "".
Proof.
  induction s as [|c r IH]; [reflexivity|].
  cbn [collapse_hyphens]. destruct (is_hyphen c) eqn:E; [|discriminate].
  destruct r as [|c' r']; [discriminate|].
  destruct (is_hyphen c') eqn:E'; [|discriminate].
  intros H. specialize (IH H). discriminate.
Qed.

Lemma collapse_cons_congr (c : ascii) (x y : string) :
  collapse_hyphens x = collapse_hyphens y →
  collapse_hyphens (String c x) = collapse_hyphens (String c y).
Proof.
  intros H. cbn [collapse_hyphens].
  destruct (is_hyphen c); [|now rewrite H].
  pose proof (collapse_starts x) as Hx. pose proof (collapse_starts y) as Hy.
  rewrite H in Hx.
  destruct x as [|a x'], y as [|b y'].
  - reflexivity.
  - symmetry in H. apply collapse_empty in H. discriminate.
  - apply collapse_empty in H. discriminate.
  - cbn [starts_hyphen] in Hx, Hy. rewrite <- Hx, Hy.
    destruct (is_hyphen b); now rewrite H.
Qed.

Lemma collapse_double_hyphen (x : string) :
  collapse_hyphens (String "-" (String "-" x)) = collapse_hyphens (String "-" x).
Proof. reflexivity. Qed.

(** Replacing every space by a hyphen (the code) and replacing every
    run of spaces by one hyphen (the specification) agree once the
    invalid bytes are stripped and the hyphens collapsed. *)
Lemma spaces_each_or_runs (s : string) :
  collapse_hyphens (strip_invalid (ReplaceAll s " " "-")) =
    collapse_hyphens (strip_invalid (replace_runs_from is_space "-" false s))
  ∧ collapse_hyphens (String "-" (strip_invalid (ReplaceAll s " " "-"))) =
    collapse_hyphens (String "-" (strip_invalid (replace_runs_from is_space "-" true s))).
Proof.
  induction s as [|c r [IH1 IH2]]; [split; reflexivity|].
  cbn [ReplaceAll replace_runs_from].
  change (is_space c) with (Ascii.eqb c " ").
  destruct (Ascii.eqb c " ") eqn:E.
  - rewrite !append_cons, !append_nil_l.
    change (strip_invalid (String "-" ?x)) with (String "-" (strip_invalid x)).
    split; [exact IH2|].
    rewrite collapse_double_hyphen. exact IH2.
  - cbn [strip_invalid]. destruct (slug_byte c).
    + split; [now apply collapse_cons_congr|].
      now do 2 apply collapse_cons_congr.
    + split; [exact IH1 | now apply collapse_cons_congr].
Qed.

Lemma trim_left_drop (s : string) : TrimLeft s "-" = drop_leading s.
Proof.
  induction s as [|c r IH]; [reflexivity|].
  cbn [TrimLeft drop_leading]. unfold is_hyphen. now rewrite IH.
Qed.

Lemma trim_right_empty (s : string) :
  TrimRight s "-" = "" ↔ all_bytes is_hyphen s = true.
Proof.
  induction s as [|c r IH]; [easy|].
  cbn [TrimRight all_bytes]. unfold is_hyphen at 1.
  destruct (TrimRight r "-") as [|a t] eqn:E.
  - destruct (Ascii.eqb c "-"); simpl.
    + split; [intros _; now apply IH | reflexivity].
    + split; discriminate.
  - split; [discriminate|].
    intros H. apply andb_prop in H as [_ H]. apply IH in H. discriminate.
Qed.

Lemma trim_right_drop (s : string) : TrimRight s "-" = drop_trailing s.
Proof.
  induction s as [|c r IH]; [reflexivity|].
  cbn [drop_trailing].
  destruct (all_bytes is_hyphen (String c r)) eqn:E.
  - now apply trim_right_empty.
  - cbn [TrimRight]. rewrite <- IH.
    destruct (TrimRight r "-") as [|a t] eqn:Er; [|reflexivity].
    cbn [all_bytes] in E. unfold is_hyphen at 1 in E.
    destruct (Ascii.eqb c "-"); [|reflexivity].
    apply trim_right_empty in Er. rewrite Er in E. discriminate.
Qed.

Lemma trim_spec (s : string) : Trim s "-" = trim_hyphens s.
Proof. unfold Trim, trim_hyphens. now rewrite trim_left_drop, trim_right_drop. Qed.

Lemma replace_hyphens_strip (s : string) : ReplaceAll s "-" "" = strip_hyphens s.
Proof.
  induction s as [|c r IH]; [reflexivity|].
  cbn [ReplaceAll strip_hyphens]. unfold is_hyphen. rewrite IH.
  now destruct (Ascii.eqb c "-").
Qed.

Lemma substring_all (s : string) : substring 0 (String.length s) s = s.
Proof. induction s as [|c r IH]; simpl; [reflexivity | now rewrite IH]. Qed.

Lemma last_chars_short (n : nat) (s : string) :
  (String.length s <= n)%nat → last_chars n s = s.
Proof.
  destruct s as [|c r]; [reflexivity|]. intros H.
  cbn [last_chars]. now rewrite (proj2 (Nat.leb_le _ _) H).
Qed.

Lemma slice_last_chars (n : nat) (s : string) :
  (n <= String.length s)%nat →
  slice_from s (String.length s - n) = last_chars n s.
Proof.
  unfold slice_from. induction s as [|c r IH]; intros H.
  - reflexivity.
  - destruct (Nat.eq_dec n (String.length (String c r))) as [->|Hn].
    + rewrite Nat.sub_diag, Nat.sub_0_r, substring_all.
      symmetry. now apply last_chars_short.
    + cbn [String.length] in *.
      assert (Hle : (n <= String.length r)%nat) by lia.
      cbn [last_chars String.length].
      rewrite (proj2 (Nat.leb_gt _ _)) by lia.
      rewrite <- (IH Hle).
      replace (S (String.length r) - n)%nat with (S (String.length r - n)) by lia.
      reflexivity.
Qed.

Lemma suffix_spec (s : string) :
  (if (6 <=? String.length s)%nat then slice_from s (String.length s - 6) else s)
  = last_chars 6 s.
Proof.
  destruct (6 <=? String.length s)%nat eqn:E.
  - apply Nat.leb_le in E. now apply slice_last_chars.
  - apply Nat.leb_gt in E. symmetry. apply last_chars_short. lia.
Qed.

Lemma slugify_spec (M : string → string) (name : string) :
  Slugify M name = slug_of M is_space name.
Proof.
  unfold Slugify, slug_of.
  rewrite trim_spec, collapse_hyphen_runs.
  unfold ReplaceAllString. rewrite !remove_runs_strip.
  f_equal. apply spaces_each_or_runs.
Qed.

(** The slug the code computes on a name with a tab and the slug the
    specification's words give for it. *)
Example tab_name_code :
  GenerateProductionDomain (λ s, s) (String "a" (String "009" "b")) "x"
  = "ab-x.rapidbuild.app".
Proof. reflexivity. Qed.

Example tab_name_spec :
  DomainNamer (λ s, s) is_whitespace (String "a" (String "009" "b")) "x"
  = "a-b-x.rapidbuild.app".
Proof. reflexivity. Qed.

(** C7, as stated, fails: with "whitespace" read as the whitespace
    characters, the Domain Namer of the specification and
    [GenerateProductionDomain] differ on the name a<TAB>b, where the
    code deletes the tab and the specification turns it into a
    hyphen. *)
Lemma C7_whitespace_counterexample :
  ¬ (∀ (MapToLower : string → string) (name identifier : string),
       GenerateProductionDomain MapToLower name identifier
       = DomainNamer MapToLower is_whitespace name identifier).
Proof.
  intros H.
  specialize (H (λ s, s) (String "a" (String "009" "b")) "x").
  rewrite tab_name_code, tab_name_spec in H. discriminate.
Qed.

(** C7, amended: for every name and identifier,
    [GenerateProductionDomain] returns the string that the Domain
    Namer of the specification describes when the characters turned
    into hyphens are the space characters only: the name lower-cased,
    every run of spaces replaced by one hyphen, every character
    outside [a-z0-9-] stripped (other whitespace included), repeated
    hyphens collapsed, leading and trailing hyphens trimmed, "app" if
    nothing is left, then "-", the last 6 characters of the identifier
    without its hyphens (all of it if shorter) and ".rapidbuild.app".
    The function is total: it returns a string on every input. *)
Theorem C7_domain_namer_spaces :
  ∀ (MapToLower : string → string) (name identifier : string),
    GenerateProductionDomain MapToLower name identifier
    = DomainNamer MapToLower is_space name identifier.
Proof.
  intros M name identifier.
  unfold GenerateProductionDomain, DomainNamer, platform_domain.
  rewrite slugify_spec, replace_hyphens_strip, suffix_spec.
  destruct (slug_of M is_space name) as [|c r]; reflexivity.
Qed.

(** C8: on the name "My Cool App!!" and the identifier
    "2028362b-a14a-43ac-87d8-0e26c7401623" [GenerateProductionDomain]
    returns "my-cool-app-401623.rapidbuild.app", which is not empty
    and holds only lowercase letters, digits, hyphens and dots. *)
Theorem C8_domain_scenario :
  ∀ (MapToLower : string → string),
    let domain := GenerateProductionDomain MapToLower "My Cool App!!"
                    "2028362b-a14a-43ac-87d8-0e26c7401623" in
    domain = "my-cool-app-401623.rapidbuild.app"
    ∧ domain ≠ ""
    ∧ all_bytes hostname_byte domain = true.
Proof.
  intros M. cbv zeta.
  assert (E : GenerateProductionDomain M "My Cool App!!"
                "2028362b-a14a-43ac-87d8-0e26c7401623"
              = "my-cool-app-401623.rapidbuild.app") by reflexivity.
  rewrite E. split; [reflexivity|]. split; [discriminate | reflexivity].
Qed.

End UtilsFacts.

(** ** Properties of the version service *)

Module VersionFacts.
Import Bytes Errors Store Ops VersionService Scenario.

Ltac op_unfold :=
  unfold mbind, Op_bind, mret, Op_ret, orWrap, fail, db_read, db_write.

Lemma clause_nil {A : Type} (x : option A) (set : A → Assignment) :
  clause x set = [] ↔ x = None.
Proof. destruct x; simpl; split; congruence. Qed.

Lemma setClauses_nil (updates : gmap string Value) :
  setClauses updates = [] ↔ no_recognized_field updates.
Proof.
  unfold setClauses, no_recognized_field.
  rewrite !app_nil, !clause_nil. tauto.
Qed.

Lemma UpdateVersion_no_fields (env : Env) (versionID : string)
      (updates : gmap string Value) (w : World) :
  setClauses updates = [] →
  UpdateVersion env versionID updates w = (inr (Errorf "no fields to update"), w).
Proof. intros H. unfold UpdateVersion. now rewrite H. Qed.

(** An assignment never touches the identifier, the application or
    the number of a version. *)
Lemma assign_all_keys (sets : list Assignment) (v : Version.t) :
  Version.ID (assign_all sets v) = Version.ID v
  ∧ Version.AppID (assign_all sets v) = Version.AppID v
  ∧ Version.VersionNumber (assign_all sets v) = Version.VersionNumber v.
Proof.
  unfold assign_all. revert v.
  induction sets as [|a r IH]; intros v; [easy|].
  simpl. destruct (IH (assign a v)) as (-> & -> & ->).
  destruct v, a; easy.
Qed.

Lemma find_updated (sets : list Assignment) (versionID : string)
      (vs : list Version.t) :
  List.find (λ v, String.eqb (Version.ID v) versionID)
    (List.map (λ v, if String.eqb (Version.ID v) versionID
                    then assign_all sets v else v) vs)
  = option_map (assign_all sets)
      (List.find (λ v, String.eqb (Version.ID v) versionID) vs).
Proof.
  induction vs as [|v r IH]; [reflexivity|].
  simpl. destruct (String.eqb (Version.ID v) versionID) eqn:E.
  - simpl. destruct (assign_all_keys sets v) as (-> & _). now rewrite E.
  - simpl. now rewrite E.
Qed.

Lemma UpdateVersion_fields (env : Env) (versionID : string)
      (updates : gmap string Value) (w : World) (v : Version.t) :
  let sets := setClauses updates in
  sets ≠ [] →
  db_fault env (trace w) (UpdateVersions sets versionID) = None →
  distinct_columns (List.map column sets) = true →
  find_version versionID (db w) = Some v →
  ∃ w', UpdateVersion env versionID updates w = (inl (assign_all sets v), w')
        ∧ find_version versionID (db w') = Some (assign_all sets v)
        ∧ apps (db w') = apps (db w)
        ∧ trace w' = (trace w ++ [DBWrite (UpdateVersions sets versionID)])%list.
Proof.
  intros sets Hne Hok Hcols Hv.
  unfold UpdateVersion. fold sets.
  destruct sets as [|a r] eqn:Es; [congruence|].
  cbn [length Nat.eqb]. rewrite <- Es in *. clear Es a r Hne.
  unfold queryUpdateVersions. op_unfold.
  rewrite Hok. unfold update_versions. rewrite Hcols, Hv. cbn [negb].
  eexists. split; [reflexivity|].
  cbn [db trace with_db emit versions apps].
  split; [|easy].
  unfold find_version in *. cbn [versions].
  now rewrite find_updated, Hv.
Qed.

(** C9, as stated, fails for updates that hold a recognized field: on
    an identifier the table does not hold the call returns an error,
    and so it does on a stored row when a column is named twice,
    once by its name and once by its legacy alias. *)
Lemma C9_recognized_field_counterexample :
  let missing := UpdateVersion calm "nope" {[ "status" := VString "building" ]}
                   shop_world in
  let twice := UpdateVersion calm "v3"
                 (<[ "vercel_url" := VString "https://a.example" ]>
                    {[ "deploy_url" := VString "https://b.example" ]})
                 shop_world in
  fst missing = inr (Errorf_w "failed to update version: " ErrNoRows)
  ∧ fst twice = inr (Errorf_w "failed to update version: " ErrMultipleAssignments)
  ∧ db (snd twice) = db shop_world.
Proof. vm_compute. auto. Qed.

Lemma UpdateVersion_refused (env : Env) (versionID : string)
      (updates : gmap string Value) (w : World) (e : error) :
  let sets := setClauses updates in
  sets ≠ [] →
  db_fault env (trace w) (UpdateVersions sets versionID) = Some e →
  UpdateVersion env versionID updates w
  = (inr (Errorf_w "failed to update version: " e),
     emit (DBWrite (UpdateVersions sets versionID)) w).
Proof.
  intros sets Hne Hf.
  unfold UpdateVersion. fold sets.
  destruct sets as [|a r] eqn:Es; [congruence|].
  cbn [length Nat.eqb]. rewrite <- Es in *. clear Es a r Hne.
  unfold queryUpdateVersions. op_unfold.
  now rewrite Hf.
Qed.

(** C9, amended: an update map without a recognized field (the empty
    map among them) makes [UpdateVersion] fail with "no fields to
    update" and leaves the world as it was: no statement reaches the
    store.  With at least one recognized field, no column named
    twice, a stored row of that identifier and a store that executes
    the statement, [UpdateVersion] issues one UPDATE and returns the
    row with the fields merged, which is the row then stored.  With
    at least one recognized field and a store that fails the
    statement, it issues that UPDATE and fails with the error of the
    store under the prefix "failed to update version: ", the tables
    being as they were. *)
Theorem C9_update_fields :
  ∀ (env : Env) (versionID : string) (updates : gmap string Value) (w : World),
    (no_recognized_field updates →
     UpdateVersion env versionID updates w = (inr (Errorf "no fields to update"), w))
    ∧ UpdateVersion env versionID ∅ w = (inr (Errorf "no fields to update"), w)
    ∧ (¬ no_recognized_field updates →
       distinct_columns (List.map column (setClauses updates)) = true →
       db_fault env (trace w) (UpdateVersions (setClauses updates) versionID) = None →
       ∀ v, find_version versionID (db w) = Some v →
         ∃ w', UpdateVersion env versionID updates w
               = (inl (assign_all (setClauses updates) v), w')
               ∧ find_version versionID (db w')
                 = Some (assign_all (setClauses updates) v)
               ∧ trace w'
                 = (trace w ++ [DBWrite (UpdateVersions (setClauses updates) versionID)])%list)
    ∧ (¬ no_recognized_field updates →
       ∀ e, db_fault env (trace w) (UpdateVersions (setClauses updates) versionID)
            = Some e →
         ∃ w', UpdateVersion env versionID updates w
               = (inr (Errorf_w "failed to update version: " e), w')
               ∧ db w' = db w
               ∧ trace w'
                 = (trace w ++ [DBWrite (UpdateVersions (setClauses updates) versionID)])%list).
Proof.
  intros env versionID updates w. split; [|split; [|split]].
  - intros H. apply UpdateVersion_no_fields. now apply setClauses_nil.
  - apply UpdateVersion_no_fields. reflexivity.
  - intros Hrec Hcols Hok v Hv.
    destruct (UpdateVersion_fields env versionID updates w v) as (w' & E & F & _ & T);
      try assumption.
    + intros H. apply Hrec. now apply setClauses_nil.
    + exists w'. auto.
  - intros Hrec e Hf.
    exists (emit (DBWrite (UpdateVersions (setClauses updates) versionID)) w).
    split; [|split; reflexivity].
    apply UpdateVersion_refused; [|exact Hf].
    intros H. apply Hrec. now apply setClauses_nil.
Qed.

(** C9 at work: a status written to the stored build of the shop. *)
Lemma C9_update_fields_witness :
  ∃ w', UpdateVersion calm "v3" {[ "status" := VString "building" ]} shop_world
        = (inl (assign (SetStatus "building") build3), w')
        ∧ find_version "v3" (db w') = Some (assign (SetStatus "building") build3)
        ∧ trace w' = [DBWrite (UpdateVersions [SetStatus "building"] "v3")].
Proof.
  destruct (C9_update_fields calm "v3" {[ "status" := VString "building" ]} shop_world)
    as (_ & _ & H & _).
  apply (H ltac:(vm_compute; intros (? & _); discriminate) eq_refl eq_refl build3 eq_refl).
Defined.

(** C10: in [UpdateVersion] an [error_message] entry counts only as a
    pointer to a string.  Such an entry holding a plain string adds
    nothing to the statement, whatever else the map holds; a map with
    it alone fails with "no fields to update" and leaves the world as
    it was.  Every other recognized key counts only as a plain
    string. *)
Theorem C10_error_message_pointer :
  ∀ (env : Env) (versionID : string) (w : World) (updates : gmap string Value)
    (m : string) (p : option string),
    setClauses (<[ "error_message" := VString m ]> updates)
    = setClauses (delete "error_message" updates)
    ∧ UpdateVersion env versionID {[ "error_message" := VString m ]} w
      = (inr (Errorf "no fields to update"), w)
    ∧ setClauses {[ "error_message" := VStringPtr p ]} = [SetErrorMessage p]
    ∧ Forall (λ key, setClauses {[ key := VStringPtr p ]} = []
                     ∧ setClauses {[ key := VString m ]} = string_clause key m)
        string_keys.
Proof.
  intros env versionID w updates m p. split; [|split; [|split]].
  - unfold setClauses.
    rewrite lookup_insert_eq, lookup_delete_eq.
    rewrite !(lookup_insert_ne _ "error_message") by done.
    rewrite !(lookup_delete_ne _ "error_message") by done.
    reflexivity.
  - apply UpdateVersion_no_fields. reflexivity.
  - reflexivity.
  - unfold string_keys. repeat constructor.
Qed.

End VersionFacts.

(** ** Properties of promotion *)

Module PromotionFacts.
Import Bytes Errors Store Ops VersionService Scenario.
Import VersionFacts.

Lemma is_empty_string_true (p : option string) :
  is_empty_string p = true ↔ p = None ∨ p = Some "".
Proof.
  destruct p as [s|]; simpl.
  - rewrite String.eqb_eq. split; [intros ->; now right | intros [?|[= ->]]; easy].
  - split; [now left | reflexivity].
Qed.

Lemma is_empty_string_false (p : option string) :
  is_empty_string p = false ↔ ∃ s, p = Some s ∧ s ≠ "".
Proof.
  destruct p as [s|]; simpl.
  - rewrite String.eqb_neq. split; [eauto | intros (? & [= <-] & ?); easy].
  - split; [discriminate | intros (? & ? & _); discriminate].
Qed.

Section WithEnv.
Variable env : Env.

(** Reading leaves the world as it is. *)
Lemma GetVersion_pure (versionID : string) (w : World) :
  snd (GetVersion env versionID w) = w.
Proof.
  unfold GetVersion, querySelectVersion. op_unfold.
  destruct (db_fault env (trace w) _); [reflexivity|].
  now destruct (find_version versionID (db w)).
Qed.

Lemma GetVersion_error (versionID : string) (w : World) (e : error) :
  fst (GetVersion env versionID w) = inr e →
  ∃ cause, e = Errorf_w "version not found: " cause.
Proof.
  unfold GetVersion, querySelectVersion. op_unfold.
  destruct (db_fault env (trace w) _); [intros [= <-]; eauto|].
  destruct (find_version versionID (db w)); [discriminate|].
  intros [= <-]; eauto.
Qed.

Lemma GetVersion_found (versionID : string) (w : World) (v : Version.t) :
  db_fault env (trace w) (SelectVersion versionID) = None →
  find_version versionID (db w) = Some v →
  GetVersion env versionID w = (inl v, w).
Proof.
  intros F H. unfold GetVersion, querySelectVersion. op_unfold.
  now rewrite F, H.
Qed.

Lemma querySelectProjectID_pure (appID : string) (w : World) :
  snd (querySelectProjectID env appID w) = w.
Proof.
  unfold querySelectProjectID. op_unfold.
  destruct (db_fault env (trace w) _); [reflexivity|].
  now destruct (find_app appID (db w)).
Qed.

Lemma querySelectProjectID_found (appID : string) (w : World) (a : App.t) :
  db_fault env (trace w) (SelectProjectID appID) = None →
  find_app appID (db w) = Some a →
  querySelectProjectID env appID w = (inl (App.VercelProjectID a), w).
Proof.
  intros F H. unfold querySelectProjectID. op_unfold. now rewrite F, H.
Qed.

Lemma PromoteDeployment_world (projectID deploymentID : string) (w : World) :
  snd (VercelService.PromoteDeployment env projectID deploymentID w)
  = emit (PromoteCall projectID deploymentID) w.
Proof.
  unfold VercelService.PromoteDeployment.
  destruct (vercel_promote env (trace w) projectID deploymentID)
    as [e|[StatusCode body]]; [reflexivity|].
  repeat match goal with |- context [if ?b then _ else _] => destruct b end;
    reflexivity.
Qed.

Lemma PromoteDeployment_accepted (projectID deploymentID : string) (w : World) :
  promotion_accepted (vercel_promote env (trace w) projectID deploymentID) →
  VercelService.PromoteDeployment env projectID deploymentID w
  = (inl tt, emit (PromoteCall projectID deploymentID) w).
Proof.
  intros (StatusCode & body & E & H).
  unfold VercelService.PromoteDeployment. rewrite E.
  destruct H as [->|[->|[-> C]]]; [reflexivity | reflexivity |].
  cbn. now rewrite C.
Qed.

(** The decision list of [PromoteVersion], check by check. *)
Lemma PromoteVersion_cases (now : Z) (versionID : string) (w : World) :
  PromoteVersion env now versionID w =
  match fst (GetVersion env versionID w) with
  | inr e => (inr e, w)
  | inl v =>
      if negb (String.eqb (Version.Status v) "completed") then
        (inr (Errorf ("cannot promote version with status '" +:+ Version.Status v
                      +:+ "', must be 'completed'")), w)
      else if is_empty_string (Version.VercelDeployID v) then
        (inr (Errorf "version has no vercel deployment ID"), w)
      else
        match fst (querySelectProjectID env (Version.AppID v) w) with
        | inr e => (inr (Errorf_w "failed to fetch app: " e), w)
        | inl p =>
            if is_empty_string p then (inr (Errorf "app has no vercel project ID"), w)
            else promote_checked env now versionID v (default "" p)
                   (default "" (Version.VercelDeployID v)) w
        end
  end.
Proof.
  unfold PromoteVersion. unfold mbind at 1, Op_bind at 1.
  pose proof (GetVersion_pure versionID w) as Hw.
  destruct (GetVersion env versionID w) as [[v|e] w0]; simpl in Hw; subst w0;
    [|reflexivity].
  cbn [fst].
  destruct (negb _); [reflexivity|].
  destruct (is_empty_string (Version.VercelDeployID v)); [reflexivity|].
  unfold mbind at 1, Op_bind at 1. unfold orWrap at 1.
  pose proof (querySelectProjectID_pure (Version.AppID v) w) as Hq.
  destruct (querySelectProjectID env (Version.AppID v) w) as [[p|e] w0];
    simpl in Hq; subst w0; [|reflexivity].
  cbn [fst].
  destruct (is_empty_string p); [reflexivity|].
  unfold promote_checked. op_unfold.
  destruct (VercelService.PromoteDeployment env _ _ w) as [[[]|e] w1]; [|reflexivity].
  destruct (execUpdateProdVersion env _ _ _ w1) as [[k|e] w2]; [|reflexivity].
  destruct (UpdateVersion env versionID _ w2) as [[v'|e] w3]; reflexivity.
Qed.

Lemma db_write_trace {A : Type} (stmt : Stmt) (run : DB → (A + error) * DB)
      (w : World) :
  trace (snd (db_write env stmt run w)) = (trace w ++ [DBWrite stmt])%list.
Proof.
  unfold db_write. destruct (db_fault env (trace w) stmt); [reflexivity|].
  now destruct (run (db w)).
Qed.

Lemma UpdateVersion_trace (versionID : string) (updates : gmap string Value)
      (w : World) :
  ∃ l, trace (snd (UpdateVersion env versionID updates w)) = (trace w ++ l)%list.
Proof.
  unfold UpdateVersion.
  destruct (length (setClauses updates) =? 0)%nat.
  - exists []. simpl. now rewrite app_nil_r.
  - exists [DBWrite (UpdateVersions (setClauses updates) versionID)].
    unfold orWrap, queryUpdateVersions.
    rewrite <- (db_write_trace _ (update_versions (setClauses updates) versionID) w).
    now destruct (db_write env _ _ w) as [[?|?] ?].
Qed.

Lemma promote_checked_trace (now : Z) (versionID : string) (v : Version.t)
      (projectID deploymentID : string) (w : World) :
  ∃ rest, trace (snd (promote_checked env now versionID v projectID deploymentID w))
          = (trace w ++ PromoteCall projectID deploymentID :: rest)%list.
Proof.
  unfold promote_checked.
  pose proof (PromoteDeployment_world projectID deploymentID w) as Hw.
  destruct (VercelService.PromoteDeployment env projectID deploymentID w)
    as [[[]|e] w1]; simpl in Hw; subst w1; [|exists []; reflexivity].
  unfold execUpdateProdVersion.
  match goal with |- context [db_write env ?s ?r ?w0] =>
    pose proof (db_write_trace s r w0) as Hd;
    destruct (db_write env s r w0) as [[k|e] w2] end;
    simpl in Hd.
  - destruct (UpdateVersion_trace versionID {[ "status" := VString "promoted" ]} w2)
      as [l Hl].
    destruct (UpdateVersion env versionID _ w2) as [[v'|e] w3]; simpl in Hl |- *;
      rewrite Hl, Hd; rewrite <- !app_assoc; eexists; reflexivity.
  - simpl. rewrite Hd. rewrite <- app_assoc. eexists; reflexivity.
Qed.

(** C4: [PromoteVersion] checks, in this order, that the version
    exists, that its status is "completed", that it carries a
    deployment identifier that is not empty, and that its
    application carries a project identifier that is not empty.
    Each check that fails ends the call with an error of its own and
    leaves the world untouched; whenever the call has any effect,
    and so whenever it reaches the platform, the four checks hold
    and the first effect is the promotion request.  A version of any
    status other than "completed", "promoted" included, is rejected
    with no effect. *)
Theorem C4_promote_preconditions :
  ∀ (now : Z) (versionID : string) (w : World),
    let out := PromoteVersion env now versionID w in
    (∀ e, fst (GetVersion env versionID w) = inr e →
       out = (inr e, w) ∧ ∃ cause, e = Errorf_w "version not found: " cause)
    ∧ (∀ v, fst (GetVersion env versionID w) = inl v →
         (Version.Status v ≠ "completed" →
          out = (inr (Errorf ("cannot promote version with status '"
                              +:+ Version.Status v +:+ "', must be 'completed'")), w))
         ∧ (Version.Status v = "completed" →
            Version.VercelDeployID v = None ∨ Version.VercelDeployID v = Some "" →
            out = (inr (Errorf "version has no vercel deployment ID"), w))
         ∧ (Version.Status v = "completed" →
            ¬ (Version.VercelDeployID v = None ∨ Version.VercelDeployID v = Some "") →
            ∀ p, fst (querySelectProjectID env (Version.AppID v) w) = inl p →
                 p = None ∨ p = Some "" →
                 out = (inr (Errorf "app has no vercel project ID"), w)))
    ∧ (trace (snd out) ≠ trace w →
       ∃ v p d rest,
         fst (GetVersion env versionID w) = inl v
         ∧ Version.Status v = "completed"
         ∧ Version.VercelDeployID v = Some d ∧ d ≠ ""
         ∧ fst (querySelectProjectID env (Version.AppID v) w) = inl (Some p)
         ∧ p ≠ ""
         ∧ trace (snd out) = (trace w ++ PromoteCall p d :: rest)%list)
    ∧ (∀ (cause : error) (st : string),
         NoDup [ Error (Errorf_w "version not found: " cause);
                 "cannot promote version with status '" +:+ st
                   +:+ "', must be 'completed'";
                 "version has no vercel deployment ID";
                 "app has no vercel project ID" ]).
Proof.
  intros now versionID w out.
  assert (Hout : out = PromoteVersion env now versionID w) by reflexivity.
  rewrite PromoteVersion_cases in Hout. clearbody out.
  split; [|split; [|split]].
  - intros e He. rewrite He in Hout. split; [exact Hout|].
    now apply (GetVersion_error versionID w).
  - intros v Hv. rewrite Hv in Hout. split; [|split].
    + intros Hs. apply String.eqb_neq in Hs. now rewrite Hs in Hout.
    + intros Hs Hd. apply String.eqb_eq in Hs. rewrite Hs in Hout.
      apply is_empty_string_true in Hd. now rewrite Hd in Hout.
    + intros Hs Hd p Hp He. apply String.eqb_eq in Hs. rewrite Hs in Hout.
      destruct (is_empty_string (Version.VercelDeployID v)) eqn:Ed.
      { apply is_empty_string_true in Ed. contradiction. }
      rewrite Hp in Hout. apply is_empty_string_true in He.
      now rewrite He in Hout.
  - intros Htr.
    destruct (fst (GetVersion env versionID w)) as [v|e];
      [|subst out; now destruct Htr].
    destruct (String.eqb (Version.Status v) "completed") eqn:Es;
      [|subst out; now destruct Htr].
    destruct (is_empty_string (Version.VercelDeployID v)) eqn:Ed;
      [subst out; now destruct Htr|].
    cbn [negb] in Hout.
    destruct (fst (querySelectProjectID env (Version.AppID v) w)) as [p|e] eqn:Eq;
      [|subst out; now destruct Htr].
    destruct (is_empty_string p) eqn:Ep; [subst out; now destruct Htr|].
    apply is_empty_string_false in Ed as (d & Ed & Hd).
    apply is_empty_string_false in Ep as (q & -> & Hq).
    rewrite Ed in Hout. cbn [default] in Hout.
    destruct (promote_checked_trace now versionID v q d w) as [rest Hrest].
    exists v, q, d, rest. rewrite Hout.
    apply String.eqb_eq in Es. repeat split; assumption.
  - intros cause st. unfold Errorf_w. cbn [Error].
    repeat constructor; rewrite ?elem_of_cons, ?elem_of_nil;
      cbv [String.append]; intros H; repeat destruct H as [H|H];
      try discriminate H; try exact H.
Qed.

Lemma set_prod_version_fields (n now : Z) (a : App.t) :
  App.ID (set_prod_version n now a) = App.ID a
  ∧ App.ProdVersion (set_prod_version n now a) = Some n
  ∧ App.VercelProjectID (set_prod_version n now a) = App.VercelProjectID a.
Proof. now destruct a. Qed.

Lemma find_app_promoted (n now : Z) (appID : string) (l : list App.t) :
  List.find (λ a, String.eqb (App.ID a) appID)
    (List.map (λ a, if String.eqb (App.ID a) appID
                    then set_prod_version n now a else a) l)
  = option_map (set_prod_version n now)
      (List.find (λ a, String.eqb (App.ID a) appID) l).
Proof.
  induction l as [|a r IH]; [reflexivity|].
  simpl. destruct (String.eqb (App.ID a) appID) eqn:E; simpl.
  - destruct (set_prod_version_fields n now a) as (-> & _). now rewrite E.
  - now rewrite E.
Qed.

Lemma prod_version_promoted (n now : Z) (appID : string) (l : list App.t)
      (a : App.t) :
  In a (List.map (λ a, if String.eqb (App.ID a) appID
                       then set_prod_version n now a else a) l) →
  App.ID a = appID → App.ProdVersion a = Some n.
Proof.
  intros Hin Hid. apply in_map_iff in Hin as (a0 & <- & _).
  destruct (String.eqb (App.ID a0) appID) eqn:E.
  - apply set_prod_version_fields.
  - apply String.eqb_neq in E. contradiction.
Qed.

(** C1, amended: on a version that is "completed", carries a
    deployment identifier that is not empty and belongs to an
    application with a project identifier that is not empty, with a
    store that answers and a platform that takes the promotion, the
    first [PromoteVersion] succeeds; afterwards every row of the
    application has its [prod_version] equal to the number of the
    version and the version is "promoted".  A second [PromoteVersion]
    on the same version then fails with the error for a status that
    is not "completed", reaches neither the platform nor the store,
    and leaves [prod_version] as the first call set it. *)
Theorem C1_promote_once_then_rejected :
  ∀ (now now' : Z) (versionID : string) (w : World) (v : Version.t) (a : App.t)
    (projectID deploymentID : string),
    no_faults env →
    find_version versionID (db w) = Some v →
    Version.Status v = "completed" →
    Version.VercelDeployID v = Some deploymentID → deploymentID ≠ "" →
    find_app (Version.AppID v) (db w) = Some a →
    App.VercelProjectID a = Some projectID → projectID ≠ "" →
    promotion_accepted (vercel_promote env (trace w) projectID deploymentID) →
    ∃ w1,
      PromoteVersion env now versionID w = (inl tt, w1)
      ∧ (∀ a1, In a1 (apps (db w1)) → App.ID a1 = Version.AppID v →
               App.ProdVersion a1 = Some (Version.VersionNumber v))
      ∧ find_app (Version.AppID v) (db w1)
        = Some (set_prod_version (Version.VersionNumber v) now a)
      ∧ find_version versionID (db w1) = Some (assign (SetStatus "promoted") v)
      ∧ PromoteVersion env now' versionID w1
        = (inr (Errorf "cannot promote version with status 'promoted', must be 'completed'"),
           w1).
Proof.
  intros now now' versionID w v a p d NF Hv Hs Hd Hdne Ha Hp Hpne Hacc.
  assert (Ed : is_empty_string (Some d) = false)
    by (apply is_empty_string_false; eauto).
  assert (Ep : is_empty_string (Some p) = false)
    by (apply is_empty_string_false; eauto).
  rewrite PromoteVersion_cases.
  rewrite (GetVersion_found versionID w v (NF _ _) Hv). cbn [fst].
  rewrite Hs, Hd, Ed.
  change (negb (String.eqb "completed" "completed")) with false. cbv iota.
  rewrite (querySelectProjectID_found _ w a (NF _ _) Ha). cbn [fst].
  rewrite Hp, Ep. cbn [from_option id].
  unfold promote_checked.
  rewrite (PromoteDeployment_accepted p d w Hacc).
  unfold execUpdateProdVersion, db_write. rewrite NF.
  set (w2 := with_db _ _).
  assert (Hv2 : find_version versionID (db w2) = Some v) by exact Hv.
  destruct (UpdateVersion_fields env versionID {[ "status" := VString "promoted" ]}
              w2 v) as (w3 & E3 & F3 & A3 & _);
    [discriminate | apply NF | reflexivity | exact Hv2 |].
  change (setClauses {[ "status" := VString "promoted" ]})
    with [SetStatus "promoted"] in E3, F3.
  change (assign_all [SetStatus "promoted"] v)
    with (assign (SetStatus "promoted") v) in E3, F3.
  rewrite E3. exists w3. split; [reflexivity|].
  split; [|split; [|split]].
  - intros a1 Hin Hid. rewrite A3 in Hin.
    exact (prod_version_promoted _ now _ _ a1 Hin Hid).
  - unfold find_app in *. rewrite A3. subst w2. cbn [db with_db apps emit].
    now rewrite find_app_promoted, Ha.
  - exact F3.
  - rewrite PromoteVersion_cases.
    rewrite (GetVersion_found versionID w3 _ (NF _ _) F3). cbn [fst].
    destruct v. simpl in Hs. subst. reflexivity.
Qed.

(** C6, amended: [PromoteDeployment] returns no error on the 409
    answer whose body says the deployment is "already the current
    production deployment"; every answer that is not 201, 202 or
    that 409, and every transport failure, gives an error.
    [PromoteVersion], once its checks have passed, hands that error
    to its caller wrapped under the prefix "failed to promote
    deployment on Vercel: ", the platform error being the wrapped
    cause, and writes nothing to the store. *)
Theorem C6_platform_errors :
  ∀ (projectID deploymentID : string) (w : World),
    let answer := vercel_promote env (trace w) projectID deploymentID in
    let result := fst (VercelService.PromoteDeployment env projectID deploymentID w) in
    (∀ body, answer = inr (409%Z, body) →
             Contains body "already the current production deployment" = true →
             result = inl tt)
    ∧ (∀ StatusCode body,
         answer = inr (StatusCode, body) → ¬ promotion_accepted answer →
         result =
           inr (Errorf (if (StatusCode =? 409)%Z
                        then "vercel promotion conflict (status 409): " +:+ body
                        else "vercel promotion failed (status " +:+ itoa StatusCode
                             +:+ "): " +:+ body)))
    ∧ (∀ e, answer = inl e → result = inr e)
    ∧ (∀ (now : Z) (versionID : string) (v : Version.t) (e : error),
         fst (GetVersion env versionID w) = inl v →
         Version.Status v = "completed" →
         Version.VercelDeployID v = Some deploymentID → deploymentID ≠ "" →
         fst (querySelectProjectID env (Version.AppID v) w) = inl (Some projectID) →
         projectID ≠ "" →
         result = inr e →
         PromoteVersion env now versionID w
         = (inr (wrapError ("failed to promote deployment on Vercel: " +:+ Error e) e),
            emit (PromoteCall projectID deploymentID) w)).
Proof.
  intros p d w answer result. subst result.
  split; [|split; [|split]].
  - intros body E C. rewrite PromoteDeployment_accepted; [reflexivity|].
    exists 409%Z, body. auto.
  - intros StatusCode body E Hno.
    unfold VercelService.PromoteDeployment. fold answer. rewrite E.
    destruct (StatusCode =? 201)%Z eqn:E1.
    { destruct Hno. exists StatusCode, body. apply Z.eqb_eq in E1. auto. }
    destruct (StatusCode =? 202)%Z eqn:E2.
    { destruct Hno. exists StatusCode, body. apply Z.eqb_eq in E2. auto. }
    destruct (StatusCode =? 409)%Z eqn:E9; cbn [negb andb]; [|reflexivity].
    destruct (Contains body _) eqn:C; [|reflexivity].
    destruct Hno. exists StatusCode, body. apply Z.eqb_eq in E9. auto.
  - intros e E. unfold VercelService.PromoteDeployment. fold answer. now rewrite E.
  - intros now versionID v e Hv Hs Hd Hdne Hq Hpne Hres.
    rewrite PromoteVersion_cases, Hv, Hs, Hd.
    change (negb (String.eqb "completed" "completed")) with false. cbv iota.
    rewrite (proj2 (is_empty_string_false (Some d))) by eauto.
    rewrite Hq. rewrite (proj2 (is_empty_string_false (Some p))) by eauto.
    cbn [from_option id]. unfold promote_checked.
    pose proof (PromoteDeployment_world p d w) as Hw.
    destruct (VercelService.PromoteDeployment env p d w) as [[[]|e'] w1];
      simpl in Hres, Hw; [discriminate|].
    injection Hres as ->. subst w1. reflexivity.
Qed.

End WithEnv.

(** C1, as stated, fails: the first promotion of the completed build
    of the shop succeeds and marks it "promoted", so that the second
    one is refused, whatever the platform would have answered. *)
Lemma C1_second_promotion_counterexample :
  let first := PromoteVersion calm 40 "v3" shop_world in
  let second := PromoteVersion calm 41 "v3" (snd first) in
  fst first = inl tt
  ∧ fst second
    = inr (errorString "cannot promote version with status 'promoted', must be 'completed'")
  ∧ promote_calls (trace (snd second)) = [("prj_1", "dpl_3")].
Proof. vm_compute. auto. Qed.

(** C1 at work on the shop. *)
Lemma C1_promote_once_then_rejected_witness :
  ∃ w1,
    PromoteVersion calm 40 "v3" shop_world = (inl tt, w1)
    ∧ (∀ a1, In a1 (apps (db w1)) → App.ID a1 = "a1" → App.ProdVersion a1 = Some 3%Z)
    ∧ find_app "a1" (db w1) = Some (set_prod_version 3 40 shop)
    ∧ find_version "v3" (db w1) = Some (assign (SetStatus "promoted") build3)
    ∧ PromoteVersion calm 41 "v3" w1
      = (inr (Errorf "cannot promote version with status 'promoted', must be 'completed'"),
         w1).
Proof.
  apply (C1_promote_once_then_rejected calm 40%Z 41%Z "v3" shop_world build3 shop
           "prj_1" "dpl_3").
  - intros tr stmt. reflexivity.
  - reflexivity.
  - reflexivity.
  - reflexivity.
  - discriminate.
  - reflexivity.
  - reflexivity.
  - discriminate.
  - exists 201%Z, "". split; [reflexivity | left; reflexivity].
Defined.

(** C4 at work: the pending build of the shop is refused, nothing
    happens. *)
Lemma C4_promote_preconditions_witness :
  PromoteVersion calm 40 "v4" pending_world
  = (inr (Errorf "cannot promote version with status 'pending', must be 'completed'"),
     pending_world).
Proof.
  destruct (C4_promote_preconditions calm 40%Z "v4" pending_world) as (_ & H & _).
  destruct (H (Version.Build "v4" "a1" 4 "pending" None None None None None 30)
              ltac:(vm_compute; reflexivity)) as (H1 & _).
  apply H1. discriminate.
Defined.

(** C6, as stated, fails: the error [PromoteVersion] returns is not
    the error of the platform call as it is, it carries a prefix. *)
Lemma C6_verbatim_counterexample :
  let platform_error := errorString "vercel promotion failed (status 500): boom" in
  let surfaced :=
    wrapError "failed to promote deployment on Vercel: vercel promotion failed (status 500): boom"
      platform_error in
  fst (VercelService.PromoteDeployment refusing "prj_1" "dpl_3" shop_world)
  = inr platform_error
  ∧ fst (PromoteVersion refusing 40 "v3" shop_world) = inr surfaced
  ∧ surfaced ≠ platform_error
  ∧ Error surfaced ≠ Error platform_error.
Proof. vm_compute. repeat split; discriminate. Qed.

(** C6 at work on the shop and the refusing platform. *)
Lemma C6_platform_errors_witness :
  PromoteVersion refusing 40 "v3" shop_world
  = (inr (wrapError
            "failed to promote deployment on Vercel: vercel promotion failed (status 500): boom"
            (errorString "vercel promotion failed (status 500): boom")),
     emit (PromoteCall "prj_1" "dpl_3") shop_world).
Proof.
  destruct (C6_platform_errors refusing "prj_1" "dpl_3" shop_world) as (_ & _ & _ & H).
  apply (H 40%Z "v3" build3 (errorString "vercel promotion failed (status 500): boom"));
    try reflexivity; discriminate.
Defined.

End PromotionFacts.

(** ** Properties of version numbering *)

Module NumberingFacts.
Import Bytes Errors Store Ops VersionService Scenario.
Import VersionFacts.

Lemma sorted_filter (p : Version.t → bool) (l : list Version.t) :
  StronglySorted number_lt l → StronglySorted number_lt (List.filter p l).
Proof.
  induction 1 as [|v l Hs IH Hv]; simpl; [constructor|].
  destruct (p v); [|exact IH].
  constructor; [exact IH|].
  apply List.Forall_forall. intros u Hu. apply filter_In in Hu as [Hu _].
  rewrite List.Forall_forall in Hv. now apply Hv.
Qed.

Lemma sorted_snoc (l : list Version.t) (v : Version.t) :
  StronglySorted number_lt l →
  (∀ u, In u l → (Version.VersionNumber u < Version.VersionNumber v)%Z) →
  StronglySorted number_lt (l ++ [v]).
Proof.
  induction 1 as [|x l Hs IH Hx]; intros Hlt; simpl.
  - repeat constructor.
  - constructor.
    + apply IH. intros u Hu. apply Hlt. now right.
    + apply Forall_app. split; [exact Hx|].
      constructor; [|constructor]. apply Hlt. now left.
Qed.

Lemma sorted_NoDup (l : list Version.t) :
  StronglySorted number_lt l → NoDup (List.map Version.VersionNumber l).
Proof.
  induction 1 as [|x l Hs IH Hx]; simpl; constructor; [|exact IH].
  rewrite list_elem_of_In. intros Hin. apply in_map_iff in Hin as (u & E & Hu).
  rewrite List.Forall_forall in Hx. specialize (Hx u Hu). unfold number_lt in Hx. lia.
Qed.

(** The greatest number of a list of versions. *)
Lemma max_number_None (vs : list Version.t) : max_number vs = None ↔ vs = [].
Proof.
  destruct vs as [|v r]; [easy|]. simpl.
  destruct (max_number r); split; discriminate.
Qed.

Lemma max_number_Some (vs : list Version.t) (m : Z) :
  max_number vs = Some m →
  (∀ u, In u vs → (Version.VersionNumber u <= m)%Z)
  ∧ ∃ u, In u vs ∧ Version.VersionNumber u = m.
Proof.
  revert m. induction vs as [|v r IH]; intros m; [discriminate|].
  simpl. destruct (max_number r) as [k|] eqn:E.
  - intros [= <-]. destruct (IH k eq_refl) as (Hle & u & Hu & Eu). split.
    + intros x [<-|Hx]; [lia|]. specialize (Hle x Hx). lia.
    + destruct (Z.max_spec (Version.VersionNumber v) k) as [[_ ->]|[_ ->]];
        [exists u | exists v]; auto.
  - intros [= <-]. apply max_number_None in E as ->. split.
    + intros x [<-|[]]. lia.
    + exists v. auto.
Qed.

Lemma versions_of_In (appID : string) (d : DB) (u : Version.t) :
  In u (versions_of appID d) ↔ In u (versions d) ∧ Version.AppID u = appID.
Proof. unfold versions_of. now rewrite filter_In, String.eqb_eq. Qed.

(** Within the range of [int], the next number is one more than the
    greatest, above every number of the application, and 1 when the
    application has no version. *)
Lemma next_number (appID : string) (d : DB) (bound : Z) :
  numbers_below bound d → (1 <= bound < 2 ^ 63)%Z →
  let n := wrap_int (max_version appID d + 1) in
  n = (max_version appID d + 1)%Z
  ∧ (- 2 ^ 63 <= n < bound + 1)%Z
  ∧ (∀ u, In u (versions_of appID d) → (Version.VersionNumber u < n)%Z)
  ∧ (versions_of appID d = [] → n = 1%Z).
Proof.
  intros Hb HB n. subst n. unfold max_version, numbers_below in *.
  rewrite List.Forall_forall in Hb.
  destruct (max_number (versions_of appID d)) as [m|] eqn:E.
  - destruct (max_number_Some _ _ E) as (Hle & u & Hu & <-).
    apply versions_of_In in Hu as [Hu _]. specialize (Hb u Hu).
    assert (W : wrap_int (Version.VersionNumber u + 1)
                = (Version.VersionNumber u + 1)%Z).
    { unfold wrap_int. rewrite Z.mod_small; lia. }
    rewrite W. split; [reflexivity|]. split; [lia|]. split.
    + intros x Hx. specialize (Hle x Hx). lia.
    + intros H. rewrite H in E. discriminate.
  - apply max_number_None in E. rewrite E.
    change (wrap_int (0 + 1)) with 1%Z.
    split; [reflexivity|]. split; [lia|]. split; [intros u []|reflexivity].
Qed.

Section WithEnv.
Variable env : Env.

(** What a creation does to the table. *)
Lemma CreateVersion_db (newID : string) (now : Z) (appID : string) (w : World) :
  let v := Version.Build newID appID (wrap_int (max_version appID (db w) + 1))
             "pending" None None None None None now in
  match fst (CreateVersion env newID now appID w) with
  | inl r =>
      r = v
      ∧ db (snd (CreateVersion env newID now appID w))
        = {| apps := apps (db w); versions := versions (db w) ++ [v];
             users := users (db w) |}
  | inr _ => db (snd (CreateVersion env newID now appID w)) = db w
  end.
Proof.
  unfold CreateVersion, queryMaxVersion, queryInsertVersion. op_unfold.
  destruct (db_fault env (trace w) (SelectMaxVersion appID)); [reflexivity|].
  destruct (db_fault env (trace w) (InsertVersion _)); simpl; auto.
Qed.

Lemma CreateVersion_succeeds (newID : string) (now : Z) (appID : string)
      (w : World) :
  no_faults env → ∃ v, fst (CreateVersion env newID now appID w) = inl v.
Proof.
  intros NF.
  unfold CreateVersion, queryMaxVersion, queryInsertVersion. op_unfold.
  rewrite !NF. simpl. eauto.
Qed.

(** What a deletion does to the table. *)
Lemma DeleteVersion_db (versionID : string) (w : World) :
  ∃ p, db (snd (DeleteVersion env versionID w))
       = {| apps := apps (db w); versions := List.filter p (versions (db w));
            users := users (db w) |}.
Proof.
  unfold DeleteVersion, execDeleteVersions. op_unfold.
  destruct (db_fault env (trace w) (DeleteVersions versionID)).
  - exists (λ _, true). simpl. destruct (db w) as [a vs u]. simpl.
    f_equal. symmetry. apply forallb_filter_id. now apply forallb_forall.
  - exists (λ v, negb (String.eqb (Version.ID v) versionID)).
    simpl. now destruct (_ =? 0)%Z.
Qed.

Lemma step_invariant (op : VersionOp) (w : World) (bound : Z) :
  numbers_increasing (db w) → numbers_below bound (db w) →
  (1 <= bound < 2 ^ 63)%Z →
  numbers_increasing (db (step env op w))
  ∧ numbers_below (bound + 1) (db (step env op w)).
Proof.
  intros Hinc Hb HB. destruct op as [newID now appID|versionID]; simpl.
  - pose proof (CreateVersion_db newID now appID w) as H. cbv zeta in H.
    destruct (next_number appID (db w) bound Hb HB) as (_ & Hr & Hlt & _).
    destruct (fst (CreateVersion env newID now appID w)) as [r|e].
    + destruct H as [_ ->]. split.
      * intros app. unfold versions_of. cbn [versions].
        rewrite List.filter_app. simpl.
        destruct (String.eqb appID app) eqn:E.
        -- apply String.eqb_eq in E as <-.
           apply sorted_snoc; [apply Hinc | exact Hlt].
        -- rewrite app_nil_r. apply Hinc.
      * unfold numbers_below in *. cbn [versions].
        apply Forall_app. split.
        -- eapply List.Forall_impl; [|exact Hb]. simpl. intros; lia.
        -- repeat constructor; simpl; lia.
    + rewrite H. split; [exact Hinc|].
      eapply List.Forall_impl; [|exact Hb]. simpl. intros; lia.
  - destruct (DeleteVersion_db versionID w) as [p ->]. split.
    + intros app. unfold versions_of. cbn [versions].
      specialize (Hinc app). unfold versions_of in Hinc.
      assert (E : ∀ l : list Version.t,
                 List.filter (λ v, String.eqb (Version.AppID v) app) (List.filter p l)
                 = List.filter p
                     (List.filter (λ v, String.eqb (Version.AppID v) app) l)).
      { induction l as [|x l IH]; [reflexivity|]. simpl.
        destruct (p x) eqn:Ep; simpl;
          destruct (String.eqb (Version.AppID x) app); simpl; rewrite ?Ep, IH;
          reflexivity. }
      rewrite E. now apply sorted_filter.
    + unfold numbers_below in *. cbn [versions].
      apply List.Forall_forall. intros u Hu. apply filter_In in Hu as [Hu _].
      rewrite List.Forall_forall in Hb. specialize (Hb u Hu). lia.
Qed.

Lemma run_invariant (ops : list VersionOp) (w : World) (bound : Z) :
  numbers_increasing (db w) → numbers_below bound (db w) →
  (1 <= bound)%Z → (bound + Z.of_nat (length ops) < 2 ^ 63)%Z →
  numbers_increasing (db (run_ops env ops w))
  ∧ numbers_below (bound + Z.of_nat (length ops)) (db (run_ops env ops w)).
Proof.
  revert w bound. induction ops as [|op r IH]; intros w bound Hinc Hb H1 HB.
  - simpl. now rewrite Z.add_0_r.
  - cbn [length] in *. rewrite Nat2Z.inj_succ in *.
    destruct (step_invariant op w bound Hinc Hb) as [Hinc' Hb']; [lia|].
    destruct (IH (step env op w) (bound + 1)%Z Hinc' Hb') as [I B]; [lia|lia|].
    replace (bound + Z.succ (Z.of_nat (length r)))%Z
      with (bound + 1 + Z.of_nat (length r))%Z by lia.
    exact (conj I B).
Qed.

(** C2, amended: start from a store whose versions carry, for every
    application, strictly increasing numbers in the order of their
    creation, all of them within the range of [int] with room for
    the run.  After any run of creations and deletions the numbers
    of the existing versions of every application are still strictly
    increasing in creation order, hence pairwise distinct; and the
    next creation gives the number "greatest existing number plus
    one", which is above the number of every existing version of the
    application and is 1 when it has none.  With a store that
    answers, the creation succeeds.  (Nothing is said of numbers of
    versions that were deleted.) *)
Theorem C2_version_numbers :
  ∀ (ops : list VersionOp) (w : World) (bound : Z),
    numbers_increasing (db w) →
    numbers_below bound (db w) →
    (1 <= bound)%Z →
    (bound + Z.of_nat (length ops) < 2 ^ 63)%Z →
    let w' := run_ops env ops w in
    numbers_increasing (db w')
    ∧ (∀ appID, NoDup (List.map Version.VersionNumber (versions_of appID (db w'))))
    ∧ (∀ newID now appID v,
         fst (CreateVersion env newID now appID w') = inl v →
         Version.AppID v = appID
         ∧ Version.VersionNumber v = (max_version appID (db w') + 1)%Z
         ∧ (∀ u, In u (versions_of appID (db w')) →
                 (Version.VersionNumber u < Version.VersionNumber v)%Z)
         ∧ (versions_of appID (db w') = [] → Version.VersionNumber v = 1%Z))
    ∧ (no_faults env →
       ∀ newID now appID, ∃ v, fst (CreateVersion env newID now appID w') = inl v).
Proof.
  intros ops w bound Hinc Hb H1 HB w'.
  destruct (run_invariant ops w bound Hinc Hb H1 HB) as [I B]. fold w' in I, B.
  split; [exact I|]. split; [|split].
  - intros appID. apply sorted_NoDup, I.
  - intros newID now appID v Hv.
    pose proof (CreateVersion_db newID now appID w') as H. cbv zeta in H.
    rewrite Hv in H. destruct H as [-> _]. cbn [Version.AppID Version.VersionNumber].
    destruct (next_number appID (db w') _ B) as (E & _ & Hlt & Hone); [lia|].
    auto.
  - intros NF newID now appID. now apply CreateVersion_succeeds.
Qed.

End WithEnv.

(** C2, as stated, fails: after the second build of an application is
    deleted, the third creation gives the number 2 again. *)
Lemma C2_number_reused_counterexample :
  assigned_numbers calm "a1" reuse_run empty_world = [1; 2; 2]%Z
  ∧ ¬ NoDup (assigned_numbers calm "a1" reuse_run empty_world).
Proof.
  assert (E : assigned_numbers calm "a1" reuse_run empty_world = [1; 2; 2]%Z)
    by (vm_compute; reflexivity).
  split; [exact E|]. rewrite E. intros H.
  apply NoDup_cons in H as [_ H]. apply NoDup_cons in H as [H _].
  apply H. constructor.
Qed.

(** C2 at work on that run: the numbers that remain are distinct. *)
Lemma C2_version_numbers_witness :
  NoDup (List.map Version.VersionNumber
           (versions_of "a1" (db (run_ops calm reuse_run empty_world)))).
Proof.
  apply (C2_version_numbers calm reuse_run empty_world 1%Z).
  - intros appID. constructor.
  - constructor.
  - reflexivity.
  - reflexivity.
Defined.

End NumberingFacts.

(** ** Properties of application setup *)

Module SetupFacts.
Import Bytes Errors Store Ops Scenario.
Import AppService.

Lemma later_stages_app (l1 l2 : list Event) :
  later_stages (l1 ++ l2) = (later_stages l1 ++ later_stages l2)%list.
Proof. apply List.filter_app. Qed.

Lemma later_stages_before_update (env : Env) (appID description : string) :
  later_stages (events_before_update env appID description) = [].
Proof.
  unfold events_before_update.
  now destruct (GeminiService.ExtractAppConfig env description).
Qed.

Lemma set_config_fields (name dn cat col url : string) (now : Z) (a : App.t) :
  App.ID (set_config name dn cat col url now a) = App.ID a
  ∧ App.Name (set_config name dn cat col url now a) = name
  ∧ App.DisplayName (set_config name dn cat col url now a) = Some dn
  ∧ App.Category (set_config name dn cat col url now a) = Some cat
  ∧ App.ColorScheme (set_config name dn cat col url now a) = Some col
  ∧ App.ProductionURL (set_config name dn cat col url now a) = Some url
  ∧ App.Status (set_config name dn cat col url now a) = App.Status a.
Proof. now destruct a. Qed.

Section WithEnv.
Variable env : Env.
Variable MapToLower : string → string.

Lemma GetOwnerEmail_world (userID : string) (w : World) :
  snd (GetOwnerEmail env userID w) = emit (DBRead (SelectOwnerEmail userID)) w.
Proof.
  unfold GetOwnerEmail, orWrap, db_query.
  destruct (db_fault env (trace w) _); [reflexivity|].
  now destruct (List.find _ (users (db w))).
Qed.

(** The world in which the pipeline sends its update. *)
Lemma pipeline_cases (now : Z) (appID userID description : string) (w : World) :
  let config := resolved_config env description in
  let stmt := config_update MapToLower config now appID in
  let issued := (trace w ++ events_before_update env appID description)%list in
  let w' := extractConfigAndSetupApp env MapToLower now appID userID description w in
  match db_fault env issued stmt with
  | Some err =>
      db w' = db w
      ∧ trace w'
        = (issued ++
           [DBWrite stmt;
            LogLine ("[AI Setup] Failed to update PostgreSQL with AI config: "
                     +:+ Error err)])%list
  | None =>
      apps (db w')
      = List.map (λ a, if String.eqb (App.ID a) appID
                       then set_config (AppConfig.AppName config)
                              (AppConfig.DisplayName config)
                              (AppConfig.Category config)
                              (AppConfig.ColorScheme config)
                              (Utils.GenerateProductionDomain MapToLower
                                 (AppConfig.AppName config) appID) now a
                       else a) (apps (db w))
      ∧ In (DBWrite stmt) (trace w')
      ∧ ∃ ownerEmail,
          later_stages (trace w')
          = (later_stages (trace w) ++
             [RunCommand ["app-manager"; "create"; appID; "--name";
                          AppConfig.AppName config; "--owner-email"; ownerEmail];
              Go (generateAndUploadLogo_task appID (AppConfig.AppName config)
                    (AppConfig.Category config) (AppConfig.ColorScheme config))])%list
  end.
Proof.
  intros config stmt issued w'.
  subst w'. unfold extractConfigAndSetupApp.
  unfold issued, stmt, config, config_update, events_before_update, resolved_config.
  clear issued stmt config.
  destruct (GeminiService.ExtractAppConfig env description) as [cfg|e0];
    unfold execUpdateAppConfig, db_write, log;
    cbn [emit trace db with_db];
    rewrite <- !app_assoc; cbn [app];
    match goal with |- context [db_fault env ?tr ?st] =>
      destruct (db_fault env tr st) as [err|] end.
  all: cbn [emit trace db with_db apps].
  1, 3: split; [reflexivity|]; rewrite <- !app_assoc; reflexivity.
  all: match goal with |- context [GetOwnerEmail env ?u ?w0] =>
         pose proof (GetOwnerEmail_world u w0) as Hp;
         destruct (GetOwnerEmail env u w0) as [[mail|e1] w2];
         simpl in Hp; subst w2 end.
  all: match goal with |- context [run_command env ?tr ?argv] =>
         destruct (run_command env tr argv) as [[e2|] stderr] end.
  all: cbn [emit trace db with_db apps log].
  all: split; [reflexivity|].
  all: split; [rewrite !in_app_iff; simpl; tauto|].
  all: eexists; rewrite !later_stages_app; cbn [later_stages List.filter];
    rewrite ?app_nil_r, <- ?app_assoc; reflexivity.
Qed.

Lemma reads_sent_app (l1 l2 : list Event) :
  reads_sent (l1 ++ l2) = (reads_sent l1 ++ reads_sent l2)%list.
Proof. apply flat_map_app. Qed.

Lemma reads_before_update (appID description : string) :
  reads_sent (events_before_update env appID description) = [].
Proof.
  unfold events_before_update.
  now destruct (GeminiService.ExtractAppConfig env description).
Qed.

(** The pipeline reads the address of the owner exactly when the
    store has taken its update. *)
Lemma pipeline_reads (now : Z) (appID userID description : string) (w : World) :
  let config := resolved_config env description in
  let stmt := config_update MapToLower config now appID in
  let issued := (trace w ++ events_before_update env appID description)%list in
  let w' := extractConfigAndSetupApp env MapToLower now appID userID description w in
  reads_sent (trace w')
  = (reads_sent (trace w)
     ++ match db_fault env issued stmt with
        | Some _ => []
        | None => [SelectOwnerEmail userID]
        end)%list.
Proof.
  intros config stmt issued w'.
  subst w'. unfold extractConfigAndSetupApp.
  unfold issued, stmt, config, config_update, events_before_update, resolved_config.
  clear issued stmt config.
  destruct (GeminiService.ExtractAppConfig env description) as [cfg|e0];
    unfold execUpdateAppConfig, db_write, log;
    cbn [emit trace db with_db];
    rewrite <- !app_assoc; cbn [app];
    match goal with |- context [db_fault env ?tr ?st] =>
      destruct (db_fault env tr st) as [err|] end.
  all: cbn [emit trace db with_db apps].
  1, 3: rewrite !reads_sent_app; cbn [reads_sent flat_map app];
    now rewrite ?app_nil_r.
  all: match goal with |- context [GetOwnerEmail env ?u ?w0] =>
         pose proof (GetOwnerEmail_world u w0) as Hp;
         destruct (GetOwnerEmail env u w0) as [[mail|e1] w2];
         simpl in Hp; subst w2 end.
  all: match goal with |- context [run_command env ?tr ?argv] =>
         destruct (run_command env tr argv) as [[e2|] stderr] end.
  all: cbn [emit trace db with_db apps log].
  all: rewrite !reads_sent_app; cbn [reads_sent flat_map app];
    now rewrite ?app_nil_r.
Qed.

(** C3, amended: when the store fails the update that writes the
    resolved name, display name, category, color and host name, the
    pipeline logs the failure and ends there: the store is as it
    was, the update and the log line are its last effects, no
    statement reads the store, and no sub-process and no goroutine is
    started, so that neither the owner's address is resolved, nor the
    registry synchronised, nor the logo generated. *)
Theorem C3_update_failure_ends_pipeline :
  ∀ (now : Z) (appID userID description : string) (w : World) (err : error),
    let config := resolved_config env description in
    let stmt := config_update MapToLower config now appID in
    let issued := (trace w ++ events_before_update env appID description)%list in
    db_fault env issued stmt = Some err →
    let w' := extractConfigAndSetupApp env MapToLower now appID userID description w in
    db w' = db w
    ∧ trace w'
      = (issued ++
         [DBWrite stmt;
          LogLine ("[AI Setup] Failed to update PostgreSQL with AI config: "
                   +:+ Error err)])%list
    ∧ later_stages (trace w') = later_stages (trace w)
    ∧ reads_sent (trace w') = reads_sent (trace w).
Proof.
  intros now appID userID description w err config stmt issued Hf w'.
  pose proof (pipeline_cases now appID userID description w) as H.
  pose proof (pipeline_reads now appID userID description w) as Hr.
  cbv zeta in H, Hr. fold config stmt issued w' in H, Hr. rewrite Hf in H, Hr.
  destruct H as [Hdb Htr]. split; [exact Hdb|]. split; [exact Htr|].
  split; [|now rewrite Hr, app_nil_r].
  rewrite Htr. unfold issued.
  rewrite !later_stages_app, later_stages_before_update. simpl.
  now rewrite !app_nil_r.
Qed.

Lemma domain_not_empty (name identifier : string) :
  Utils.GenerateProductionDomain MapToLower name identifier ≠ "".
Proof.
  unfold Utils.GenerateProductionDomain.
  destruct (if String.eqb _ "" then "app" else _); discriminate.
Qed.

Lemma ExtractAppConfig_status (description : string) (StatusCode : Z)
      (body : string) :
  gemini_post env description = inr (StatusCode, body) →
  StatusCode ≠ 200%Z →
  GeminiService.ExtractAppConfig env description
  = inr (Errorf ("Gemini API error (status " +:+ itoa StatusCode +:+ "): " +:+ body)).
Proof.
  intros E Hs. unfold GeminiService.ExtractAppConfig. rewrite E.
  apply Z.eqb_neq in Hs. now rewrite Hs.
Qed.

(** C5: extraction never stands in the way of a creation.
    [CreateApp] consults the environment for its store alone, so
    that its outcome is the same whatever the extraction would give;
    when the store takes the insert it returns, and stores, the
    record with the placeholders "MyApp", "My App", "other", "blue",
    a production host name that is not empty and the status
    "building", and starts the setup in a goroutine.  An answer of
    the endpoint other than 200 is an extraction error, and on every
    extraction error the setup works with the fixed configuration
    ("MyApp", "My App", auth required, signup allowed, "other",
    ["app"], "blue") and goes on: it sends the update with these
    values and, once the store has taken it, names the application
    "MyApp", runs the registry command and starts the logo
    generation with them. *)
Theorem C5_extraction_never_fatal :
  ∀ (newID : string) (now : Z) (userID : string) (req : CreateAppRequest)
    (w : World),
    (∀ env', db_fault env' = db_fault env →
             CreateApp env' MapToLower newID now userID req w
             = CreateApp env MapToLower newID now userID req w)
    ∧ ((∀ a, db_fault env (trace w) (InsertApp a) = None) →
       ∃ app w',
         CreateApp env MapToLower newID now userID req w = (inl app, w')
         ∧ App.ID app = newID
         ∧ App.Name app = "MyApp"
         ∧ App.DisplayName app = Some "My App"
         ∧ App.Category app = Some "other"
         ∧ App.ColorScheme app = Some "blue"
         ∧ App.Status app = "building"
         ∧ (∃ url, App.ProductionURL app = Some url ∧ url ≠ "")
         ∧ In app (apps (db w'))
         ∧ later_stages (trace w')
           = (later_stages (trace w)
              ++ [Go (extractConfigAndSetupApp_task newID userID (Description req))])%list)
    ∧ (∀ StatusCode body,
         gemini_post env (Description req) = inr (StatusCode, body) →
         StatusCode ≠ 200%Z →
         ∃ err, GeminiService.ExtractAppConfig env (Description req) = inr err)
    ∧ (∀ err,
         GeminiService.ExtractAppConfig env (Description req) = inr err →
         resolved_config env (Description req)
         = AppConfig.Build "MyApp" "My App" true true "other" ["app"] "blue"
         ∧ ∀ now' w0,
             let stmt :=
               UpdateAppConfig "MyApp" "My App" "other" "blue"
                 (Utils.GenerateProductionDomain MapToLower "MyApp" newID)
                 now' newID in
             let w1 := extractConfigAndSetupApp env MapToLower now' newID userID
                         (Description req) w0 in
             In (DBWrite stmt) (trace w1)
             ∧ (db_fault env
                  (trace w0 ++ events_before_update env newID (Description req))
                  stmt = None →
                (∀ a, In a (apps (db w1)) → App.ID a = newID → App.Name a = "MyApp")
                ∧ ∃ ownerEmail,
                    later_stages (trace w1)
                    = (later_stages (trace w0) ++
                       [RunCommand ["app-manager"; "create"; newID; "--name"; "MyApp";
                                    "--owner-email"; ownerEmail];
                        Go (generateAndUploadLogo_task newID "MyApp" "other" "blue")])%list)).
Proof.
  intros newID now userID req w. split; [|split; [|split]].
  - intros env' E. unfold CreateApp, queryInsertApp, spawn.
    unfold mbind, Op_bind, mret, Op_ret, orWrap, db_write. now rewrite E.
  - intros Hok. unfold CreateApp, queryInsertApp, spawn.
    unfold mbind, Op_bind, mret, Op_ret, orWrap, db_write. rewrite Hok.
    eexists _, _. split; [reflexivity|]. cbn.
    repeat (split; [reflexivity|]).
    split; [eexists; split; [reflexivity | apply domain_not_empty]|].
    split; [apply in_app_iff; right; now left|].
    unfold later_stages. rewrite !List.filter_app. simpl.
    rewrite app_nil_r. reflexivity.
  - intros StatusCode body E Hs. eexists.
    exact (ExtractAppConfig_status _ _ _ E Hs).
  - intros err E. unfold resolved_config at 1. rewrite E.
    split; [reflexivity|]. intros now' w0.
    set (stmt := UpdateAppConfig _ _ _ _ _ _ _).
    set (w1 := extractConfigAndSetupApp _ _ _ _ _ _ _).
    pose proof (pipeline_cases now' newID userID (Description req) w0) as H.
    cbv zeta in H. fold w1 in H.
    unfold resolved_config, config_update in H. rewrite E in H.
    cbn [AppConfig.AppName AppConfig.DisplayName AppConfig.Category
         AppConfig.ColorScheme defaultConfig] in H.
    fold stmt in H.
    destruct (db_fault env _ stmt) as [e|].
    + destruct H as [_ ->]. split; [|discriminate].
      apply in_app_iff. right. now left.
    + destruct H as (Happs & Hin & Hlater). split; [exact Hin|].
      intros _. split; [|exact Hlater].
      intros a Ha Hid. rewrite Happs in Ha.
      apply in_map_iff in Ha as (a0 & <- & _).
      destruct (String.eqb (App.ID a0) newID) eqn:Ei.
      * apply set_config_fields.
      * apply String.eqb_neq in Ei. contradiction.
Qed.

End WithEnv.

(** C3, as stated, fails: with a store that refuses the update, the
    pipeline stops after logging the failure; no registry command is
    run and no logo generation is started. *)
Lemma C3_update_failure_counterexample :
  let w' := extractConfigAndSetupApp env_update_fails (λ s, s) 50 "a1" "u1" "a shop"
              shop_world in
  later_stages (trace w') = []
  ∧ trace w'
    = [LogLine "[AI Setup] Starting async config extraction for app a1";
       LogLine "[AI Setup] Warning: Failed to extract config with Gemini, using defaults: Gemini API error (status 500): ";
       LogLine "[AI Setup] Extracted config for app a1: name=MyApp, category=other, color=blue";
       DBWrite (UpdateAppConfig "MyApp" "My App" "other" "blue"
                  "myapp-a1.rapidbuild.app" 50 "a1");
       LogLine "[AI Setup] Failed to update PostgreSQL with AI config: connection refused"].
Proof. vm_compute. auto. Qed.

(** C3 at work on the same run. *)
Lemma C3_update_failure_ends_pipeline_witness :
  let w' := extractConfigAndSetupApp env_update_fails (λ s, s) 50 "a1" "u1" "a shop"
              shop_world in
  db w' = db shop_world
  ∧ later_stages (trace w') = later_stages (trace shop_world)
  ∧ reads_sent (trace w') = reads_sent (trace shop_world).
Proof.
  destruct (C3_update_failure_ends_pipeline env_update_fails (λ s, s) 50%Z "a1" "u1"
              "a shop" shop_world (errorString "connection refused") eq_refl)
    as (Hdb & _ & Hlater & Hreads).
  exact (conj Hdb (conj Hlater Hreads)).
Defined.

(** C5 at work: a creation in the calm world, whose endpoint answers
    500. *)
Lemma C5_extraction_never_fatal_witness :
  ∃ app w',
    CreateApp calm (λ s, s) "2028362b-a14a-43ac-87d8-0e26c7401623" 60 "u1"
      {| Description := "a shop" |} shop_world = (inl app, w')
    ∧ App.Name app = "MyApp"
    ∧ App.Status app = "building"
    ∧ App.ProductionURL app = Some "myapp-401623.rapidbuild.app".
Proof.
  destruct (C5_extraction_never_fatal calm (λ s, s)
              "2028362b-a14a-43ac-87d8-0e26c7401623" 60%Z "u1"
              {| Description := "a shop" |} shop_world) as (_ & H & _).
  destruct (H (λ _, eq_refl)) as (app & w' & E & _ & Hn & _ & _ & _ & Hs & _).
  exists app, w'. split; [exact E|]. split; [exact Hn|]. split; [exact Hs|].
  injection E as <- _. reflexivity.
Defined.

End SetupFacts.

(** ** Further properties of the Domain Namer *)

Module SlugFacts.
Import Bytes Utils NamerSpec Shapes.
Import UtilsFacts.

Lemma all_bytes_strip (s : string) : all_bytes slug_byte (strip_invalid s) = true.
Proof.
  induction s as [|c r IH]; [reflexivity|]. simpl.
  destruct (slug_byte c) eqn:E; [|exact IH]. simpl. now rewrite E.
Qed.

Lemma all_bytes_collapse (p : ascii → bool) (s : string) :
  all_bytes p s = true → all_bytes p (collapse_hyphens s) = true.
Proof.
  induction s as [|c r IH]; [reflexivity|]. cbn [all_bytes collapse_hyphens].
  intros H. apply andb_prop in H as [Hc Hr]. specialize (IH Hr).
  destruct (is_hyphen c).
  - destruct r as [|c' r']; [simpl; now rewrite Hc|].
    destruct (is_hyphen c'); [exact IH|]. cbn [all_bytes]. now rewrite Hc, IH.
  - cbn [all_bytes]. now rewrite Hc, IH.
Qed.

Lemma all_bytes_drop_leading (p : ascii → bool) (s : string) :
  all_bytes p s = true → all_bytes p (drop_leading s) = true.
Proof.
  induction s as [|c r IH]; [reflexivity|]. cbn [drop_leading]. intros H.
  destruct (is_hyphen c); [|exact H].
  apply IH. cbn [all_bytes] in H. now apply andb_prop in H as [_ H].
Qed.

Lemma all_bytes_drop_trailing (p : ascii → bool) (s : string) :
  all_bytes p s = true → all_bytes p (drop_trailing s) = true.
Proof.
  induction s as [|c r IH]; [reflexivity|]. cbn [drop_trailing]. intros H.
  destruct (all_bytes is_hyphen (String c r)); [reflexivity|].
  cbn [all_bytes] in *. apply andb_prop in H as [Hc Hr]. now rewrite Hc, IH.
Qed.

Lemma drop_leading_starts (s : string) : starts_hyphen (drop_leading s) = false.
Proof.
  induction s as [|c r IH]; [reflexivity|]. cbn [drop_leading].
  destruct (is_hyphen c) eqn:E; [exact IH | exact E].
Qed.

Lemma drop_trailing_starts (s : string) :
  starts_hyphen s = false → starts_hyphen (drop_trailing s) = false.
Proof.
  destruct s as [|c r]; [reflexivity|]. cbn [drop_trailing].
  now destruct (all_bytes is_hyphen (String c r)).
Qed.

Lemma drop_trailing_empty (s : string) :
  drop_trailing s = "" ↔ all_bytes is_hyphen s = true.
Proof.
  destruct s as [|c r]; [easy|]. cbn [drop_trailing].
  destruct (all_bytes is_hyphen (String c r)); split; congruence.
Qed.

Lemma drop_trailing_ends (s : string) : ends_hyphen (drop_trailing s) = false.
Proof.
  induction s as [|c r IH]; [reflexivity|]. cbn [drop_trailing].
  destruct (all_bytes is_hyphen (String c r)) eqn:E; [reflexivity|].
  cbn [ends_hyphen]. destruct (drop_trailing r) as [|c' r'] eqn:Er; [|exact IH].
  apply drop_trailing_empty in Er. cbn [all_bytes] in E. rewrite Er, andb_true_r in E.
  exact E.
Qed.

Lemma no_double_collapse (s : string) : no_double_hyphen (collapse_hyphens s) = true.
Proof.
  induction s as [|c r IH]; [reflexivity|]. cbn [collapse_hyphens].
  destruct (is_hyphen c) eqn:E.
  - destruct r as [|c' r']; [simpl; now rewrite E|].
    destruct (is_hyphen c') eqn:E'; [exact IH|].
    cbn [no_double_hyphen]. rewrite IH, collapse_starts. cbn [starts_hyphen].
    now rewrite E, E'.
  - cbn [no_double_hyphen]. now rewrite IH, E.
Qed.

Lemma no_double_drop_leading (s : string) :
  no_double_hyphen s = true → no_double_hyphen (drop_leading s) = true.
Proof.
  induction s as [|c r IH]; [reflexivity|]. cbn [drop_leading]. intros H.
  destruct (is_hyphen c); [|exact H].
  apply IH. cbn [no_double_hyphen] in H. now apply andb_prop in H as [_ H].
Qed.

Lemma drop_trailing_starts_le (s : string) :
  starts_hyphen (drop_trailing s) = true → starts_hyphen s = true.
Proof.
  destruct s as [|c r]; [easy|]. cbn [drop_trailing].
  now destruct (all_bytes is_hyphen (String c r)).
Qed.

Lemma no_double_drop_trailing (s : string) :
  no_double_hyphen s = true → no_double_hyphen (drop_trailing s) = true.
Proof.
  induction s as [|c r IH]; [reflexivity|]. cbn [drop_trailing]. intros H.
  destruct (all_bytes is_hyphen (String c r)); [reflexivity|].
  cbn [no_double_hyphen] in *. apply andb_prop in H as [Hc Hr]. rewrite (IH Hr), andb_true_r.
  destruct (is_hyphen c); [|reflexivity]. cbn [andb negb] in *.
  destruct (starts_hyphen (drop_trailing r)) eqn:E; [|reflexivity].
  apply drop_trailing_starts_le in E. now rewrite E in Hc.
Qed.

Lemma slug_shape (M : string → string) (text : string) :
  well_formed_slug (Slugify M text).
Proof.
  rewrite slugify_spec. unfold slug_of, trim_hyphens, well_formed_slug.
  set (x := collapse_hyphens _).
  assert (Hx : all_bytes slug_byte x = true)
    by (apply all_bytes_collapse, all_bytes_strip).
  assert (Hd : no_double_hyphen x = true) by apply no_double_collapse.
  split; [now apply all_bytes_drop_trailing, all_bytes_drop_leading|].
  split; [apply drop_trailing_starts, drop_leading_starts|].
  split; [apply drop_trailing_ends|].
  now apply no_double_drop_trailing, no_double_drop_leading.
Qed.

(** X1: whatever the text, [Slugify] returns a well-formed slug: bytes
    of [a-z0-9-] only, no hyphen at either end, no two hyphens in a
    row. *)
Theorem Slugify_well_formed :
  ∀ (MapToLower : string → string) (text : string),
    well_formed_slug (Slugify MapToLower text).
Proof.
  intros MapToLower text. rewrite slugify_spec.
  unfold slug_of, trim_hyphens, well_formed_slug.
  split; [|split; [|split]].
  - apply all_bytes_drop_trailing, all_bytes_drop_leading, all_bytes_collapse,
      all_bytes_strip.
  - apply drop_trailing_starts, drop_leading_starts.
  - apply drop_trailing_ends.
  - apply no_double_drop_trailing, no_double_drop_leading, no_double_collapse.
Qed.

Lemma slug_byte_ascii (c : ascii) : slug_byte c = true → is_ascii_byte c = true.
Proof.
  destruct c as [[] [] [] [] [] [] [] []]; vm_compute; congruence.
Qed.

Lemma slug_byte_lower (c : ascii) : slug_byte c = true → lower_byte c = c.
Proof.
  destruct c as [[] [] [] [] [] [] [] []]; vm_compute; congruence.
Qed.

Lemma slug_byte_not_space (c : ascii) : slug_byte c = true → Ascii.eqb c " " = false.
Proof.
  destruct c as [[] [] [] [] [] [] [] []]; vm_compute; congruence.
Qed.

Lemma ToLower_slug (M : string → string) (s : string) :
  all_bytes slug_byte s = true → ToLower M s = s.
Proof.
  intros H. unfold ToLower.
  assert (Ha : all_bytes is_ascii_byte s = true).
  { induction s as [|c r IH]; [reflexivity|]. cbn [all_bytes] in *.
    apply andb_prop in H as [Hc Hr]. now rewrite (slug_byte_ascii c Hc), IH. }
  rewrite Ha. induction s as [|c r IH]; [reflexivity|]. cbn [all_bytes map_bytes] in *.
  apply andb_prop in H as [Hc Hr]. apply andb_prop in Ha as [_ Ha].
  now rewrite (slug_byte_lower c Hc), IH.
Qed.

Lemma ReplaceAll_no_space (s : string) :
  all_bytes slug_byte s = true → ReplaceAll s " " "-" = s.
Proof.
  induction s as [|c r IH]; [reflexivity|]. cbn [all_bytes ReplaceAll].
  intros H. apply andb_prop in H as [Hc Hr].
  now rewrite (slug_byte_not_space c Hc), IH.
Qed.

Lemma strip_invalid_slug (s : string) :
  all_bytes slug_byte s = true → strip_invalid s = s.
Proof.
  induction s as [|c r IH]; [reflexivity|]. cbn [all_bytes strip_invalid].
  intros H. apply andb_prop in H as [Hc Hr]. now rewrite Hc, IH.
Qed.

Lemma collapse_no_double (s : string) :
  no_double_hyphen s = true → collapse_hyphens s = s.
Proof.
  induction s as [|c r IH]; [reflexivity|]. cbn [no_double_hyphen collapse_hyphens].
  intros H. apply andb_prop in H as [Hc Hr]. rewrite (IH Hr).
  destruct (is_hyphen c); [|reflexivity].
  destruct r as [|c' r']; [reflexivity|].
  cbn [starts_hyphen andb negb] in Hc. destruct (is_hyphen c'); [discriminate|reflexivity].
Qed.

Lemma drop_leading_id (s : string) : starts_hyphen s = false → drop_leading s = s.
Proof. destruct s as [|c r]; [reflexivity|]. simpl. now intros ->. Qed.

Lemma drop_trailing_id (s : string) : ends_hyphen s = false → drop_trailing s = s.
Proof.
  induction s as [|c r IH]; [reflexivity|]. intros H. cbn [drop_trailing].
  destruct r as [|c' r'].
  - cbn in *. now rewrite H.
  - cbn [ends_hyphen] in H. rewrite (IH H).
    destruct (all_bytes is_hyphen (String c (String c' r'))) eqn:E; [|reflexivity].
    cbn [all_bytes] in E. apply andb_prop in E as [_ E].
    change (all_bytes is_hyphen (String c' r') = true) in E.
    apply drop_trailing_empty in E. rewrite IH in E by exact H. discriminate.
Qed.

(** X2: [Slugify] is idempotent: a slug is its own slug. *)
Theorem Slugify_idempotent :
  ∀ (MapToLower : string → string) (text : string),
    Slugify MapToLower (Slugify MapToLower text) = Slugify MapToLower text.
Proof.
  intros M text.
  destruct (slug_shape M text) as (Hb & Hs & He & Hd).
  set (s := Slugify M text) in *.
  rewrite slugify_spec. unfold slug_of, ReplaceAllString, trim_hyphens.
  rewrite (ToLower_slug M s Hb).
  destruct (spaces_each_or_runs s) as [<- _].
  rewrite (ReplaceAll_no_space s Hb), (strip_invalid_slug s Hb).
  rewrite (collapse_no_double s Hd), (drop_leading_id s Hs).
  now apply drop_trailing_id.
Qed.

Lemma all_bytes_append (p : ascii → bool) (s t : string) :
  all_bytes p (s +:+ t) = all_bytes p s && all_bytes p t.
Proof.
  induction s as [|c r IH]; [reflexivity|].
  rewrite append_cons. cbn [all_bytes]. now rewrite IH, andb_assoc.
Qed.

Lemma all_bytes_impl (p q : ascii → bool) (s : string) :
  (∀ c, p c = true → q c = true) → all_bytes p s = true → all_bytes q s = true.
Proof.
  intros Hpq. induction s as [|c r IH]; [reflexivity|]. cbn [all_bytes].
  intros H. apply andb_prop in H as [Hc Hr]. now rewrite (Hpq c Hc), IH.
Qed.

Lemma all_bytes_last_chars (p : ascii → bool) (n : nat) (s : string) :
  all_bytes p s = true → all_bytes p (last_chars n s) = true.
Proof.
  induction s as [|c r IH]; [reflexivity|]. cbn [last_chars]. intros H.
  destruct (String.length (String c r) <=? n)%nat; [exact H|].
  apply IH. cbn [all_bytes] in H. now apply andb_prop in H as [_ H].
Qed.

Lemma length_last_chars (n : nat) (s : string) :
  String.length (last_chars n s) = Nat.min n (String.length s).
Proof.
  induction s as [|c r IH]; [now rewrite Nat.min_0_r|]. cbn [last_chars].
  destruct (String.length (String c r) <=? n)%nat eqn:E.
  - apply Nat.leb_le in E. lia.
  - apply Nat.leb_gt in E. rewrite IH. cbn [String.length] in *. lia.
Qed.

Lemma strip_hyphens_bytes (p : ascii → bool) (s : string) :
  all_bytes p s = true →
  all_bytes (λ c, p c && negb (is_hyphen c)) (strip_hyphens s) = true.
Proof.
  induction s as [|c r IH]; [reflexivity|]. cbn [all_bytes strip_hyphens].
  intros H. apply andb_prop in H as [Hc Hr]. specialize (IH Hr).
  destruct (is_hyphen c) eqn:E; [exact IH|]. cbn [all_bytes]. now rewrite Hc, E, IH.
Qed.

(** The slug of the domain and its suffix. *)
Lemma domain_parts (M : string → string) (name identifier : string) :
  let slug := if String.eqb (Slugify M name) "" then "app" else Slugify M name in
  let suffix := last_chars 6 (strip_hyphens identifier) in
  GenerateProductionDomain M name identifier
  = slug +:+ "-" +:+ suffix +:+ ".rapidbuild.app"
  ∧ well_formed_slug slug ∧ slug ≠ "".
Proof.
  intros slug suffix. split; [|split].
  - unfold GenerateProductionDomain. fold slug.
    now rewrite replace_hyphens_strip, suffix_spec.
  - subst slug. destruct (String.eqb (Slugify M name) "");
      [now vm_compute | apply slug_shape].
  - subst slug. destruct (String.eqb (Slugify M name) "") eqn:E; [discriminate|].
    now apply String.eqb_neq.
Qed.

(** X3: the production domain is a non-empty well-formed slug, a
    hyphen, a suffix and ".rapidbuild.app"; the suffix holds the last
    six bytes of the identifier that are not hyphens (all of them when
    there are fewer), so it has at most six bytes and no hyphen. *)
Theorem GenerateProductionDomain_shape :
  ∀ (MapToLower : string → string) (name identifier : string),
    ∃ slug suffix,
      GenerateProductionDomain MapToLower name identifier
      = slug +:+ "-" +:+ suffix +:+ ".rapidbuild.app"
      ∧ well_formed_slug slug ∧ slug ≠ ""
      ∧ suffix = last_chars 6 (strip_hyphens identifier)
      ∧ String.length suffix = Nat.min 6 (String.length (strip_hyphens identifier))
      ∧ all_bytes (λ c, negb (is_hyphen c)) suffix = true.
Proof.
  intros M name identifier.
  destruct (domain_parts M name identifier) as (E & Hw & Hne).
  eexists _, _. split; [exact E|]. split; [exact Hw|]. split; [exact Hne|].
  split; [reflexivity|]. split; [apply length_last_chars|].
  apply all_bytes_last_chars.
  apply (all_bytes_impl (λ c, true && negb (is_hyphen c))); [now intros c|].
  apply (strip_hyphens_bytes (λ _, true)).
  clear. induction identifier as [|c r IH]; [reflexivity | exact IH].
Qed.

Lemma slug_byte_hostname (c : ascii) : slug_byte c = true → hostname_byte c = true.
Proof. unfold slug_byte, hostname_byte. intros ->. reflexivity. Qed.

(** X4: when the identifier holds only lowercase letters, digits,
    hyphens and dots (a UUID does), the production domain is a valid
    host name: it is not empty, holds only lowercase letters, digits,
    hyphens and dots, and does not start with a hyphen. *)
Theorem GenerateProductionDomain_valid :
  ∀ (MapToLower : string → string) (name identifier : string),
    all_bytes hostname_byte identifier = true →
    let domain := GenerateProductionDomain MapToLower name identifier in
    domain ≠ ""
    ∧ all_bytes hostname_byte domain = true
    ∧ starts_hyphen domain = false.
Proof.
  intros M name identifier Hid domain.
  destruct (domain_parts M name identifier) as (E & (Hb & Hs & _) & Hne).
  fold domain in E. rewrite E. clear E domain.
  set (slug := if String.eqb _ "" then _ else _) in *.
  split; [|split].
  - destruct slug; [congruence | discriminate].
  - rewrite !all_bytes_append.
    rewrite (all_bytes_impl _ _ slug slug_byte_hostname Hb).
    rewrite (all_bytes_last_chars hostname_byte 6).
    + reflexivity.
    + apply (all_bytes_impl (λ c, hostname_byte c && negb (is_hyphen c)));
        [intros c H; now apply andb_prop in H as [H _]|].
      now apply strip_hyphens_bytes.
  - destruct slug as [|c r]; [congruence | exact Hs].
Qed.

(** X4 on the identifier of the scenario and a name of symbols only. *)
Lemma GenerateProductionDomain_valid_witness :
  let domain := GenerateProductionDomain (λ s, s) "!!!"
                  "2028362b-a14a-43ac-87d8-0e26c7401623" in
  domain ≠ "" ∧ all_bytes hostname_byte domain = true ∧ starts_hyphen domain = false.
Proof.
  apply (GenerateProductionDomain_valid (λ s, s) "!!!"
           "2028362b-a14a-43ac-87d8-0e26c7401623").
  reflexivity.
Defined.

Lemma drop_leading_all_hyphens (s : string) :
  all_bytes is_hyphen (drop_leading s) = all_bytes is_hyphen s.
Proof.
  induction s as [|c r IH]; [reflexivity|]. cbn [drop_leading all_bytes].
  destruct (is_hyphen c) eqn:E; [exact IH|]. cbn [all_bytes]. now rewrite E.
Qed.

Lemma collapse_all_hyphens (s : string) :
  all_bytes is_hyphen (collapse_hyphens s) = all_bytes is_hyphen s.
Proof.
  induction s as [|c r IH]; [reflexivity|]. cbn [collapse_hyphens].
  destruct (is_hyphen c) eqn:E.
  - destruct r as [|c' r']; [reflexivity|].
    destruct (is_hyphen c') eqn:E'.
    + rewrite IH. cbn [all_bytes]. now rewrite E.
    + cbn [all_bytes] in *. now rewrite E, IH.
  - cbn [all_bytes]. now rewrite E.
Qed.

Lemma alnum_not_hyphen (c : ascii) : alnum_byte c = true → is_hyphen c = false.
Proof.
  destruct c as [[] [] [] [] [] [] [] []]; vm_compute; congruence.
Qed.

Lemma hyphenated_all_hyphens (s : string) :
  all_bytes is_hyphen (strip_invalid (ReplaceAll s " " "-"))
  = all_bytes (λ c, negb (alnum_byte c)) s.
Proof.
  induction s as [|c r IH]; [reflexivity|]. cbn [ReplaceAll all_bytes].
  destruct (Ascii.eqb c " ") eqn:E.
  - apply Ascii.eqb_eq in E as ->. rewrite append_cons, append_nil_l.
    cbn [strip_invalid]. change (slug_byte "-") with true. cbv iota.
    cbn [all_bytes]. now rewrite IH.
  - cbn [strip_invalid].
    change (slug_byte c) with (alnum_byte c || is_hyphen c).
    destruct (alnum_byte c) eqn:Ea; cbn [orb negb andb].
    + cbn [all_bytes]. now rewrite (alnum_not_hyphen c Ea).
    + destruct (is_hyphen c) eqn:Eh; [|exact IH].
      cbn [all_bytes]. now rewrite Eh, IH.
Qed.

(** X5: [Slugify] returns the empty string exactly when the lowered
    text holds no lowercase letter and no digit; these are the names
    for which the production domain starts with the fallback "app". *)
Theorem Slugify_empty_iff :
  ∀ (MapToLower : string → string) (text : string),
    Slugify MapToLower text = ""
    ↔ all_bytes (λ c, negb (alnum_byte c)) (ToLower MapToLower text) = true.
Proof.
  intros M text. rewrite slugify_spec. unfold slug_of, ReplaceAllString, trim_hyphens.
  rewrite drop_trailing_empty, drop_leading_all_hyphens.
  destruct (spaces_each_or_runs (ToLower M text)) as [<- _].
  now rewrite collapse_all_hyphens, hyphenated_all_hyphens.
Qed.

End SlugFacts.

(** ** Further properties of the version service *)

Module VersionMoreFacts.
Import Bytes Errors Store Ops VersionService Scenario Frames Scenario2.
Import VersionFacts PromotionFacts.

Lemma find_app_snoc_versions (appID : string) (d : DB) (vs : list Version.t) :
  find_app appID {| apps := apps d; versions := vs; users := users d |}
  = find_app appID d.
Proof. reflexivity. Qed.

Lemma find_snoc {A : Type} (p : A → bool) (l : list A) (x : A) :
  List.find p (l ++ [x])
  = match List.find p l with
    | Some y => Some y
    | None => if p x then Some x else None
    end.
Proof.
  induction l as [|y r IH]; simpl; [reflexivity|].
  destruct (p y); [reflexivity | exact IH].
Qed.

Section WithEnv.
Variable env : Env.

Lemma CreateVersion_no_faults (newID : string) (now : Z) (appID : string) (w : World) :
  no_faults env →
  let v := Version.Build newID appID (wrap_int (max_version appID (db w) + 1))
             "pending" None None None None None now in
  CreateVersion env newID now appID w
  = (inl v,
     with_db {| apps := apps (db w); versions := versions (db w) ++ [v];
                users := users (db w) |}
       (emit (DBWrite (InsertVersion v)) w)).
Proof.
  intros NF v. unfold CreateVersion, queryMaxVersion, queryInsertVersion. op_unfold.
  now rewrite !NF.
Qed.

(** X6: a created version can be read back.  With a store that
    answers and an identifier no stored version carries,
    [CreateVersion] returns a version that is "pending", has no code
    path, URL, deployment, log or error message yet, and is what
    [GetVersion] returns for that identifier afterwards; every other
    identifier reads as before. *)
Theorem CreateVersion_then_GetVersion :
  ∀ (newID : string) (now : Z) (appID : string) (w : World),
    no_faults env →
    find_version newID (db w) = None →
    ∃ v w',
      CreateVersion env newID now appID w = (inl v, w')
      ∧ GetVersion env newID w' = (inl v, w')
      ∧ v = Version.Build newID appID (Version.VersionNumber v) "pending"
              None None None None None now
      ∧ ∀ versionID, versionID ≠ newID →
          find_version versionID (db w') = find_version versionID (db w).
Proof.
  intros newID now appID w NF Hfresh.
  rewrite (CreateVersion_no_faults newID now appID w NF).
  eexists _, _. split; [reflexivity|]. split; [|split; [reflexivity|]].
  - apply GetVersion_found; [apply NF|].
    unfold find_version in *. cbn [db with_db versions].
    rewrite find_snoc, Hfresh. cbn [Version.ID]. now rewrite String.eqb_refl.
  - intros versionID Hne. unfold find_version. cbn [db with_db versions].
    rewrite find_snoc. destruct (List.find _ (versions (db w))); [reflexivity|].
    cbn [Version.ID]. apply String.eqb_neq in Hne.
    now rewrite String.eqb_sym, Hne.
Qed.

End WithEnv.

(** X6 on the shop: a fourth build. *)
Lemma CreateVersion_then_GetVersion_witness :
  ∃ v w',
    CreateVersion calm "v4" 30 "a1" shop_world = (inl v, w')
    ∧ GetVersion calm "v4" w' = (inl v, w')
    ∧ v = Version.Build "v4" "a1" (Version.VersionNumber v) "pending"
            None None None None None 30
    ∧ ∀ versionID, versionID ≠ "v4" →
        find_version versionID (db w') = find_version versionID (db shop_world).
Proof.
  apply (CreateVersion_then_GetVersion calm "v4" 30%Z "a1" shop_world).
  - intros tr stmt. reflexivity.
  - reflexivity.
Defined.

Lemma filter_none {A : Type} (p : A → bool) (l : list A) :
  List.find p l = None → List.filter (λ x, negb (p x)) l = l.
Proof.
  induction l as [|x r IH]; [reflexivity|]. simpl.
  destruct (p x); [discriminate|]. intros H. simpl. now rewrite IH.
Qed.

Lemma filter_some_shorter {A : Type} (p : A → bool) (l : list A) (x : A) :
  List.find p l = Some x →
  (length (List.filter (λ x, negb (p x)) l) < length l)%nat.
Proof.
  induction l as [|y r IH]; [discriminate|]. simpl.
  pose proof (List.filter_length_le (λ x, negb (p x)) r) as Hle.
  destruct (p y); simpl; [lia|]. intros H. specialize (IH H). lia.
Qed.

Lemma find_filtered {A : Type} (p : A → bool) (l : list A) :
  List.find p (List.filter (λ x, negb (p x)) l) = None.
Proof.
  induction l as [|y r IH]; [reflexivity|]. simpl.
  destruct (p y) eqn:E; simpl; [exact IH|]. now rewrite E.
Qed.

Lemma find_filter_other {A : Type} (p q : A → bool) (l : list A) :
  (∀ x, q x = true → p x = false) →
  List.find q (List.filter (λ x, negb (p x)) l) = List.find q l.
Proof.
  intros H. induction l as [|y r IH]; [reflexivity|]. simpl.
  destruct (q y) eqn:E.
  - rewrite (H y E). simpl. now rewrite E.
  - destruct (p y); simpl; [exact IH|]. now rewrite E.
Qed.

Section WithEnv.
Variable env : Env.

Lemma DeleteVersion_no_faults (versionID : string) (w : World) :
  no_faults env →
  let keep := other_versions versionID (db w) in
  DeleteVersion env versionID w
  = (if (Z.of_nat (length (versions (db w))) - Z.of_nat (length keep) =? 0)%Z
     then inr (Errorf "version not found") else inl tt,
     with_db {| apps := apps (db w); versions := keep; users := users (db w) |}
       (emit (DBWrite (DeleteVersions versionID)) w)).
Proof.
  intros NF keep. unfold DeleteVersion, execDeleteVersions. op_unfold.
  rewrite NF. fold (other_versions versionID (db w)). fold keep.
  now destruct (_ =? 0)%Z.
Qed.

(** X7: deleting an identifier that no version carries fails with
    "version not found" and leaves every table as it was. *)
Theorem DeleteVersion_missing :
  ∀ (versionID : string) (w : World),
    no_faults env →
    find_version versionID (db w) = None →
    ∃ w', DeleteVersion env versionID w = (inr (Errorf "version not found"), w')
          ∧ db w' = db w.
Proof.
  intros versionID w NF Hnone.
  rewrite (DeleteVersion_no_faults versionID w NF).
  unfold other_versions. rewrite (filter_none _ _ Hnone), Z.sub_diag.
  eexists. split; [reflexivity|]. cbn [db with_db]. now destruct (db w).
Qed.

(** X8: deleting a stored version succeeds; afterwards [GetVersion]
    no longer finds it, a second [DeleteVersion] fails with "version
    not found", and every other version reads as before. *)
Theorem DeleteVersion_then_GetVersion :
  ∀ (versionID : string) (w : World) (v : Version.t),
    no_faults env →
    find_version versionID (db w) = Some v →
    ∃ w',
      DeleteVersion env versionID w = (inl tt, w')
      ∧ GetVersion env versionID w'
        = (inr (Errorf_w "version not found: " ErrNoRows), w')
      ∧ fst (DeleteVersion env versionID w') = inr (Errorf "version not found")
      ∧ apps (db w') = apps (db w)
      ∧ ∀ other, other ≠ versionID →
          find_version other (db w') = find_version other (db w).
Proof.
  intros versionID w v NF Hv.
  rewrite (DeleteVersion_no_faults versionID w NF).
  pose proof (filter_some_shorter _ _ _ Hv) as Hlt.
  change (length (other_versions versionID (db w)) < length (versions (db w)))%nat
    in Hlt.
  destruct (_ =? 0)%Z eqn:E; [apply Z.eqb_eq in E; lia|].
  eexists. split; [reflexivity|].
  set (w' := with_db _ _).
  assert (Hgone : find_version versionID (db w') = None) by apply find_filtered.
  split; [|split; [|split; [reflexivity|]]].
  - unfold GetVersion, querySelectVersion. op_unfold. now rewrite NF, Hgone.
  - rewrite (DeleteVersion_no_faults versionID w' NF).
    unfold other_versions. rewrite (filter_none _ _ Hgone), Z.sub_diag. reflexivity.
  - intros other Hne. apply find_filter_other.
    intros x Hx. apply String.eqb_eq in Hx. apply String.eqb_neq. congruence.
Qed.

End WithEnv.

(** X7 on the shop. *)
Lemma DeleteVersion_missing_witness :
  ∃ w', DeleteVersion calm "nope" shop_world = (inr (Errorf "version not found"), w')
        ∧ db w' = db shop_world.
Proof.
  apply (DeleteVersion_missing calm "nope" shop_world).
  - intros tr stmt. reflexivity.
  - reflexivity.
Defined.

(** X8 on the shop. *)
Lemma DeleteVersion_then_GetVersion_witness :
  ∃ w',
    DeleteVersion calm "v3" shop_world = (inl tt, w')
    ∧ GetVersion calm "v3" w' = (inr (Errorf_w "version not found: " ErrNoRows), w')
    ∧ fst (DeleteVersion calm "v3" w') = inr (Errorf "version not found")
    ∧ apps (db w') = apps (db shop_world)
    ∧ ∀ other, other ≠ "v3" →
        find_version other (db w') = find_version other (db shop_world).
Proof.
  apply (DeleteVersion_then_GetVersion calm "v3" shop_world build3).
  - intros tr stmt. reflexivity.
  - reflexivity.
Defined.

(** Rows rewritten in place, keys kept. *)
Lemma map_keys_kept {A K : Type} (key : A → K) (hit : A → bool) (f : A → A)
      (l : list A) :
  (∀ x, key (f x) = key x) →
  List.map key (List.map (λ x, if hit x then f x else x) l) = List.map key l.
Proof.
  intros H. induction l as [|x r IH]; [reflexivity|]. simpl.
  rewrite IH. now destruct (hit x); rewrite ?H.
Qed.

Lemma filter_others_kept {A : Type} (hit : A → bool) (f : A → A) (l : list A) :
  (∀ x, hit (f x) = hit x) →
  List.filter (λ x, negb (hit x)) (List.map (λ x, if hit x then f x else x) l)
  = List.filter (λ x, negb (hit x)) l.
Proof.
  intros H. induction l as [|x r IH]; [reflexivity|]. simpl.
  destruct (hit x) eqn:E.
  - rewrite H, E. simpl. exact IH.
  - rewrite E. simpl. now rewrite IH.
Qed.

Lemma assign_all_key (sets : list Assignment) (v : Version.t) :
  version_key (assign_all sets v) = version_key v.
Proof.
  unfold assign_all. revert v.
  induction sets as [|a r IH]; intros v; [reflexivity|].
  simpl. rewrite IH. now destruct v, a.
Qed.

(** The numbering of the versions is read off their keys. *)
Lemma key_fields (u v : Version.t) :
  version_key u = version_key v →
  Version.AppID u = Version.AppID v
  ∧ Version.VersionNumber u = Version.VersionNumber v.
Proof. unfold version_key. intros [= _ -> -> _]. easy. Qed.

Lemma keys_cons (u v : Version.t) (r r' : list Version.t) :
  List.map version_key (u :: r') = List.map version_key (v :: r) →
  version_key u = version_key v ∧ List.map version_key r' = List.map version_key r.
Proof.
  intros E. split.
  - exact (f_equal (hd (version_key v)) E).
  - exact (f_equal (@tl _) E).
Qed.

Lemma below_by_keys (v v' : Version.t) (vs vs' : list Version.t) (appID : string) :
  Version.VersionNumber v' = Version.VersionNumber v →
  List.map version_key vs' = List.map version_key vs →
  Forall (number_lt v)
    (List.filter (λ x, String.eqb (Version.AppID x) appID) vs) →
  Forall (number_lt v')
    (List.filter (λ x, String.eqb (Version.AppID x) appID) vs').
Proof.
  intros En. revert vs'.
  induction vs as [|x r IH]; intros [|x' r'] E; try discriminate E; [constructor|].
  apply keys_cons in E as [Ek Er]. apply key_fields in Ek as [Ea Ex].
  simpl. rewrite Ea.
  destruct (String.eqb (Version.AppID x) appID); [|now apply IH].
  intros Hf. apply List.Forall_cons_iff in Hf as [Hx Hf].
  constructor; [unfold number_lt in *; lia | now apply IH].
Qed.

Lemma increasing_by_keys (vs vs' : list Version.t) (appID : string) :
  List.map version_key vs' = List.map version_key vs →
  StronglySorted number_lt
    (List.filter (λ v, String.eqb (Version.AppID v) appID) vs) →
  StronglySorted number_lt
    (List.filter (λ v, String.eqb (Version.AppID v) appID) vs').
Proof.
  revert vs'. induction vs as [|v r IH]; intros [|v' r'] E; try discriminate E.
  - intros _. constructor.
  - apply keys_cons in E as [Ek Er]. apply key_fields in Ek as [Ea En].
    simpl. rewrite Ea.
    destruct (String.eqb (Version.AppID v) appID); [|now apply IH].
    intros Hsorted. apply StronglySorted_inv in Hsorted as [Hs Hf].
    constructor; [now apply IH|].
    now apply (below_by_keys v v' r r').
Qed.

Lemma increasing_kept (d d' : DB) :
  List.map version_key (versions d') = List.map version_key (versions d) →
  numbers_increasing d → numbers_increasing d'.
Proof.
  intros E H appID. unfold versions_of.
  apply (increasing_by_keys (versions d)); [exact E | apply H].
Qed.

Section WithEnvFrames.
Variable env : Env.

(** What [UpdateVersion] does to the tables, whatever its outcome. *)
Lemma UpdateVersion_db (versionID : string) (updates : gmap string Value) (w : World) :
  let d := db (snd (UpdateVersion env versionID updates w)) in
  apps d = apps (db w) ∧ users d = users (db w)
  ∧ (versions d = versions (db w)
     ∨ versions d
       = List.map (λ v, if String.eqb (Version.ID v) versionID
                        then assign_all (setClauses updates) v else v)
           (versions (db w))).
Proof.
  unfold UpdateVersion.
  destruct (length (setClauses updates) =? 0)%nat; [simpl; auto|].
  unfold queryUpdateVersions. op_unfold.
  destruct (db_fault env (trace w) _); [simpl; auto|].
  unfold update_versions.
  destruct (negb (distinct_columns _)); [simpl; auto|].
  destruct (find_version versionID (db w)); simpl; auto.
Qed.

Lemma UpdateVersion_keys (versionID : string) (updates : gmap string Value) (w : World) :
  let d := db (snd (UpdateVersion env versionID updates w)) in
  apps d = apps (db w) ∧ users d = users (db w)
  ∧ List.map version_key (versions d) = List.map version_key (versions (db w))
  ∧ other_versions versionID d = other_versions versionID (db w).
Proof.
  destruct (UpdateVersion_db versionID updates w) as (Ha & Hu & [Hv|Hv]);
    cbv zeta; unfold other_versions; rewrite Hv; repeat split; try assumption.
  - apply map_keys_kept, assign_all_key.
  - apply (filter_others_kept (λ v, String.eqb (Version.ID v) versionID)).
    intros v. now destruct (assign_all_keys (setClauses updates) v) as (-> & _).
Qed.

(** X9: whatever its outcome, [UpdateVersion] writes to no table but
    [versions], creates and deletes no row, never changes the
    identifier, the application, the number or the creation time of a
    version, and leaves the versions of other identifiers as they
    were; so it keeps the numbers of every application strictly
    increasing. *)
Theorem UpdateVersion_frame :
  ∀ (versionID : string) (updates : gmap string Value) (w : World),
    let d := db (snd (UpdateVersion env versionID updates w)) in
    apps d = apps (db w) ∧ users d = users (db w)
    ∧ List.map version_key (versions d) = List.map version_key (versions (db w))
    ∧ other_versions versionID d = other_versions versionID (db w)
    ∧ (numbers_increasing (db w) → numbers_increasing d).
Proof.
  intros versionID updates w d.
  destruct (UpdateVersion_keys versionID updates w) as (Ha & Hu & Hk & Ho).
  fold d in Ha, Hu, Hk, Ho. repeat split; try assumption.
  now apply increasing_kept.
Qed.

End WithEnvFrames.

Lemma shop_numbers_increasing : numbers_increasing (db shop_world).
Proof.
  intros appID. unfold versions_of, shop_world. cbn [db versions List.filter].
  destruct (String.eqb (Version.AppID build3) appID); repeat constructor.
Qed.

(** X9 on the shop: the third build is marked as failed. *)
Lemma UpdateVersion_frame_witness :
  let d := db (snd (UpdateVersion calm "v3" {["status" := VString "failed"]}
                      shop_world)) in
  Version.Status <$> versions d = ["failed"]
  ∧ List.map version_key (versions d) = List.map version_key (versions (db shop_world))
  ∧ numbers_increasing d.
Proof.
  destruct (UpdateVersion_frame calm "v3" {["status" := VString "failed"]} shop_world)
    as (_ & _ & Hkeys & _ & Hinc).
  split; [reflexivity|]. split; [exact Hkeys|]. apply Hinc, shop_numbers_increasing.
Defined.

Section WithEnvPromotion.
Variable env : Env.

Lemma set_prod_version_outside (n now : Z) (a : App.t) :
  app_outside_promotion (set_prod_version n now a) = app_outside_promotion a.
Proof. now destruct a. Qed.

(** What the update of [prod_version] does to the tables. *)
Lemma execUpdateProdVersion_db (n now : Z) (appID : string) (w : World) :
  let d := db (snd (execUpdateProdVersion env n now appID w)) in
  versions d = versions (db w) ∧ users d = users (db w)
  ∧ List.map app_outside_promotion (apps d)
    = List.map app_outside_promotion (apps (db w))
  ∧ other_apps appID d = other_apps appID (db w).
Proof.
  unfold execUpdateProdVersion, db_write.
  destruct (db_fault env (trace w) _); [simpl; auto|].
  cbn [snd db with_db emit versions users apps]. unfold other_apps. cbn [apps].
  repeat split.
  - apply map_keys_kept, set_prod_version_outside.
  - apply (filter_others_kept (λ a, String.eqb (App.ID a) appID)).
    intros a. now destruct (set_prod_version_fields n now a) as (-> & _).
Qed.

Lemma promote_checked_db (now : Z) (versionID : string) (v : Version.t)
      (projectID deploymentID : string) (w : World) :
  let d := db (snd (promote_checked env now versionID v projectID deploymentID w)) in
  users d = users (db w)
  ∧ List.map version_key (versions d) = List.map version_key (versions (db w))
  ∧ other_versions versionID d = other_versions versionID (db w)
  ∧ List.map app_outside_promotion (apps d)
    = List.map app_outside_promotion (apps (db w))
  ∧ other_apps (Version.AppID v) d = other_apps (Version.AppID v) (db w).
Proof.
  unfold promote_checked.
  pose proof (PromoteDeployment_world env projectID deploymentID w) as Hw.
  destruct (VercelService.PromoteDeployment env projectID deploymentID w)
    as [[[]|e] w1]; simpl in Hw; subst w1; [|simpl; auto].
  pose proof (execUpdateProdVersion_db (Version.VersionNumber v) now
                (Version.AppID v) (emit (PromoteCall projectID deploymentID) w)) as H2.
  destruct (execUpdateProdVersion env _ _ _ _) as [[k|e] w2];
    cbv zeta in H2; cbn [snd emit db] in H2; [|cbn [snd]; unfold other_versions;
      destruct H2 as (-> & -> & -> & ->); auto].
  pose proof (UpdateVersion_keys env versionID {[ "status" := VString "promoted" ]} w2)
    as H3.
  destruct (UpdateVersion env versionID _ w2) as [[v'|e] w3];
    cbv zeta in H3; cbn [snd] in H3 |- *;
    destruct H2 as (Ev & Eu & Ea & Eo), H3 as (Ha3 & Hu3 & Hk3 & Ho3);
    unfold other_versions, other_apps in *;
    rewrite Ha3, Hu3, Hk3, Ho3, Ev, Eu, Ea, Eo; auto.
Qed.

(** X10: whatever its outcome, [PromoteVersion] creates and deletes no
    row; in [versions] it never changes an identifier, an application,
    a number or a creation time and leaves the versions of other
    identifiers as they were; in [apps] it writes no column but
    [prod_version] and [updated_at], and only in the rows of the
    application of the version; so it keeps the numbers of every
    application strictly increasing. *)
Theorem PromoteVersion_frame :
  ∀ (now : Z) (versionID : string) (w : World),
    let d := db (snd (PromoteVersion env now versionID w)) in
    users d = users (db w)
    ∧ List.map version_key (versions d) = List.map version_key (versions (db w))
    ∧ other_versions versionID d = other_versions versionID (db w)
    ∧ List.map app_outside_promotion (apps d)
      = List.map app_outside_promotion (apps (db w))
    ∧ (∀ v, fst (GetVersion env versionID w) = inl v →
            other_apps (Version.AppID v) d = other_apps (Version.AppID v) (db w))
    ∧ (numbers_increasing (db w) → numbers_increasing d).
Proof.
  intros now versionID w d.
  assert (H : users d = users (db w)
              ∧ List.map version_key (versions d)
                = List.map version_key (versions (db w))
              ∧ other_versions versionID d = other_versions versionID (db w)
              ∧ List.map app_outside_promotion (apps d)
                = List.map app_outside_promotion (apps (db w))
              ∧ (∀ v, fst (GetVersion env versionID w) = inl v →
                      other_apps (Version.AppID v) d
                      = other_apps (Version.AppID v) (db w))).
  { subst d. rewrite PromoteVersion_cases.
    destruct (fst (GetVersion env versionID w)) as [v|e]; [|simpl; auto 10].
    destruct (negb _); [simpl; auto 10|].
    destruct (is_empty_string (Version.VercelDeployID v)); [simpl; auto 10|].
    destruct (fst (querySelectProjectID env (Version.AppID v) w)) as [p|e];
      [|simpl; auto 10].
    destruct (is_empty_string p); [simpl; auto 10|].
    destruct (promote_checked_db now versionID v (default "" p)
                (default "" (Version.VercelDeployID v)) w) as (Hu & Hk & Ho & Ha & Hoa).
    repeat split; try assumption. intros v0 [= <-]. exact Hoa. }
  destruct H as (Hu & Hk & Ho & Ha & Hoa). repeat split; try assumption.
  now apply increasing_kept.
Qed.

End WithEnvPromotion.

(** X10 on the shop: the third build is promoted. *)
Lemma PromoteVersion_frame_witness :
  let d := db (snd (PromoteVersion calm 40 "v3" shop_world)) in
  App.ProdVersion <$> apps d = [Some 3%Z]
  ∧ other_apps "a1" d = other_apps "a1" (db shop_world)
  ∧ numbers_increasing d.
Proof.
  destruct (PromoteVersion_frame calm 40%Z "v3" shop_world)
    as (_ & _ & _ & _ & Hothers & Hinc).
  split; [reflexivity|]. split; [exact (Hothers build3 eq_refl)|].
  apply Hinc, shop_numbers_increasing.
Defined.

Section WithEnvFailures.
Variable env : Env.

Lemma ready_promote_checked (now : Z) (versionID : string) (w : World)
      (v : Version.t) (a : App.t) (p d : string) :
  ready_to_promote env versionID w v a p d →
  PromoteVersion env now versionID w = promote_checked env now versionID v p d w
  ∧ VercelService.PromoteDeployment env p d w = (inl tt, emit (PromoteCall p d) w).
Proof.
  intros (F1 & Hv & Hs & Hd & Hdne & F2 & Ha & Hp & Hpne & Hacc).
  split; [|now apply PromoteDeployment_accepted].
  rewrite PromoteVersion_cases.
  rewrite (GetVersion_found env versionID w v F1 Hv). cbn [fst].
  rewrite Hs, Hd.
  change (negb (String.eqb "completed" "completed")) with false. cbv iota.
  rewrite (proj2 (is_empty_string_false (Some d))) by eauto.
  rewrite (querySelectProjectID_found env _ w a F2 Ha). cbn [fst].
  rewrite Hp, (proj2 (is_empty_string_false (Some p))) by eauto.
  reflexivity.
Qed.

(** X11: when the platform has taken the promotion and the store then
    fails the write of [prod_version], [PromoteVersion] returns that
    failure under the prefix "failed to update app prod_version: " and
    the tables are as before: the platform serves the deployment while
    the application does not point to the version and the version is
    still "completed". *)
Theorem PromoteVersion_pointer_write_fails :
  ∀ (now : Z) (versionID : string) (w : World) (v : Version.t) (a : App.t)
    (projectID deploymentID : string) (e : error),
    ready_to_promote env versionID w v a projectID deploymentID →
    db_fault env (trace w ++ [PromoteCall projectID deploymentID])
      (UpdateProdVersion (Version.VersionNumber v) now (Version.AppID v)) = Some e →
    ∃ w',
      PromoteVersion env now versionID w
      = (inr (Errorf_w "failed to update app prod_version: " e), w')
      ∧ db w' = db w
      ∧ trace w'
        = (trace w ++
           [PromoteCall projectID deploymentID;
            DBWrite (UpdateProdVersion (Version.VersionNumber v) now
                       (Version.AppID v))])%list.
Proof.
  intros now versionID w v a p d e Hready Hf.
  destruct (ready_promote_checked now versionID w v a p d Hready) as [-> Hp].
  unfold promote_checked. rewrite Hp.
  unfold execUpdateProdVersion, db_write. cbn [emit trace]. rewrite Hf.
  eexists. split; [reflexivity|]. cbn [emit db trace].
  split; [reflexivity|]. now rewrite <- app_assoc.
Qed.

(** X12: when the platform has taken the promotion, the store has
    written [prod_version] and then fails the update of the version,
    [PromoteVersion] returns that failure under the prefix "failed to
    update version: "; the application points to the version, which is
    still "completed". *)
Theorem PromoteVersion_status_write_fails :
  ∀ (now : Z) (versionID : string) (w : World) (v : Version.t) (a : App.t)
    (projectID deploymentID : string) (e : error),
    ready_to_promote env versionID w v a projectID deploymentID →
    db_fault env (trace w ++ [PromoteCall projectID deploymentID])
      (UpdateProdVersion (Version.VersionNumber v) now (Version.AppID v)) = None →
    db_fault env
      (trace w ++
       [PromoteCall projectID deploymentID;
        DBWrite (UpdateProdVersion (Version.VersionNumber v) now (Version.AppID v))])
      (UpdateVersions [SetStatus "promoted"] versionID) = Some e →
    ∃ w',
      PromoteVersion env now versionID w
      = (inr (Errorf_w "failed to update version: " e), w')
      ∧ find_app (Version.AppID v) (db w')
        = Some (set_prod_version (Version.VersionNumber v) now a)
      ∧ find_version versionID (db w') = Some v.
Proof.
  intros now versionID w v a p d e Hready Hf1 Hf2.
  destruct (ready_promote_checked now versionID w v a p d Hready) as [-> Hp].
  destruct Hready as (_ & Hv & _ & _ & _ & _ & Ha & _).
  unfold promote_checked. rewrite Hp.
  unfold execUpdateProdVersion, db_write. cbn [emit trace]. rewrite Hf1.
  unfold UpdateVersion.
  change (setClauses {[ "status" := VString "promoted" ]}) with [SetStatus "promoted"].
  cbn [length Nat.eqb]. unfold queryUpdateVersions, orWrap, db_write.
  cbn [emit trace with_db db]. rewrite <- app_assoc. cbn [app]. rewrite Hf2.
  eexists. split; [reflexivity|]. cbn [emit db with_db]. split; [|exact Hv].
  unfold find_app in *. cbn [apps]. now rewrite find_app_promoted, Ha.
Qed.

End WithEnvFailures.

Lemma shop_ready (env : Env) :
  db_fault env [] (SelectVersion "v3") = None →
  db_fault env [] (SelectProjectID "a1") = None →
  vercel_promote env [] "prj_1" "dpl_3" = inr (201%Z, "") →
  ready_to_promote env "v3" shop_world build3 shop "prj_1" "dpl_3".
Proof.
  intros F1 F2 Hp. unfold ready_to_promote.
  split; [exact F1|]. split; [reflexivity|]. split; [reflexivity|].
  split; [reflexivity|]. split; [discriminate|]. split; [exact F2|].
  split; [reflexivity|]. split; [reflexivity|]. split; [discriminate|].
  exists 201%Z, "". split; [exact Hp | now left].
Qed.

(** X11 on the shop, with a store that fails the pointer. *)
Lemma PromoteVersion_pointer_write_fails_witness :
  ∃ w',
    PromoteVersion env_pointer_fails 40 "v3" shop_world
    = (inr (Errorf_w "failed to update app prod_version: "
              (errorString "connection refused")), w')
    ∧ db w' = db shop_world
    ∧ trace w' = [PromoteCall "prj_1" "dpl_3"; DBWrite (UpdateProdVersion 3 40 "a1")].
Proof.
  apply (PromoteVersion_pointer_write_fails env_pointer_fails 40%Z "v3" shop_world
           build3 shop "prj_1" "dpl_3" (errorString "connection refused")).
  - now apply shop_ready.
  - reflexivity.
Defined.

(** X12 on the shop, with a store that fails the version. *)
Lemma PromoteVersion_status_write_fails_witness :
  ∃ w',
    PromoteVersion env_status_fails 40 "v3" shop_world
    = (inr (Errorf_w "failed to update version: "
              (errorString "connection refused")), w')
    ∧ find_app "a1" (db w') = Some (set_prod_version 3 40 shop)
    ∧ find_version "v3" (db w') = Some build3.
Proof.
  apply (PromoteVersion_status_write_fails env_status_fails 40%Z "v3" shop_world
           build3 shop "prj_1" "dpl_3" (errorString "connection refused")).
  - now apply shop_ready.
  - reflexivity.
  - reflexivity.
Defined.

End VersionMoreFacts.

(** ** Further properties of the extraction and of the setup pipeline *)

Module SetupMoreFacts.
Import Bytes Errors Store Ops Scenario Frames Scenario2.
Import AppService.
Import SetupFacts VersionMoreFacts.

Lemma validate_complete (c : AppConfig.t) :
  let c' := GeminiService.validate c in
  AppConfig.AppName c' ≠ "" ∧ AppConfig.DisplayName c' ≠ ""
  ∧ AppConfig.Category c' ≠ "" ∧ AppConfig.ColorScheme c' ≠ ""
  ∧ AppConfig.Keywords c' ≠ []
  ∧ GeminiService.validate c' = c'.
Proof.
  destruct c as [name dn auth signup cat kw col]. unfold GeminiService.validate.
  cbn [AppConfig.AppName AppConfig.DisplayName AppConfig.Category
       AppConfig.ColorScheme AppConfig.Keywords AppConfig.RequiresAuth
       AppConfig.AllowSignup].
  destruct (String.eqb name "") eqn:En, (String.eqb dn "") eqn:Ed,
    (String.eqb cat "") eqn:Ec, (String.eqb col "") eqn:Eo, kw as [|k kw];
    cbn [length Nat.eqb];
    rewrite ?En, ?Ed, ?Ec, ?Eo;
    rewrite ?String.eqb_neq in *;
    repeat split; try discriminate; try assumption; try reflexivity.
Qed.

Lemma defaultConfig_complete :
  AppConfig.AppName defaultConfig ≠ "" ∧ AppConfig.DisplayName defaultConfig ≠ ""
  ∧ AppConfig.Category defaultConfig ≠ "" ∧ AppConfig.ColorScheme defaultConfig ≠ "".
Proof. repeat split; discriminate. Qed.

Section WithEnv.
Variable env : Env.
Variable MapToLower : string → string.

Lemma ExtractAppConfig_validated (description : string) (config : AppConfig.t) :
  GeminiService.ExtractAppConfig env description = inl config →
  ∃ parsed, config = GeminiService.validate parsed.
Proof.
  unfold GeminiService.ExtractAppConfig.
  destruct (gemini_post env description) as [e|[StatusCode body]]; [discriminate|].
  destruct (negb _); [discriminate|].
  destruct (gemini_decode env body) as [e|[|[|text parts] rest]]; try discriminate.
  destruct (unmarshal_config env _) as [e|parsed]; [discriminate|].
  intros [= <-]. eauto.
Qed.

(** X13: an extraction that succeeds returns a complete
    configuration: brand name, display name, category and color are
    not empty, there is at least one keyword, and normalising it again
    changes nothing. *)
Theorem ExtractAppConfig_complete :
  ∀ (description : string) (config : AppConfig.t),
    GeminiService.ExtractAppConfig env description = inl config →
    AppConfig.AppName config ≠ "" ∧ AppConfig.DisplayName config ≠ ""
    ∧ AppConfig.Category config ≠ "" ∧ AppConfig.ColorScheme config ≠ ""
    ∧ AppConfig.Keywords config ≠ []
    ∧ GeminiService.validate config = config.
Proof.
  intros description config H.
  apply ExtractAppConfig_validated in H as [parsed ->].
  apply validate_complete.
Qed.

Lemma resolved_config_complete (description : string) :
  let config := resolved_config env description in
  AppConfig.AppName config ≠ "" ∧ AppConfig.DisplayName config ≠ ""
  ∧ AppConfig.Category config ≠ "" ∧ AppConfig.ColorScheme config ≠ "".
Proof.
  unfold resolved_config.
  destruct (GeminiService.ExtractAppConfig env description) as [config|e] eqn:E.
  - apply ExtractAppConfig_validated in E as [parsed ->].
    destruct (validate_complete parsed) as (? & ? & ? & ? & _). auto.
  - apply defaultConfig_complete.
Qed.

(** X14: whatever the endpoint answers, the setup pipeline sends one
    update of the configuration, and that update never carries an
    empty name, display name, category or color; its host name is the
    production domain of the name it carries. *)
Theorem setup_update_is_complete :
  ∀ (now : Z) (appID userID description : string) (w : World),
    let w' := extractConfigAndSetupApp env MapToLower now appID userID description w in
    ∃ name displayName category colorScheme,
      In (DBWrite (UpdateAppConfig name displayName category colorScheme
                     (Utils.GenerateProductionDomain MapToLower name appID) now appID))
         (trace w')
      ∧ name ≠ "" ∧ displayName ≠ "" ∧ category ≠ "" ∧ colorScheme ≠ "".
Proof.
  intros now appID userID description w w'.
  pose proof (pipeline_cases env MapToLower now appID userID description w) as H.
  cbv zeta in H. fold w' in H.
  destruct (resolved_config_complete description) as (Hn & Hd & Hc & Ho).
  exists (AppConfig.AppName (resolved_config env description)),
    (AppConfig.DisplayName (resolved_config env description)),
    (AppConfig.Category (resolved_config env description)),
    (AppConfig.ColorScheme (resolved_config env description)).
  split; [|auto].
  unfold config_update in H. destruct (db_fault env _ _) as [e|].
  - destruct H as [_ ->]. apply in_app_iff. right. now left.
  - now destruct H as (_ & Hin & _).
Qed.

End WithEnv.

(** X13 on an endpoint whose reply leaves every field empty. *)
Lemma ExtractAppConfig_complete_witness :
  let config := AppConfig.Build "MyApp" "MyApp" false false "other" ["app"] "blue" in
  AppConfig.AppName config ≠ "" ∧ AppConfig.DisplayName config ≠ ""
  ∧ AppConfig.Category config ≠ "" ∧ AppConfig.ColorScheme config ≠ ""
  ∧ AppConfig.Keywords config ≠ []
  ∧ GeminiService.validate config = config.
Proof.
  apply (ExtractAppConfig_complete
           (env_extracting "{}" (AppConfig.Build "" "" false false "" [] ""))
           "a shop").
  reflexivity.
Defined.

Section WithEnvFrame.
Variable env : Env.
Variable MapToLower : string → string.

Lemma set_config_outside (name dn cat col url : string) (now : Z) (a : App.t) :
  app_outside_config (set_config name dn cat col url now a) = app_outside_config a.
Proof. now destruct a. Qed.

(** The pipeline writes to no table but [apps]. *)
Lemma pipeline_tables (now : Z) (appID userID description : string) (w : World) :
  let w' := extractConfigAndSetupApp env MapToLower now appID userID description w in
  versions (db w') = versions (db w) ∧ users (db w') = users (db w).
Proof.
  unfold extractConfigAndSetupApp.
  destruct (GeminiService.ExtractAppConfig env description) as [cfg|e0];
    unfold execUpdateAppConfig, db_write, log;
    cbn [emit trace db with_db];
    match goal with |- context [db_fault env ?tr ?st] =>
      destruct (db_fault env tr st) as [err|] end.
  all: cbn [emit trace db with_db apps]; try (split; reflexivity).
  all: match goal with |- context [GetOwnerEmail env ?u ?w0] =>
         pose proof (GetOwnerEmail_world env u w0) as Hp;
         destruct (GetOwnerEmail env u w0) as [[mail|e1] w2];
         simpl in Hp; subst w2 end.
  all: match goal with |- context [run_command env ?tr ?argv] =>
         destruct (run_command env tr argv) as [[e2|] stderr] end.
  all: split; reflexivity.
Qed.

End WithEnvFrame.

Section WithEnvOwner.
Variable env : Env.
Variable MapToLower : string → string.

Lemma GetOwnerEmail_result (userID : string) (w : World) :
  fst (GetOwnerEmail env userID w)
  = match db_fault env (trace w) (SelectOwnerEmail userID) with
    | Some e => inr (Errorf_w "failed to get owner email: " e)
    | None =>
        match List.find (λ u, String.eqb (fst u) userID) (users (db w)) with
        | Some u => inl (snd u)
        | None => inr (Errorf_w "failed to get owner email: " ErrNoRows)
        end
    end.
Proof.
  unfold GetOwnerEmail, orWrap, db_query.
  destruct (db_fault env (trace w) _); [reflexivity|].
  now destruct (List.find _ (users (db w))).
Qed.

(** The later stages, with the address the command is given. *)
Lemma pipeline_owner (now : Z) (appID userID description : string) (w : World) :
  let config := resolved_config env description in
  let w' := extractConfigAndSetupApp env MapToLower now appID userID description w in
  db_fault env (trace w ++ events_before_update env appID description)
    (config_update MapToLower config now appID) = None →
  ∃ w1,
    users (db w1) = users (db w)
    ∧ In (RunCommand ["app-manager"; "create"; appID; "--name";
                      AppConfig.AppName config; "--owner-email";
                      match fst (GetOwnerEmail env userID w1) with
                      | inl ownerEmail => ownerEmail
                      | inr _ => "unknown@example.com"
                      end]) (trace w')
    ∧ In (Go (generateAndUploadLogo_task appID (AppConfig.AppName config)
                (AppConfig.Category config) (AppConfig.ColorScheme config)))
         (trace w').
Proof.
  intros config w'. subst w' config.
  unfold extractConfigAndSetupApp, config_update, events_before_update, resolved_config.
  destruct (GeminiService.ExtractAppConfig env description) as [cfg|e0];
    unfold execUpdateAppConfig, db_write, log;
    cbn [emit trace db with_db];
    rewrite <- !app_assoc; cbn [app]; intros Hf; rewrite Hf.
  all: match goal with |- context [GetOwnerEmail env ?u ?w0] =>
         exists w0; split; [reflexivity|];
         pose proof (GetOwnerEmail_world env u w0) as Hp;
         destruct (GetOwnerEmail env u w0) as [[mail|e1] w2];
         simpl in Hp; subst w2 end.
  all: match goal with |- context [run_command env ?tr ?argv] =>
         destruct (run_command env tr argv) as [[e2|] stderr] end.
  all: cbn [emit trace db with_db apps log fst].
  all: rewrite !in_app_iff; simpl; tauto.
Qed.

(** X16: once the configuration is written, neither a failing lookup
    of the owner's address nor a failing registry command stops the
    pipeline.  The registry command is run with the address of the
    owner when the lookup finds one and with "unknown@example.com"
    when the lookup fails or finds no user, and the logo generation is
    started in every case. *)
Theorem setup_survives_owner_and_registry :
  ∀ (now : Z) (appID userID description : string) (w : World),
    let config := resolved_config env description in
    let w' := extractConfigAndSetupApp env MapToLower now appID userID description w in
    let command ownerEmail :=
      RunCommand ["app-manager"; "create"; appID; "--name"; AppConfig.AppName config;
                  "--owner-email"; ownerEmail] in
    db_fault env (trace w ++ events_before_update env appID description)
      (config_update MapToLower config now appID) = None →
    In (Go (generateAndUploadLogo_task appID (AppConfig.AppName config)
              (AppConfig.Category config) (AppConfig.ColorScheme config)))
       (trace w')
    ∧ ((∀ tr, db_fault env tr (SelectOwnerEmail userID) ≠ None)
       ∨ List.find (λ u, String.eqb (fst u) userID) (users (db w)) = None →
       In (command "unknown@example.com") (trace w'))
    ∧ (∀ u, (∀ tr, db_fault env tr (SelectOwnerEmail userID) = None) →
            List.find (λ u, String.eqb (fst u) userID) (users (db w)) = Some u →
            In (command (snd u)) (trace w')).
Proof.
  intros now appID userID description w config w' command Hf.
  destruct (pipeline_owner now appID userID description w Hf) as (w1 & Hu & Hc & Hg).
  fold config w' in Hc, Hg. rewrite GetOwnerEmail_result, Hu in Hc.
  split; [exact Hg|]. split.
  - intros [Hfail|Hnone].
    + specialize (Hfail (trace w1)).
      destruct (db_fault env (trace w1) _); [exact Hc | contradiction].
    + rewrite Hnone in Hc. now destruct (db_fault env (trace w1) _).
  - intros u Hok Hfound. now rewrite Hok, Hfound in Hc.
Qed.

End WithEnvOwner.

(** X16 on the shop: the owner is found in the calm world and not
    looked up successfully when the store fails the lookup. *)
Lemma setup_survives_owner_and_registry_witness :
  In (RunCommand ["app-manager"; "create"; "a1"; "--name"; "MyApp"; "--owner-email";
                  "unknown@example.com"])
     (trace (extractConfigAndSetupApp env_owner_fails (λ s, s) 50 "a1" "u1" "a shop"
               shop_world))
  ∧ In (RunCommand ["app-manager"; "create"; "a1"; "--name"; "MyApp"; "--owner-email";
                    "owner@example.com"])
       (trace (extractConfigAndSetupApp calm (λ s, s) 50 "a1" "u1" "a shop" shop_world)).
Proof.
  split.
  - destruct (setup_survives_owner_and_registry env_owner_fails (λ s, s) 50%Z "a1" "u1"
                "a shop" shop_world eq_refl) as (_ & H & _).
    apply H. left. intros tr. discriminate.
  - destruct (setup_survives_owner_and_registry calm (λ s, s) 50%Z "a1" "u1"
                "a shop" shop_world eq_refl) as (_ & _ & H).
    apply (H ("u1", "owner@example.com")); [intros tr; reflexivity | reflexivity].
Defined.

End SetupMoreFacts.

(** ** Properties of the cleaning of the endpoint's reply *)

Module FenceFacts.
Import Bytes Errors Store Scenario Scenario2.
Import UtilsFacts.

Lemma prefix_append (p s : string) : String.prefix p (p +:+ s) = true.
Proof.
  induction p as [|c p IH]; [now destruct s|].
  rewrite append_cons. cbn [String.prefix].
  destruct (ascii_dec c c); [exact IH | contradiction].
Qed.

Lemma slice_from_append (p s : string) : slice_from (p +:+ s) (String.length p) = s.
Proof.
  unfold slice_from. rewrite length_append.
  replace (String.length p + String.length s - String.length p)%nat
    with (String.length s) by lia.
  induction p as [|c p IH]; [apply substring_all|].
  rewrite append_cons. exact IH.
Qed.

Lemma substring_prefix (s p : string) : substring 0 (String.length s) (s +:+ p) = s.
Proof.
  induction s as [|c s IH]; [now destruct p|].
  rewrite append_cons. cbn [String.length substring]. now rewrite IH.
Qed.

Lemma TrimPrefix_append (p s : string) : GeminiService.TrimPrefix (p +:+ s) p = s.
Proof.
  unfold GeminiService.TrimPrefix. now rewrite prefix_append, slice_from_append.
Qed.

Lemma TrimSuffix_append (s p : string) : GeminiService.TrimSuffix (s +:+ p) p = s.
Proof.
  unfold GeminiService.TrimSuffix, GeminiService.has_suffix.
  rewrite length_append.
  replace (String.length s + String.length p - String.length p)%nat
    with (String.length s) by lia.
  rewrite slice_from_append, String.eqb_refl, andb_true_r.
  rewrite (proj2 (Nat.leb_le _ _)) by lia.
  apply substring_prefix.
Qed.

Section WithEnv.
Variable env : Env.

(** X17: a reply wrapped in a code fence is parsed as its inside.
    When the endpoint answers 200 and the first text part is a fence
    ("```json" or "```"), a text and "```", with nothing for
    [TrimSpace] to trim around it and a text that starts neither with
    a backquote nor with "j", the parser is given that text, trimmed,
    and the extraction gives what parsing it gives. *)
Theorem fenced_reply_parses_inside :
  ∀ (description body fence : string) (c : ascii) (inside : string)
    (parts : list string) (candidates : list (list string)),
    fence = "```json" ∨ fence = "```" →
    c ≠ "`"%char → c ≠ "j"%char →
    gemini_post env description = inr (200%Z, body) →
    gemini_decode env body
    = inr (((fence +:+ String c inside +:+ "```") :: parts) :: candidates) →
    TrimSpace env (fence +:+ String c inside +:+ "```")
    = fence +:+ String c inside +:+ "```" →
    GeminiService.ExtractAppConfig env description
    = parsed_as env (TrimSpace env (String c inside)).
Proof.
  intros description body fence c inside parts candidates Hfence Hq Hj Hp Hd Ht.
  unfold GeminiService.ExtractAppConfig, parsed_as.
  rewrite Hp. cbn [Z.eqb Pos.eqb negb]. rewrite Hd, Ht.
  set (J := String c inside) in *.
  assert (Hno : String.prefix "```" (J +:+ "```") = false).
  { subst J. rewrite append_cons. cbn [String.prefix].
    destruct (ascii_dec "`" c) as [E|_]; [now destruct Hq|reflexivity]. }
  assert (Hclean :
    GeminiService.TrimSuffix
      (GeminiService.TrimPrefix
         (GeminiService.TrimPrefix (fence +:+ J +:+ "```") "```json") "```") "```" = J).
  { destruct Hfence as [-> | ->].
    - rewrite TrimPrefix_append.
      unfold GeminiService.TrimPrefix at 1. rewrite Hno. apply TrimSuffix_append.
    - assert (Hnj : String.prefix "```json" ("```" +:+ J +:+ "```") = false).
      { subst J. rewrite !append_cons, append_nil_l.
        cbn [String.prefix].
        repeat (destruct (ascii_dec "`" "`") as [_|N]; [|now destruct N]).
        destruct (ascii_dec "j" c) as [E|_]; [now destruct Hj|reflexivity]. }
      unfold GeminiService.TrimPrefix at 2. rewrite Hnj.
      rewrite TrimPrefix_append. apply TrimSuffix_append. }
  rewrite Hclean. reflexivity.
Qed.

End WithEnv.

(** X17 on a reply fenced as JSON. *)
Lemma fenced_reply_parses_inside_witness :
  GeminiService.ExtractAppConfig
    (env_extracting "```json{}```" (AppConfig.Build "Shoply" "" true true "" [] "teal"))
    "a shop"
  = inl (AppConfig.Build "Shoply" "Shoply" true true "other" ["app"] "teal").
Proof.
  apply (fenced_reply_parses_inside
           (env_extracting "```json{}```"
              (AppConfig.Build "Shoply" "" true true "" [] "teal"))
           "a shop" "{}" "```json" "{" "}" [] []).
  - now left.
  - discriminate.
  - discriminate.
  - reflexivity.
  - reflexivity.
  - reflexivity.
Defined.

End FenceFacts.

(** ** Properties of the listings *)

Module ListFacts.
Import Bytes Errors Store Ops VersionService Scenario Frames Scenario2.
Import MoreStore MoreVersionService MoreAppService.
Import NumberingFacts VersionMoreFacts.

Section Ordering.
Context {A : Type} (key : A → Z).

Lemma insert_desc_perm (x : A) (l : list A) : Permutation (insert_desc key x l) (x :: l).
Proof.
  induction l as [|y r IH]; [reflexivity|]. simpl.
  destruct (key y <? key x)%Z; [reflexivity|].
  rewrite IH. apply perm_swap.
Qed.

Lemma order_by_desc_perm (l : list A) : Permutation (order_by_desc key l) l.
Proof.
  induction l as [|x r IH]; [reflexivity|]. simpl.
  rewrite insert_desc_perm. now constructor.
Qed.

Lemma insert_desc_sorted (x : A) (l : list A) :
  StronglySorted (key_ge key) l → StronglySorted (key_ge key) (insert_desc key x l).
Proof.
  induction 1 as [|y r Hs IH Hy]; simpl; [repeat constructor|].
  destruct (key y <? key x)%Z eqn:E.
  - apply Z.ltb_lt in E. constructor; [now constructor|].
    constructor; [unfold key_ge; lia|].
    eapply List.Forall_impl; [|exact Hy]. unfold key_ge. intros a Ha. lia.
  - apply Z.ltb_ge in E. constructor; [exact IH|].
    rewrite (insert_desc_perm x r). constructor; [exact E | exact Hy].
Qed.

Lemma order_by_desc_sorted (l : list A) : StronglySorted (key_ge key) (order_by_desc key l).
Proof.
  induction l as [|x r IH]; [constructor|]. simpl. now apply insert_desc_sorted.
Qed.

Lemma insert_desc_last (x : A) (l : list A) :
  Forall (λ y, (key x <= key y)%Z) l → insert_desc key x l = (l ++ [x])%list.
Proof.
  induction 1 as [|y r Hy Hr IH]; [reflexivity|]. simpl.
  rewrite (proj2 (Z.ltb_ge _ _) Hy). now rewrite IH.
Qed.

Lemma order_by_desc_increasing (l : list A) :
  StronglySorted (λ a b, (key a < key b)%Z) l → order_by_desc key l = rev l.
Proof.
  induction 1 as [|x r Hs IH Hx]; [reflexivity|]. simpl. rewrite IH.
  apply insert_desc_last. apply List.Forall_forall. intros y Hy.
  apply in_rev in Hy. rewrite List.Forall_forall in Hx. specialize (Hx y Hy). lia.
Qed.

End Ordering.

Section WithOutside.
Variable out : Outside.

Lemma ListVersions_rows (appID : string) (d : DB) (rows : list Version.t) :
  ListVersions out appID d = inl rows →
  rows = order_by_desc Version.VersionNumber (versions_of appID d).
Proof.
  unfold ListVersions.
  destruct (rows_fault out _) as [[e|e|e]|]; try discriminate.
  - destruct (order_by_desc _ _); [now intros [= <-] | discriminate].
  - now intros [= <-].
Qed.

(** X18: when [ListVersions] succeeds it returns the versions of the
    application, all of them and no other, each once, with greater
    numbers first; in a store whose numbers increase with the creation
    of the versions that is the reverse of the order of creation. *)
Theorem ListVersions_newest_first :
  ∀ (appID : string) (d : DB) (rows : list Version.t),
    ListVersions out appID d = inl rows →
    Permutation rows (versions_of appID d)
    ∧ Forall (λ v, Version.AppID v = appID) rows
    ∧ StronglySorted (key_ge Version.VersionNumber) rows
    ∧ (numbers_increasing d → rows = rev (versions_of appID d)).
Proof.
  intros appID d rows H. apply ListVersions_rows in H as ->.
  split; [apply order_by_desc_perm|]. split; [|split].
  - rewrite order_by_desc_perm. apply List.Forall_forall. intros v Hv.
    now apply versions_of_In in Hv as [_ Hv].
  - apply order_by_desc_sorted.
  - intros Hinc. apply order_by_desc_increasing, Hinc.
Qed.

End WithOutside.

Section CreateThenList.
Variable env : Env.
Variable out : Outside.

Lemma ListVersions_answered (appID : string) (d : DB) :
  rows_fault out (SelectVersions appID) = None →
  ListVersions out appID d
  = inl (order_by_desc Version.VersionNumber (versions_of appID d)).
Proof. intros H. unfold ListVersions. now rewrite H. Qed.

(** X19: a new version heads the list.  In a store whose numbers
    increase with the creation of the versions and fit [int], after a
    [CreateVersion] that the store takes, [ListVersions] of the
    application returns the new version followed by what it returned
    before. *)
Theorem CreateVersion_then_ListVersions :
  ∀ (newID : string) (now : Z) (appID : string) (w : World) (bound : Z),
    no_faults env →
    rows_fault out (SelectVersions appID) = None →
    numbers_increasing (db w) →
    numbers_below bound (db w) →
    (1 <= bound < 2 ^ 63)%Z →
    ∃ v w' rows,
      CreateVersion env newID now appID w = (inl v, w')
      ∧ ListVersions out appID (db w) = inl rows
      ∧ ListVersions out appID (db w') = inl (v :: rows).
Proof.
  intros newID now appID w bound NF Hr Hinc Hb HB.
  rewrite (CreateVersion_no_faults env newID now appID w NF).
  eexists _, _, _. split; [reflexivity|].
  rewrite !(ListVersions_answered _ _ Hr). split; [reflexivity|]. f_equal.
  destruct (next_number appID (db w) bound Hb HB) as (_ & _ & Hlt & _).
  rewrite (order_by_desc_increasing _ _ (Hinc appID)).
  rewrite order_by_desc_increasing.
  - unfold versions_of. cbn [db with_db versions]. rewrite List.filter_app.
    cbn [List.filter Version.AppID]. rewrite String.eqb_refl.
    now rewrite rev_app_distr.
  - unfold versions_of. cbn [db with_db versions]. rewrite List.filter_app.
    cbn [List.filter Version.AppID]. rewrite String.eqb_refl.
    apply sorted_snoc; [apply Hinc | exact Hlt].
Qed.

End CreateThenList.

(** X18 on the shop and its pending build. *)
Lemma ListVersions_newest_first_witness :
  let rows := [Version.Build "v4" "a1" 4 "pending" None None None None None 30; build3] in
  Permutation rows (versions_of "a1" (db pending_world))
  ∧ Forall (λ v, Version.AppID v = "a1") rows
  ∧ StronglySorted (key_ge Version.VersionNumber) rows
  ∧ (numbers_increasing (db pending_world) →
     rows = rev (versions_of "a1" (db pending_world))).
Proof.
  apply (ListVersions_newest_first healthy "a1" (db pending_world)).
  reflexivity.
Defined.

(** X19 on the shop. *)
Lemma CreateVersion_then_ListVersions_witness :
  ∃ v w' rows,
    CreateVersion calm "v4" 30 "a1" shop_world = (inl v, w')
    ∧ ListVersions healthy "a1" (db shop_world) = inl rows
    ∧ ListVersions healthy "a1" (db w') = inl (v :: rows).
Proof.
  apply (CreateVersion_then_ListVersions calm healthy "v4" 30%Z "a1" shop_world 4%Z).
  - intros tr stmt. reflexivity.
  - reflexivity.
  - intros appID. unfold versions_of, shop_world.
    cbn [db versions List.filter].
    destruct (String.eqb (Version.AppID build3) appID); repeat constructor.
  - repeat constructor; cbn; lia.
  - lia.
Defined.

End ListFacts.

(** ** Properties of the application service on the store *)

Module AppStoreFacts.
Import Bytes Errors Store Ops VersionService Scenario Frames Scenario2.
Import MoreStore MoreAppService AppService.
Import VersionMoreFacts ListFacts.

Lemma addressed_true (appID : string) (owner : option string) (a : App.t) :
  addressed appID owner a = true
  ↔ App.ID a = appID ∧ ∀ userID, owner = Some userID → App.UserID a = userID.
Proof.
  unfold addressed. rewrite andb_true_iff, String.eqb_eq.
  destruct owner as [u|].
  - rewrite String.eqb_eq. split; intros [H1 H2]; split; auto.
    now intros ? [= <-].
  - split; intros [H1 _]; split; auto. discriminate.
Qed.

Lemma without_project_fields (a : App.t) :
  App.ID (without_project a) = App.ID a
  ∧ App.UserID (without_project a) = App.UserID a
  ∧ App.VercelProjectID (without_project a) = None.
Proof. now destruct a. Qed.

Section WithOutside.
Variable out : Outside.

(** X20: [GetApp] returns an application only to its owner: a
    result is a stored row with the identifier and the user asked for,
    and it never carries the platform project of the application,
    which the query does not select. *)
Theorem GetApp_owner_only :
  ∀ (appID userID : string) (d : DB) (a : App.t),
    GetApp out appID userID d = inl a →
    App.ID a = appID ∧ App.UserID a = userID
    ∧ App.VercelProjectID a = None
    ∧ ∃ row, In row (apps d) ∧ a = without_project row.
Proof.
  intros appID userID d a. unfold GetApp.
  destruct (exec_fault out _); [discriminate|].
  destruct (List.find _ (apps d)) as [row|] eqn:E; [|discriminate].
  intros [= <-]. apply find_some in E as [Hin Hhit].
  apply addressed_true in Hhit as [Hid Hu].
  destruct (without_project_fields row) as (-> & -> & ->).
  repeat split; eauto.
Qed.

End WithOutside.

(** X20 on the shop. *)
Lemma GetApp_owner_only_witness :
  App.ID (without_project shop) = "a1" ∧ App.UserID (without_project shop) = "u1"
  ∧ App.VercelProjectID (without_project shop) = None
  ∧ ∃ row, In row (apps (db shop_world)) ∧ without_project shop = without_project row.
Proof.
  apply (GetApp_owner_only healthy "a1" "u1" (db shop_world) (without_project shop)).
  reflexivity.
Defined.

Lemma find_same {A : Type} (f g : A → bool) (l : list A) :
  (∀ x, f x = g x) → List.find f l = List.find g l.
Proof.
  intros H. induction l as [|x r IH]; [reflexivity|]. simpl. now rewrite H, IH.
Qed.

Lemma assign_app_outside (x : AppAssignment) (a : App.t) :
  app_outside_update (assign_app x a) = app_outside_update a.
Proof. now destruct a, x. Qed.

Lemma update_app_outside (now : Z) (sets : list AppAssignment) (a : App.t) :
  app_outside_update (update_app now sets a) = app_outside_update a.
Proof.
  unfold update_app.
  assert (H : ∀ b, app_outside_update (fold_left (λ a s, assign_app s a) sets b)
                   = app_outside_update b).
  { induction sets as [|x r IH]; intros b; [reflexivity|].
    simpl. now rewrite IH, assign_app_outside. }
  rewrite H. now destruct a.
Qed.

Lemma update_app_addressed (now : Z) (sets : list AppAssignment) (appID : string)
      (owner : option string) (a : App.t) :
  addressed appID owner (update_app now sets a) = addressed appID owner a.
Proof.
  pose proof (update_app_outside now sets a) as H. unfold app_outside_update in H.
  unfold addressed. injection H as -> -> _. reflexivity.
Qed.

Lemma returned_by_update_fields (a : App.t) :
  App.DisplayName (returned_by_update a) = None
  ∧ App.Category (returned_by_update a) = None
  ∧ App.ColorScheme (returned_by_update a) = None
  ∧ App.Logo (returned_by_update a) = None
  ∧ App.ProductionURL (returned_by_update a) = None
  ∧ App.VercelProjectID (returned_by_update a) = None.
Proof. now destruct a. Qed.

Section UpdateAndDelete.
Variable out : Outside.

(** X22: unlike [UpdateVersion], [UpdateApp] does not refuse an
    update map without a recognized field: on a row it addresses it
    succeeds and writes [updated_at] alone. *)
Theorem UpdateApp_without_fields :
  ∀ (now : Z) (appID userID : string) (updates : gmap string Value) (d : DB)
    (a : App.t),
    appClauses updates = [] →
    let owner := if String.eqb userID "" then None else Some userID in
    exec_fault out (UpdateApps now [] appID owner) = None →
    List.find (addressed appID owner) (apps d) = Some a →
    UpdateApp out now appID userID updates d
    = (inl (returned_by_update (touch now a)),
       {| apps := List.map (λ a, if addressed appID owner a then touch now a else a)
                    (apps d);
          versions := versions d; users := users d |}).
Proof.
  intros now appID userID updates d a Hnone owner Hok Hfind.
  unfold UpdateApp. fold owner. rewrite Hnone, Hok, Hfind. reflexivity.
Qed.

(** X23: [UpdateApp] checks the owner only when it is given one.
    With a user that owns no application of that identifier it fails
    and leaves the store as it was; with the empty user it updates the
    application of that identifier whoever owns it: it returns the
    updated row, and in the store every row of that identifier, and no
    other row, carries the update. *)
Theorem UpdateApp_ownership :
  ∀ (now : Z) (appID userID : string) (updates : gmap string Value) (d : DB),
    (userID ≠ "" →
     (∀ a, In a (apps d) → App.ID a = appID → App.UserID a ≠ userID) →
     ∃ e, UpdateApp out now appID userID updates d = (inr e, d))
    ∧ (∀ a, exec_fault out (UpdateApps now (appClauses updates) appID None) = None →
            find_app appID d = Some a →
            UpdateApp out now appID "" updates d
            = (inl (returned_by_update (update_app now (appClauses updates) a)),
               {| apps := List.map (λ x, if String.eqb (App.ID x) appID
                                         then update_app now (appClauses updates) x
                                         else x) (apps d);
                  versions := versions d; users := users d |})
            ∧ find_app appID (snd (UpdateApp out now appID "" updates d))
              = Some (update_app now (appClauses updates) a)).
Proof.
  intros now appID userID updates d. split.
  - intros Hne Hnot. unfold UpdateApp.
    apply String.eqb_neq in Hne. rewrite Hne.
    destruct (exec_fault out _); [eauto|].
    destruct (List.find _ (apps d)) as [a|] eqn:E; [|eauto].
    apply find_some in E as [Hin Hhit]. apply addressed_true in Hhit as [Hid Hu].
    destruct (Hnot a Hin Hid). now apply Hu.
  - intros a Hok Hfind. unfold UpdateApp. cbn [String.eqb]. rewrite Hok.
    assert (E : List.find (addressed appID None) (apps d) = Some a).
    { unfold find_app in Hfind. rewrite <- Hfind. apply find_same.
      intros x. unfold addressed. apply andb_true_r. }
    rewrite E.
    assert (Hrows : List.map (λ x, if addressed appID None x
                                   then update_app now (appClauses updates) x else x)
                      (apps d)
                    = List.map (λ x, if String.eqb (App.ID x) appID
                                     then update_app now (appClauses updates) x else x)
                        (apps d)).
    { apply List.map_ext. intros x. unfold addressed. now rewrite andb_true_r. }
    rewrite Hrows. split; [reflexivity|].
    cbn [snd]. unfold find_app in *. cbn [apps]. clear E Hrows Hok.
    induction (apps d) as [|x r IH]; [discriminate|]. simpl in *.
    destruct (String.eqb (App.ID x) appID) eqn:Ex.
    + injection Hfind as ->. simpl.
      pose proof (update_app_addressed now (appClauses updates) appID None a) as Ha.
      unfold addressed in Ha. rewrite !andb_true_r, Ex in Ha. now rewrite Ha.
    + simpl. rewrite Ex. now apply IH.
Qed.

(** X24: whatever its outcome, [UpdateApp] writes to no table but
    [apps], creates and deletes no row, and in no row changes the
    identifier, the owner, the display name, the category, the color,
    the logo, the production host name, the project or the creation
    time; and the record it returns on success carries none of display
    name, category, color, logo, host name and project. *)
Theorem UpdateApp_frame :
  ∀ (now : Z) (appID userID : string) (updates : gmap string Value) (d : DB),
    let d' := snd (UpdateApp out now appID userID updates d) in
    versions d' = versions d ∧ users d' = users d
    ∧ List.map app_outside_update (apps d') = List.map app_outside_update (apps d)
    ∧ other_apps appID d' = other_apps appID d
    ∧ ∀ a, fst (UpdateApp out now appID userID updates d) = inl a →
           App.DisplayName a = None ∧ App.Category a = None
           ∧ App.ColorScheme a = None ∧ App.Logo a = None
           ∧ App.ProductionURL a = None ∧ App.VercelProjectID a = None.
Proof.
  intros now appID userID updates d. unfold UpdateApp.
  set (owner := if String.eqb userID "" then None else Some userID).
  destruct (exec_fault out _); [cbn; repeat split; discriminate|].
  destruct (List.find _ (apps d)) as [a|]; [|cbn; repeat split; discriminate].
  cbn [fst snd versions users apps]. unfold other_apps. cbn [apps].
  split; [reflexivity|]. split; [reflexivity|]. split; [|split].
  - apply map_keys_kept. intros x. apply update_app_outside.
  - induction (apps d) as [|x r IH]; [reflexivity|]. simpl.
    destruct (addressed appID owner x) eqn:Ex.
    + pose proof (update_app_addressed now (appClauses updates) appID owner x) as Hx.
      rewrite Ex in Hx. apply addressed_true in Hx as [Hid _].
      apply addressed_true in Ex as [Hid' _].
      rewrite Hid, Hid', String.eqb_refl. simpl. exact IH.
    + destruct (String.eqb (App.ID x) appID); simpl; now rewrite IH.
  - intros b [= <-]. apply returned_by_update_fields.
Qed.

(** X25: [DeleteApp] deletes for the owner only.  For a user that
    owns no application of that identifier it fails with "app not
    found" and leaves the store as it was; for the owner it succeeds,
    after which [GetApp] no longer finds the application, while the
    applications of other identifiers stay. *)
Theorem DeleteApp_owner_only :
  ∀ (appID userID : string) (d : DB),
    exec_fault out (DeleteApps appID userID) = None →
    ((∀ a, In a (apps d) → App.ID a = appID → App.UserID a ≠ userID) →
     DeleteApp out appID userID d = (inr (Errorf "app not found"), d))
    ∧ (∀ a, List.find (addressed appID (Some userID)) (apps d) = Some a →
         ∃ d', DeleteApp out appID userID d = (inl tt, d')
               ∧ (∃ e, GetApp out appID userID d' = inr e)
               ∧ other_apps appID d' = other_apps appID d
               ∧ users d' = users d).
Proof.
  intros appID userID d Hok. unfold DeleteApp. rewrite Hok. split.
  - intros Hnot.
    assert (E : List.filter (addressed appID (Some userID)) (apps d) = []).
    { induction (apps d) as [|x r IH]; [reflexivity|]. simpl.
      destruct (addressed appID (Some userID) x) eqn:Ex.
      - apply addressed_true in Ex as [Hid Hu].
        destruct (Hnot x (or_introl eq_refl) Hid). now apply Hu.
      - apply IH. intros a Ha. apply Hnot. now right. }
    now rewrite E.
  - intros a Hfind.
    assert (Hlen : (0 < length (List.filter (addressed appID (Some userID)) (apps d)))%nat).
    { apply find_some in Hfind as [Hin Hhit].
      assert (Hf : In a (List.filter (addressed appID (Some userID)) (apps d)))
        by (apply filter_In; auto).
      destruct (List.filter _ (apps d)); [destruct Hf | simpl; lia]. }
    destruct (_ =? 0)%Z eqn:E; [apply Z.eqb_eq in E; lia|].
    eexists. split; [reflexivity|]. split; [|split; [|reflexivity]].
    + unfold GetApp. destruct (exec_fault out (SelectApp appID userID)); [eauto|].
      cbn [apps]. rewrite find_filtered. eauto.
    + unfold other_apps. cbn [apps]. clear Hfind Hlen E.
      induction (apps d) as [|x r IH]; [reflexivity|]. simpl.
      destruct (addressed appID (Some userID) x) eqn:Ex; simpl.
      * apply addressed_true in Ex as [-> _]. rewrite String.eqb_refl. simpl. exact IH.
      * destruct (String.eqb (App.ID x) appID); simpl; now rewrite IH.
Qed.

End UpdateAndDelete.

(** X22 on the shop: an empty update by the owner. *)
Lemma UpdateApp_without_fields_witness :
  UpdateApp healthy 7 "a1" "u1" ∅ (db shop_world)
  = (inl (returned_by_update (touch 7 shop)),
     {| apps := List.map (λ a, if addressed "a1" (Some "u1") a then touch 7 a else a)
                  (apps (db shop_world));
        versions := versions (db shop_world); users := users (db shop_world) |}).
Proof.
  apply (UpdateApp_without_fields healthy 7%Z "a1" "u1" ∅ (db shop_world) shop);
    reflexivity.
Defined.

(** X23 on the shop: a stranger is refused, the empty user renames. *)
Lemma UpdateApp_ownership_witness :
  (∃ e, UpdateApp healthy 7 "a1" "u2" {["name" := VString "Store"]} (db shop_world)
        = (inr e, db shop_world))
  ∧ fst (UpdateApp healthy 7 "a1" "" {["name" := VString "Store"]} (db shop_world))
    = inl (returned_by_update
             (update_app 7 (appClauses {["name" := VString "Store"]}) shop))
  ∧ App.Name <$> find_app "a1" (snd (UpdateApp healthy 7 "a1" ""
                                        {["name" := VString "Store"]} (db shop_world)))
    = Some "Store".
Proof.
  destruct (UpdateApp_ownership healthy 7%Z "a1" "u2" {["name" := VString "Store"]}
              (db shop_world)) as [Hstranger Hnobody].
  split.
  - apply Hstranger; [discriminate|].
    intros a [<-|[]] _. discriminate.
  - destruct (Hnobody shop eq_refl eq_refl) as [Hcall Hrow].
    split; [now rewrite Hcall | now rewrite Hrow].
Defined.

(** X24 on the shop: a rename by the owner. *)
Lemma UpdateApp_frame_witness :
  let d' := snd (UpdateApp healthy 7 "a1" "u1" {["name" := VString "Store"]}
                   (db shop_world)) in
  App.Name <$> apps d' = ["Store"]
  ∧ List.map app_outside_update (apps d')
    = List.map app_outside_update (apps (db shop_world))
  ∧ App.Logo (returned_by_update
                (update_app 7 (appClauses {["name" := VString "Store"]}) shop)) = None.
Proof.
  destruct (UpdateApp_frame healthy 7%Z "a1" "u1" {["name" := VString "Store"]}
              (db shop_world)) as (_ & _ & Hcols & _ & Hret).
  split; [reflexivity|]. split; [exact Hcols|].
  now destruct (Hret _ eq_refl) as (_ & _ & _ & Hlogo & _).
Defined.

(** X25 on the shop: a stranger deletes nothing, the owner does. *)
Lemma DeleteApp_owner_only_witness :
  DeleteApp healthy "a1" "u2" (db shop_world)
  = (inr (Errorf "app not found"), db shop_world)
  ∧ ∃ d', DeleteApp healthy "a1" "u1" (db shop_world) = (inl tt, d')
          ∧ (∃ e, GetApp healthy "a1" "u1" d' = inr e)
          ∧ other_apps "a1" d' = other_apps "a1" (db shop_world)
          ∧ users d' = users (db shop_world).
Proof.
  split.
  - apply (DeleteApp_owner_only healthy "a1" "u2" (db shop_world) eq_refl).
    intros a [<-|[]] _. discriminate.
  - apply (proj2 (DeleteApp_owner_only healthy "a1" "u1" (db shop_world) eq_refl) shop).
    reflexivity.
Defined.

Section Listing.
Variable out : Outside.

Lemma ListApps_rows (userID : string) (d : DB) (rows : list App.t) :
  ListApps out userID d = inl rows →
  rows = List.map without_project
           (order_by_desc App.CreatedAt
              (List.filter (λ a, String.eqb (App.UserID a) userID) (apps d))).
Proof.
  unfold ListApps.
  destruct (rows_fault out _) as [[e|e|e]|]; try discriminate.
  - destruct (List.map _ _); [now intros [= <-] | discriminate].
  - now intros [= <-].
Qed.

Lemma sorted_without_project (l : list App.t) :
  StronglySorted (key_ge App.CreatedAt) l →
  StronglySorted (key_ge App.CreatedAt) (List.map without_project l).
Proof.
  induction 1 as [|x r Hs IH Hx]; simpl; constructor; [exact IH|].
  apply List.Forall_forall. intros y Hy. apply in_map_iff in Hy as (z & <- & Hz).
  rewrite List.Forall_forall in Hx. specialize (Hx z Hz).
  unfold key_ge in *. now destruct x, z.
Qed.

(** X26: when [ListApps] succeeds it returns the applications of the
    user, all of them and no other, each once and without its platform
    project, the most recently created first. *)
Theorem ListApps_of_owner :
  ∀ (userID : string) (d : DB) (rows : list App.t),
    ListApps out userID d = inl rows →
    Permutation rows
      (List.map without_project
         (List.filter (λ a, String.eqb (App.UserID a) userID) (apps d)))
    ∧ Forall (λ a, App.UserID a = userID ∧ App.VercelProjectID a = None) rows
    ∧ StronglySorted (key_ge App.CreatedAt) rows.
Proof.
  intros userID d rows H. apply ListApps_rows in H as ->.
  split; [|split].
  - apply Permutation_map, order_by_desc_perm.
  - apply List.Forall_forall. intros a Ha. apply in_map_iff in Ha as (row & <- & Hrow).
    apply (Permutation_in _ (order_by_desc_perm App.CreatedAt _)) in Hrow.
    apply filter_In in Hrow as [_ Hu]. apply String.eqb_eq in Hu.
    destruct (without_project_fields row) as (_ & -> & ->). now split.
  - apply sorted_without_project, order_by_desc_sorted.
Qed.

End Listing.

(** X26 on the shop. *)
Lemma ListApps_of_owner_witness :
  Permutation [without_project shop]
    (List.map without_project
       (List.filter (λ a, String.eqb (App.UserID a) "u1") (apps (db shop_world))))
  ∧ Forall (λ a, App.UserID a = "u1" ∧ App.VercelProjectID a = None)
      [without_project shop]
  ∧ StronglySorted (key_ge App.CreatedAt) [without_project shop].
Proof.
  apply (ListApps_of_owner healthy "u1" (db shop_world)). reflexivity.
Defined.

End AppStoreFacts.

(** ** Properties of the logo pipeline *)

Module LogoFacts.
Import Bytes Errors Store Ops Scenario Frames MoreStore MoreAppService LogoService.
Import VersionMoreFacts.

Lemma set_logo_outside (logo : string) (now : Z) (a : App.t) :
  app_outside_logo (set_logo logo now a) = app_outside_logo a.
Proof. now destruct a. Qed.

Lemma update_logo_outside (logo : string) (now : Z) (appID : string) (d : DB) :
  List.map app_outside_logo (apps (update_logo logo now appID d))
  = List.map app_outside_logo (apps d).
Proof.
  unfold update_logo. cbn [apps]. rewrite List.map_map. apply List.map_ext.
  intros a. destruct (String.eqb (App.ID a) appID); [apply set_logo_outside | reflexivity].
Qed.

Lemma update_logo_missing (logo : string) (now : Z) (appID : string) (d : DB) :
  (∀ a, In a (apps d) → App.ID a ≠ appID) →
  update_logo logo now appID d = d.
Proof.
  intros H. unfold update_logo. destruct d as [l vs us]. cbn [apps versions users] in *.
  f_equal. induction l as [|a r IH]; [reflexivity|]. simpl.
  destruct (String.eqb (App.ID a) appID) eqn:E.
  - apply String.eqb_eq in E. destruct (H a (or_introl eq_refl) E).
  - f_equal. apply IH. intros x Hx. apply H. now right.
Qed.

Lemma commands_snoc (es : list Effect) (e : Effect) :
  commands (es ++ [e])
  = (commands es ++ match e with Run argv _ => [argv] | _ => [] end)%list.
Proof.
  unfold commands. rewrite flat_map_app. simpl. now rewrite app_nil_r.
Qed.

Ltac stages :=
  lazy beta iota zeta delta [generateAndUploadLogo printf effect store objects effects];
  rewrite ?commands_snoc, ?app_nil_r.

Ltac uploaded imageURL imageData Hd :=
  right; exists imageURL, imageData;
  split; [reflexivity | split; [exact Hd | reflexivity]].

Ltac quiet :=
  split; [left; reflexivity|]; split; [left; reflexivity|];
  split; [left; reflexivity | reflexivity].

Section WithMedia.
Variable m : Media.
Variable out : Outside.

(** The store after the pipeline: as it was, or with the logo. *)
Lemma logo_store (now : Z) (appID appName category colorScheme : string) (s : Site) :
  let s' := generateAndUploadLogo m out now appID appName category colorScheme s in
  store s' = store s
  ∨ store s' = update_logo (logo_url m appID) now appID (store s).
Proof.
  destruct s as [d objs es]. stages.
  destruct (GenerateLogo m _ _ _) as [imageURL|e1]; [|now left].
  destruct (DownloadImage m imageURL) as [imageData|e2]; [|now left].
  destruct (PutObject m _) as [e3|]; [now left|].
  destruct (exec_fault out _) as [e4|]; [now left|].
  destruct (run m _ _) as [[e5|] stderr]; now right.
Qed.

(** X27: the logo pipeline goes by stages, each only after the one
    before.  It adds to the bucket at most the object of the
    application, and only with the bytes it downloaded from the address
    the image service gave; it writes to the store only after that
    upload, and only the address of that object into the logo of the
    application; it runs the registry command only after that write.
    In no row does it change a column but [logo] and [updated_at]. *)
Theorem logo_pipeline_stages :
  ∀ (now : Z) (appID appName category colorScheme : string) (s : Site),
    let s' := generateAndUploadLogo m out now appID appName category colorScheme s in
    let written := update_logo (logo_url m appID) now appID (store s) in
    (objects s' = objects s
     ∨ ∃ imageURL imageData,
         GenerateLogo m appName category colorScheme = inl imageURL
         ∧ DownloadImage m imageURL = inl imageData
         ∧ objects s' = (objects s ++ [logo_object m appID imageData])%list)
    ∧ (store s' = store s
       ∨ objects s' ≠ objects s ∧ store s' = written)
    ∧ (commands (effects s') = commands (effects s)
       ∨ store s' = written
         ∧ commands (effects s')
           = (commands (effects s)
              ++ [["app-manager"; "update"; appID; "--name"; appName; "--logo";
                   logo_url m appID]])%list)
    ∧ List.map app_outside_logo (apps (store s'))
      = List.map app_outside_logo (apps (store s)).
Proof.
  intros now appID appName category colorScheme [d objs es]. stages.
  destruct (GenerateLogo m _ _ _) as [imageURL|e1] eqn:Hg; cbn [store objects effects];
    rewrite ?commands_snoc, ?app_nil_r; [|quiet].
  destruct (DownloadImage m imageURL) as [imageData|e2] eqn:Hd; cbn [store objects effects];
    rewrite ?commands_snoc, ?app_nil_r; [|quiet].
  destruct (PutObject m _) as [e3|]; cbn [store objects effects];
    rewrite ?commands_snoc, ?app_nil_r; [quiet|].
  assert (Hnew : (objs ++ [logo_object m appID imageData])%list ≠ objs).
  { intros H. apply (f_equal (@length _)) in H. rewrite length_app in H. simpl in H. lia. }
  destruct (exec_fault out _) as [e4|]; cbn [store objects effects];
    rewrite ?commands_snoc, ?app_nil_r.
  { split; [uploaded imageURL imageData Hd|].
    split; [left; reflexivity|]. split; [left; reflexivity | reflexivity]. }
  destruct (run m _ _) as [[e5|] stderr]; cbn [store objects effects];
    rewrite ?commands_snoc, ?app_nil_r.
  all: split; [uploaded imageURL imageData Hd|];
    split; [right; split; [exact Hnew | reflexivity]|];
    split; [right; split; reflexivity | apply update_logo_outside].
Qed.

(** X28: when the upload went through and the store then fails the
    statement, the pipeline stops: the object stays in the bucket, no
    row points to it, and the registry is not told. *)
Theorem logo_store_failure_leaves_object :
  ∀ (now : Z) (appID appName category colorScheme imageURL imageData : string)
    (e : error) (s : Site),
    GenerateLogo m appName category colorScheme = inl imageURL →
    DownloadImage m imageURL = inl imageData →
    PutObject m (logo_object m appID imageData) = None →
    exec_fault out (UpdateLogo (logo_url m appID) now appID) = Some e →
    let s' := generateAndUploadLogo m out now appID appName category colorScheme s in
    objects s' = (objects s ++ [logo_object m appID imageData])%list
    ∧ store s' = store s
    ∧ commands (effects s') = commands (effects s)
    ∧ last (effects s')
      = Some (Printf ("[Logo] Failed to update PostgreSQL for app " +:+ appID +:+ ": "
                      +:+ Error e)).
Proof.
  intros now appID appName category colorScheme imageURL imageData e [d objs es]
         Hg Hd Hp Hx.
  stages. rewrite Hg. cbn [store objects effects]. rewrite Hd.
  cbn [store objects effects]. fold (logo_object m appID imageData). rewrite Hp.
  cbn [store objects effects]. fold (logo_url m appID). rewrite Hx.
  cbn [store objects effects]. rewrite ?commands_snoc, ?app_nil_r.
  split; [reflexivity|]. split; [reflexivity|]. split; [reflexivity|]. apply last_snoc.
Qed.

(** X29: the pipeline never checks that the application exists.
    When no row carries the identifier and every service answers, the
    store stays as it was, yet the object is uploaded, the registry
    command is run and the pipeline reports its success. *)
Theorem logo_of_missing_app :
  ∀ (now : Z) (appID appName category colorScheme imageURL imageData stderr : string)
    (s : Site),
    (∀ a, In a (apps (store s)) → App.ID a ≠ appID) →
    GenerateLogo m appName category colorScheme = inl imageURL →
    DownloadImage m imageURL = inl imageData →
    PutObject m (logo_object m appID imageData) = None →
    exec_fault out (UpdateLogo (logo_url m appID) now appID) = None →
    run m ["app-manager"; "update"; appID; "--name"; appName; "--logo";
           logo_url m appID]
        (Environ m ++
           ["PATH=/home/ubuntu/.local/share/pnpm:/usr/local/bin:/usr/bin:/bin"])%list
    = (None, stderr) →
    let s' := generateAndUploadLogo m out now appID appName category colorScheme s in
    store s' = store s
    ∧ objects s' = (objects s ++ [logo_object m appID imageData])%list
    ∧ commands (effects s')
      = (commands (effects s)
         ++ [["app-manager"; "update"; appID; "--name"; appName; "--logo";
              logo_url m appID]])%list
    ∧ last (effects s')
      = Some (Printf ("[Logo] Successfully completed logo generation for app "
                      +:+ appID)).
Proof.
  intros now appID appName category colorScheme imageURL imageData stderr [d objs es]
         Hmiss Hg Hd Hp Hx Hr.
  stages. rewrite Hg. cbn [store objects effects]. rewrite Hd.
  cbn [store objects effects]. fold (logo_object m appID imageData). rewrite Hp.
  cbn [store objects effects]. fold (logo_url m appID). rewrite Hx.
  cbn [store objects effects]. rewrite Hr. cbn [store objects effects].
  rewrite ?commands_snoc, ?app_nil_r.
  split; [now apply update_logo_missing|]. split; [reflexivity|].
  split; [reflexivity|]. apply last_snoc.
Qed.

End WithMedia.

(** X28 on the shop, with a store that refuses the logo. *)
Lemma logo_store_failure_leaves_object_witness :
  let s' := generateAndUploadLogo studio store_refuses_logo 40 "a1" "Shop" "ecommerce"
              "teal" (site_of (db shop_world)) in
  objects s' = (objects (site_of (db shop_world)) ++ [logo_object studio "a1" "PNG"])%list
  ∧ store s' = store (site_of (db shop_world))
  ∧ commands (effects s') = commands (effects (site_of (db shop_world)))
  ∧ last (effects s')
    = Some (Printf ("[Logo] Failed to update PostgreSQL for app " +:+ "a1" +:+ ": "
                    +:+ Error (errorString "connection refused"))).
Proof.
  apply (logo_store_failure_leaves_object studio store_refuses_logo 40%Z "a1" "Shop"
           "ecommerce" "teal" "https://im.runware.ai/logo.png" "PNG"
           (errorString "connection refused") (site_of (db shop_world)));
    reflexivity.
Defined.

(** X29 on an empty store. *)
Lemma logo_of_missing_app_witness :
  let s := site_of (db empty_world) in
  let s' := generateAndUploadLogo studio store_answers 40 "a9" "Shop" "ecommerce"
              "teal" s in
  store s' = store s
  ∧ objects s' = (objects s ++ [logo_object studio "a9" "PNG"])%list
  ∧ commands (effects s')
    = (commands (effects s)
       ++ [["app-manager"; "update"; "a9"; "--name"; "Shop"; "--logo";
            logo_url studio "a9"]])%list
  ∧ last (effects s')
    = Some (Printf ("[Logo] Successfully completed logo generation for app "
                    +:+ "a9")).
Proof.
  apply (logo_of_missing_app studio store_answers 40%Z "a9" "Shop" "ecommerce" "teal"
           "https://im.runware.ai/logo.png" "PNG" "" (site_of (db empty_world)));
    [intros a [] | reflexivity..].
Defined.

End LogoFacts.

(** ** Properties of the lookup of a deployment *)

Module LookupFacts.
Import Bytes Errors Store Ops MoreVercelService UtilsFacts FenceFacts.

Lemma Split_head (host rest : string) :
  all_bytes host_byte host = true →
  hd "" (Split (host +:+ "/" +:+ rest) "/") = host ∧ hd "" (Split host "/") = host.
Proof.
  induction host as [|c host IH]; [now split|].
  cbn [all_bytes]. intros H. apply andb_prop in H as [Hc Hr].
  destruct (IH Hr) as [IH1 IH2]. rewrite append_cons. cbn [Split].
  assert (E : Ascii.eqb c "/" = false).
  { unfold host_byte in Hc. apply andb_prop in Hc as [Hc _].
    now apply negb_true_iff in Hc. }
  rewrite E. split.
  - destruct (Split (host +:+ "/" +:+ rest) "/"); simpl in *; now subst.
  - destruct (Split host "/"); simpl in *; now subst.
Qed.

Ltac walk H :=
  repeat match goal with
         | |- String.prefix _ (?h +:+ _) = false =>
             destruct h as [|? ?];
             [ rewrite append_nil_l
             | rewrite append_cons; cbn [all_bytes] in H;
               apply andb_prop in H as [? H] ]
         | |- context [ascii_dec ?a ?b] => destruct (ascii_dec a b); [subst|reflexivity]
         | |- _ => progress cbn [String.prefix]
         end.

Lemma no_scheme (scheme host rest : string) :
  scheme = "https://" ∨ scheme = "http://" →
  all_bytes host_byte host = true →
  rest = "" ∨ (∃ r, rest = "/" +:+ r) →
  String.prefix scheme (host +:+ rest) = false.
Proof.
  intros [-> | ->] H Hrest.
  all: walk H.
  all: try discriminate.
  all: try (destruct Hrest as [-> | [r ->]]; cbn [String.prefix];
            try reflexivity;
            match goal with
            | |- context [ascii_dec ?a ?b] =>
                destruct (ascii_dec a b); [discriminate | reflexivity]
            end).
Qed.

Lemma requested_host (host rest u : string) :
  all_bytes host_byte host = true →
  rest = "" ∨ (∃ r, rest = "/" +:+ r) →
  u = host +:+ rest ∨ u = "https://" +:+ host +:+ rest ∨ u = "http://" +:+ host +:+ rest →
  hd "" (Split (GeminiService.TrimPrefix (GeminiService.TrimPrefix u "https://")
                  "http://") "/") = host.
Proof.
  intros H Hrest Hu.
  assert (Hhead : hd "" (Split (host +:+ rest) "/") = host).
  { destruct Hrest as [-> | [r ->]].
    - rewrite append_nil_r. now apply Split_head.
    - now apply Split_head. }
  assert (Hplain : GeminiService.TrimPrefix (host +:+ rest) "http://" = host +:+ rest).
  { unfold GeminiService.TrimPrefix. now rewrite no_scheme; auto. }
  destruct Hu as [-> | [-> | ->]].
  - replace (GeminiService.TrimPrefix (host +:+ rest) "https://") with (host +:+ rest).
    + now rewrite Hplain.
    + unfold GeminiService.TrimPrefix. now rewrite no_scheme; auto.
  - rewrite TrimPrefix_append. now rewrite Hplain.
  - replace (GeminiService.TrimPrefix ("http://" +:+ host +:+ rest) "https://")
      with ("http://" +:+ host +:+ rest) by reflexivity.
    rewrite TrimPrefix_append. exact Hhead.
Qed.

Section WithPlatform.
Variable p : Platform.

(** X30: the lookup asks the platform for the host of the address.
    For a host name without slash and colon it gives one answer
    whether the address comes with [https://], with [http://] or
    without a scheme, with a path or without one; and an identifier it
    returns is never empty. *)
Theorem GetDeploymentIDByURL_by_host :
  ∀ (host path : string),
    all_bytes host_byte host = true →
    let answer := GetDeploymentIDByURL p host in
    GetDeploymentIDByURL p ("https://" +:+ host) = answer
    ∧ GetDeploymentIDByURL p ("http://" +:+ host) = answer
    ∧ GetDeploymentIDByURL p (host +:+ "/" +:+ path) = answer
    ∧ GetDeploymentIDByURL p ("https://" +:+ host +:+ "/" +:+ path) = answer
    ∧ GetDeploymentIDByURL p ("http://" +:+ host +:+ "/" +:+ path) = answer
    ∧ ∀ (deploymentURL ID : string),
        GetDeploymentIDByURL p deploymentURL = inl ID → ID ≠ "".
Proof.
  intros host path H. cbv zeta.
  assert (Hsame : ∀ u rest,
             rest = "" ∨ (∃ r, rest = "/" +:+ r) →
             u = host +:+ rest ∨ u = "https://" +:+ host +:+ rest
             ∨ u = "http://" +:+ host +:+ rest →
             GetDeploymentIDByURL p u = GetDeploymentIDByURL p host).
  { intros u rest Hrest Hu. unfold GetDeploymentIDByURL.
    rewrite (requested_host host rest u H Hrest Hu).
    rewrite (requested_host host "" host H); auto.
    left. now rewrite append_nil_r. }
  split; [apply (Hsame _ ""); [now left | right; left; now rewrite append_nil_r]|].
  split; [apply (Hsame _ ""); [now left | right; right; now rewrite append_nil_r]|].
  split; [apply (Hsame _ ("/" +:+ path)); [right; eauto | now left]|].
  split; [apply (Hsame _ ("/" +:+ path)); [right; eauto | right; now left]|].
  split; [apply (Hsame _ ("/" +:+ path)); [right; eauto | right; now right]|].
  intros deploymentURL ID. unfold GetDeploymentIDByURL.
  destruct (vercel_get p _) as [err|[StatusCode body]]; [discriminate|].
  destruct (400 <=? StatusCode)%Z; [discriminate|].
  destruct (unmarshal_id p body) as [err|found]; [discriminate|].
  destruct (String.eqb found "") eqn:E; [discriminate|].
  intros [= <-]. now apply String.eqb_neq.
Qed.

End WithPlatform.

(** X30 on the address of the third build of the shop. *)
Lemma GetDeploymentIDByURL_by_host_witness :
  let answer := GetDeploymentIDByURL knows_build3 "shop-git-3.vercel.app" in
  GetDeploymentIDByURL knows_build3 ("https://" +:+ "shop-git-3.vercel.app") = answer
  ∧ GetDeploymentIDByURL knows_build3 ("http://" +:+ "shop-git-3.vercel.app") = answer
  ∧ GetDeploymentIDByURL knows_build3 ("shop-git-3.vercel.app" +:+ "/" +:+ "cart")
    = answer
  ∧ GetDeploymentIDByURL knows_build3
      ("https://" +:+ "shop-git-3.vercel.app" +:+ "/" +:+ "cart") = answer
  ∧ GetDeploymentIDByURL knows_build3
      ("http://" +:+ "shop-git-3.vercel.app" +:+ "/" +:+ "cart") = answer
  ∧ ∀ (deploymentURL ID : string),
      GetDeploymentIDByURL knows_build3 deploymentURL = inl ID → ID ≠ "".
Proof.
  apply (GetDeploymentIDByURL_by_host knows_build3 "shop-git-3.vercel.app" "cart").
  reflexivity.
Defined.

End LookupFacts.

(** ** The setup as a whole: creation, configuration and logo *)

Module LifecycleFacts.
Import Bytes Errors Store Ops Scenario Frames Scenario2 MoreStore MoreAppService.
Import AppService LogoService.
Import SetupFacts VersionMoreFacts SetupMoreFacts AppStoreFacts LogoFacts.

(** A rewriting [g] of rows that keeps the columns outside the setup,
    and the rows of other applications. *)
Lemma rewritten_columns (g : App.t → App.t) (l : list App.t) :
  (∀ a, app_outside_setup (g a) = app_outside_setup a) →
  List.map app_outside_setup (List.map g l) = List.map app_outside_setup l.
Proof.
  intros Hk. rewrite List.map_map. now apply List.map_ext.
Qed.

Lemma rewritten_id (g : App.t → App.t) (a : App.t) :
  app_outside_setup (g a) = app_outside_setup a → App.ID (g a) = App.ID a.
Proof.
  intros H. unfold app_outside_setup in H. now injection H.
Qed.

Lemma rewritten_user (g : App.t → App.t) (a : App.t) :
  app_outside_setup (g a) = app_outside_setup a → App.UserID (g a) = App.UserID a.
Proof.
  intros H. unfold app_outside_setup in H. now injection H.
Qed.

Lemma rewritten_others (appID : string) (g : App.t → App.t) (l : list App.t) :
  (∀ a, app_outside_setup (g a) = app_outside_setup a) →
  (∀ a, String.eqb (App.ID a) appID = false → g a = a) →
  List.filter (λ a, negb (String.eqb (App.ID a) appID)) (List.map g l)
  = List.filter (λ a, negb (String.eqb (App.ID a) appID)) l.
Proof.
  intros Hk Ho. induction l as [|a r IH]; [reflexivity|]. simpl.
  rewrite (rewritten_id g a (Hk a)), IH.
  destruct (String.eqb (App.ID a) appID) eqn:E; [reflexivity|].
  simpl. now rewrite (Ho a E).
Qed.

Lemma rewritten_find (g : App.t → App.t) (id : string) (owner : option string)
      (l : list App.t) :
  (∀ a, app_outside_setup (g a) = app_outside_setup a) →
  List.find (addressed id owner) (List.map g l)
  = option_map g (List.find (addressed id owner) l).
Proof.
  intros Hk. induction l as [|a r IH]; [reflexivity|]. simpl.
  unfold addressed at 1 3.
  rewrite (rewritten_id g a (Hk a)), (rewritten_user g a (Hk a)).
  destruct (String.eqb (App.ID a) id && _); [reflexivity | exact IH].
Qed.

Lemma outside_config_setup (a b : App.t) :
  app_outside_config a = app_outside_config b → app_outside_setup a = app_outside_setup b.
Proof. destruct a, b. unfold app_outside_config, app_outside_setup. simpl. congruence. Qed.

Lemma outside_logo_setup (a b : App.t) :
  app_outside_logo a = app_outside_logo b → app_outside_setup a = app_outside_setup b.
Proof. destruct a, b. unfold app_outside_logo, app_outside_setup. simpl. congruence. Qed.

Section WithServices.
Variable env : Env.
Variable MapToLower : string → string.
Variable m : Media.
Variable out : Outside.

(** What the configuration stage does to the rows. *)
Lemma setup_rows (now : Z) (appID userID description : string) (w : World) :
  let d := db (extractConfigAndSetupApp env MapToLower now appID userID description w) in
  versions d = versions (db w) ∧ users d = users (db w)
  ∧ ∃ g, apps d = List.map g (apps (db w))
         ∧ (∀ a, app_outside_config (g a) = app_outside_config a)
         ∧ (∀ a, String.eqb (App.ID a) appID = false → g a = a).
Proof.
  intros d.
  destruct (pipeline_tables env MapToLower now appID userID description w) as [Hv Hu].
  fold d in Hv, Hu. split; [exact Hv|]. split; [exact Hu|].
  pose proof (pipeline_cases env MapToLower now appID userID description w) as H.
  cbv zeta in H. fold d in H.
  destruct (db_fault env _ _) as [e|].
  - destruct H as [-> _]. exists (λ a, a).
    split; [now rewrite List.map_id|]. now split.
  - destruct H as (-> & _). eexists. split; [reflexivity|]. split.
    + intros a. destruct (String.eqb (App.ID a) appID); [|reflexivity].
      apply set_config_outside.
    + intros a Ha. now rewrite Ha.
Qed.

(** What the logo generation does to the rows. *)
Lemma logo_rows (now : Z) (appID appName category colorScheme : string) (s : Site) :
  let d := store (generateAndUploadLogo m out now appID appName category colorScheme s) in
  versions d = versions (store s) ∧ users d = users (store s)
  ∧ ∃ g, apps d = List.map g (apps (store s))
         ∧ (∀ a, app_outside_logo (g a) = app_outside_logo a)
         ∧ (∀ a, String.eqb (App.ID a) appID = false → g a = a).
Proof.
  intros d. subst d.
  destruct (logo_store m out now appID appName category colorScheme s) as [-> | ->].
  - split; [reflexivity|]. split; [reflexivity|]. exists (λ a, a).
    split; [now rewrite List.map_id|]. now split.
  - split; [reflexivity|]. split; [reflexivity|]. eexists.
    split; [reflexivity|]. split.
    + intros a. destruct (String.eqb (App.ID a) appID); [|reflexivity].
      apply set_logo_outside.
    + intros a Ha. now rewrite Ha.
Qed.

(** The two stages, one after the other. *)
Lemma whole_setup_rows (now later : Z) (appID userID description : string)
      (appName category colorScheme : string) (w : World)
      (objs : list PutObjectInput) (es : list Effect) :
  let d := db (extractConfigAndSetupApp env MapToLower now appID userID description w) in
  let d' := store (generateAndUploadLogo m out later appID appName category colorScheme
                     {| store := d; objects := objs; effects := es |}) in
  (versions d = versions (db w) ∧ users d = users (db w)
   ∧ ∃ g, apps d = List.map g (apps (db w))
          ∧ (∀ a, app_outside_setup (g a) = app_outside_setup a)
          ∧ (∀ a, String.eqb (App.ID a) appID = false → g a = a))
  ∧ (versions d' = versions (db w) ∧ users d' = users (db w)
     ∧ ∃ g, apps d' = List.map g (apps (db w))
            ∧ (∀ a, app_outside_setup (g a) = app_outside_setup a)
            ∧ (∀ a, String.eqb (App.ID a) appID = false → g a = a)).
Proof.
  intros d d'.
  destruct (setup_rows now appID userID description w)
    as (Hv & Hu & g1 & Hrows & Hk1 & Ho1). fold d in Hv, Hu, Hrows.
  destruct (logo_rows later appID appName category colorScheme
              {| store := d; objects := objs; effects := es |})
    as (Hv' & Hu' & g2 & Hrows' & Hk2 & Ho2). fold d' in Hv', Hu', Hrows'.
  cbn [store] in Hv', Hu', Hrows'.
  assert (K1 : ∀ a, app_outside_setup (g1 a) = app_outside_setup a)
    by (intros a; apply outside_config_setup, Hk1).
  assert (K2 : ∀ a, app_outside_setup (g2 a) = app_outside_setup a)
    by (intros a; apply outside_logo_setup, Hk2).
  split.
  - split; [exact Hv|]. split; [exact Hu|]. exists g1. auto.
  - split; [congruence|]. split; [congruence|]. exists (λ a, g2 (g1 a)).
    split; [now rewrite Hrows', Hrows, List.map_map|]. split.
    + intros a. now rewrite K2, K1.
    + intros a Ha. rewrite (Ho1 a Ha). now apply Ho2.
Qed.

(** X15: whatever happens, [extractConfigAndSetupApp] creates and
    deletes no row and writes to no table but [apps]; there it leaves
    the rows of other applications as they were and changes neither
    the owner, the description, the logo, the status, the production
    version, the project nor the creation time of a row.  The logo
    generation it starts writes the logo afterwards: once that has run
    too, whatever its outcome, the tables other than [apps] and the
    rows of other applications are still as they were, and in every
    row the owner, the description, the status, the production
    version, the project and the creation time: the setup as a whole
    does not move the application out of "building". *)
Theorem setup_frame :
  ∀ (now later : Z) (appID userID description appName category colorScheme : string)
    (w : World) (objs : list PutObjectInput) (es : list Effect),
    let d := db (extractConfigAndSetupApp env MapToLower now appID userID description w) in
    let d' := store (generateAndUploadLogo m out later appID appName category colorScheme
                       {| store := d; objects := objs; effects := es |}) in
    (versions d = versions (db w) ∧ users d = users (db w)
     ∧ List.map app_outside_config (apps d) = List.map app_outside_config (apps (db w))
     ∧ other_apps appID d = other_apps appID (db w))
    ∧ (versions d' = versions (db w) ∧ users d' = users (db w)
       ∧ List.map app_outside_setup (apps d') = List.map app_outside_setup (apps (db w))
       ∧ other_apps appID d' = other_apps appID (db w)).
Proof.
  intros now later appID userID description appName category colorScheme w objs es d d'.
  split.
  - destruct (setup_rows now appID userID description w)
      as (Hv & Hu & g & Hrows & Hk & Ho). fold d in Hv, Hu, Hrows.
    split; [exact Hv|]. split; [exact Hu|]. unfold other_apps. rewrite Hrows. split.
    + rewrite List.map_map. apply List.map_ext. exact Hk.
    + apply rewritten_others; [|exact Ho].
      intros a. apply outside_config_setup, Hk.
  - destruct (whole_setup_rows now later appID userID description appName category
                colorScheme w objs es) as (_ & Hv & Hu & g & Hrows & Hk & Ho).
    fold d d' in Hv, Hu, Hrows.
    split; [exact Hv|]. split; [exact Hu|]. unfold other_apps. rewrite Hrows. split.
    + now apply rewritten_columns.
    + now apply rewritten_others.
Qed.

Lemma without_project_setup (a : App.t) :
  App.VercelProjectID a = None →
  app_outside_setup (without_project a) = app_outside_setup a.
Proof. destruct a. simpl. now intros ->. Qed.

(** X21: a created application can be read back by its owner and by
    nobody else, before and after its setup.  With a store that
    answers and an identifier no stored application carries, [GetApp]
    for the owner returns the record [CreateApp] returned as long as
    the setup that [CreateApp] starts has not written.  Once the
    configuration stage of that setup has run, and once the logo
    generation has run after it, whatever their outcomes, [GetApp]
    for the owner still returns an application, with the identifier,
    the owner, the description, the status "building", no production
    version, no project and the creation time of the record returned;
    the other fields are those the setup wrote.  In each of these
    states [GetApp] for any other user fails with "app not found". *)
Theorem CreateApp_then_GetApp :
  ∀ (newID : string) (now : Z) (userID : string) (req : CreateAppRequest) (w : World)
    (later later' : Z) (tr : list Event) (appName category colorScheme : string)
    (objs : list PutObjectInput) (es : list Effect),
    (∀ a, db_fault env (trace w) (InsertApp a) = None) →
    (∀ other, exec_fault out (SelectApp newID other) = None) →
    find_app newID (db w) = None →
    ∃ app w',
      CreateApp env MapToLower newID now userID req w = (inl app, w')
      ∧ GetApp out newID userID (db w') = inl app
      ∧ let d := db (extractConfigAndSetupApp env MapToLower later newID userID
                       (Description req) {| db := db w'; trace := tr |}) in
        let d' := store (generateAndUploadLogo m out later' newID appName category
                           colorScheme {| store := d; objects := objs; effects := es |}) in
        (∀ after, after = d ∨ after = d' →
           ∃ app', GetApp out newID userID after = inl app'
                   ∧ app_outside_setup app' = app_outside_setup app
                   ∧ App.Status app' = "building")
        ∧ ∀ other after, other ≠ userID →
            after = db w' ∨ after = d ∨ after = d' →
            GetApp out newID other after = inr (Errorf_w "app not found: " ErrNoRows).
Proof.
  intros newID now userID req w later later' tr appName category colorScheme objs es
         Hok Hsel Hfresh.
  unfold CreateApp, queryInsertApp, spawn.
  unfold mbind, Op_bind, mret, Op_ret, orWrap, db_write. rewrite Hok.
  eexists _, _. split; [reflexivity|]. cbn [emit db with_db].
  set (row := App.Build newID userID _ _ _ _ _ _ _ _ _ _ _ _).
  set (d0 := {| apps := (apps (db w) ++ [row])%list; versions := _; users := _ |}).
  assert (Hnone : ∀ u, List.find (addressed newID (Some u)) (apps (db w)) = None).
  { intros u. unfold find_app in Hfresh.
    induction (apps (db w)) as [|y r IH]; [reflexivity|]. simpl in *.
    unfold addressed at 1. destruct (String.eqb (App.ID y) newID); [discriminate|].
    simpl. now apply IH. }
  assert (Hfind : ∀ u, List.find (addressed newID (Some u)) (apps d0)
                       = if String.eqb userID u then Some row else None).
  { intros u. unfold d0. cbn [apps]. rewrite find_snoc, Hnone.
    unfold addressed, row. cbn [App.ID App.UserID]. now rewrite String.eqb_refl. }
  split.
  { unfold GetApp. rewrite Hsel, Hfind, String.eqb_refl. reflexivity. }
  set (d := db (extractConfigAndSetupApp _ _ _ _ _ _ _)).
  set (d' := store (generateAndUploadLogo _ _ _ _ _ _ _ _)).
  destruct (whole_setup_rows later later' newID userID (Description req) appName
              category colorScheme {| db := d0; trace := tr |} objs es)
    as ((_ & _ & g1 & Hrows1 & Hk1 & Ho1) & (_ & _ & g2 & Hrows2 & Hk2 & Ho2)).
  cbn [db] in Hrows1, Hrows2. fold d in Hrows1, Hrows2. fold d' in Hrows2.
  assert (Hread : ∀ g after u,
            apps after = List.map g (apps d0) →
            (∀ a, app_outside_setup (g a) = app_outside_setup a) →
            GetApp out newID u after
            = if String.eqb userID u then inl (without_project (g row))
              else inr (Errorf_w "app not found: " ErrNoRows)).
  { intros g after u Hrows Hk. unfold GetApp. rewrite Hsel, Hrows.
    rewrite (rewritten_find g newID (Some u) (apps d0) Hk), Hfind.
    now destruct (String.eqb userID u). }
  assert (Hrow : ∀ g, (∀ a, app_outside_setup (g a) = app_outside_setup a) →
            app_outside_setup (without_project (g row)) = app_outside_setup row
            ∧ App.Status (without_project (g row)) = "building").
  { intros g Hk. pose proof (Hk row) as H.
    assert (Hp : App.VercelProjectID (g row) = None).
    { unfold app_outside_setup in H. injection H as _ _ _ _ _ Hp _. exact Hp. }
    rewrite (without_project_setup _ Hp), H. split; [reflexivity|].
    assert (Hs : App.Status (without_project (g row)) = App.Status (g row))
      by now destruct (g row).
    rewrite Hs. unfold app_outside_setup in H. now injection H. }
  split.
  - intros after [-> | ->].
    + exists (without_project (g1 row)).
      rewrite (Hread g1 d userID Hrows1 Hk1), String.eqb_refl.
      split; [reflexivity | now apply Hrow].
    + exists (without_project (g2 row)).
      rewrite (Hread g2 d' userID Hrows2 Hk2), String.eqb_refl.
      split; [reflexivity | now apply Hrow].
  - intros other after Hne Hafter.
    apply String.eqb_neq in Hne. rewrite String.eqb_sym in Hne.
    destruct Hafter as [-> | [-> | ->]].
    + unfold GetApp. now rewrite Hsel, Hfind, Hne.
    + now rewrite (Hread g1 d other Hrows1 Hk1), Hne.
    + now rewrite (Hread g2 d' other Hrows2 Hk2), Hne.
Qed.

End WithServices.

(** X21 in the world of the shop: a second application, its setup
    with an endpoint that answers 500, and its logo. *)
Lemma CreateApp_then_GetApp_witness :
  ∃ app w',
    CreateApp calm (λ s, s) "a2" 60 "u2" {| Description := "a blog" |} shop_world
    = (inl app, w')
    ∧ GetApp healthy "a2" "u2" (db w') = inl app
    ∧ let d := db (extractConfigAndSetupApp calm (λ s, s) 70 "a2" "u2"
                     (Description {| Description := "a blog" |})
                     {| db := db w'; trace := [] |}) in
      let d' := store (generateAndUploadLogo studio healthy 80 "a2" "MyApp" "other"
                         "blue" {| store := d; objects := []; effects := [] |}) in
      (∀ after, after = d ∨ after = d' →
         ∃ app', GetApp healthy "a2" "u2" after = inl app'
                 ∧ app_outside_setup app' = app_outside_setup app
                 ∧ App.Status app' = "building")
      ∧ ∀ other after, other ≠ "u2" →
          after = db w' ∨ after = d ∨ after = d' →
          GetApp healthy "a2" other after = inr (Errorf_w "app not found: " ErrNoRows).
Proof.
  apply (CreateApp_then_GetApp calm (λ s, s) studio healthy "a2" 60%Z "u2"
           {| Description := "a blog" |} shop_world 70%Z 80%Z [] "MyApp" "other" "blue"
           [] []).
  - intros a. reflexivity.
  - intros other. reflexivity.
  - reflexivity.
Defined.

End LifecycleFacts.
